(** * gocache: an LRU cache over an intrusive doubly linked ring

    A shallow embedding of the three Go packages of the repository:

    - [dll]        (dll/doublyll.go): the ring of entries with a sentinel;
    - [simplelru]  (simplelru/lru_interface.go): the single-threaded
                   controller, a ring plus a map from keys to entry
                   pointers;
    - [golru]      (package golru): the wrapper that guards a controller
                   with a reader/writer mutex and replays evictions to the
                   user's callback after unlocking.

    Go pointers are addresses into an explicit heap; a nil dereference is a
    panic and is modelled by [None] in a state-and-error monad. *)

From stdpp Require Import gmap list fin_maps strings.

Local Open Scope Z_scope.

(** ** Go's [int] (64 bits, two's complement) *)

Definition int_min : Z := - 2 ^ 63.
Definition int_max : Z := 2 ^ 63 - 1.

(** The value an [int] operation leaves after wrap-around. *)
Definition wrap64 (z : Z) : Z := (z + 2 ^ 63) `mod` 2 ^ 64 - 2 ^ 63.

Definition int_range (z : Z) : Prop := int_min ≤ z ≤ int_max.

(** Every Go type has a zero value: what a named result holds when the
    function returns without assigning it, and what the fields of a freshly
    allocated struct hold. *)
Class GoZero (A : Type) := zero : A.
Global Instance Z_GoZero : GoZero Z := 0.
Global Instance nat_GoZero : GoZero nat := 0%nat.
Global Instance bool_GoZero : GoZero bool := false.

(** Addresses. A pointer value is [option loc], [None] being nil. *)
Definition loc := positive.
Definition ptr := option loc.

(** ** The state-and-error monad

    Go code mutates the heap and panics on a nil dereference or an index
    out of range. [SE S A] threads a state [S] and returns [None] for a
    panic. *)

Definition SE (S A : Type) : Type := S → option (A * S).

Global Instance SE_ret {S} : MRet (SE S) := λ A a s, Some (a, s).
Global Instance SE_bind {S} : MBind (SE S) :=
  λ A B f m s, match m s with
               | Some (a, s') => f a s'
               | None => None
               end.

Definition panic {S A} : SE S A := λ _, None.
(** Dereferencing a pointer: nil panics. *)
Definition nonnil {S} (p : ptr) : SE S loc :=
  match p with
  | Some a => mret a
  | None => panic
  end.

(** ** Package dll *)

Module dll.
Section dll.
Context {K V : Type} `{!GoZero K, !GoZero V}.

(** [type Entry struct]. *)
Record Entry := mkEntry {
  next : ptr;
  prev : ptr;
  list_ : ptr;          (* the field [list *LruList] *)
  Key : K;
  Val : V;
  ExpiresAt : Z;        (* time.Time; the zero time is 0 *)
  ExpireBucket : Z;
}.

(** The heap. A [LruList] allocated at address [l] has its sentinel
    [root] stored as the entry at [l] (so [&l.root] is [l]) and its
    field [len] stored in [lens] at [l]. *)
Record Heap := mkHeap {
  entries : gmap loc Entry;
  lens : gmap loc Z;
}.

Definition M : Type → Type := SE Heap.

(** *** Field reads and writes *)

Definition set_next_e (p : ptr) (e : Entry) : Entry :=
  mkEntry p (prev e) (list_ e) (Key e) (Val e) (ExpiresAt e) (ExpireBucket e).
Definition set_prev_e (p : ptr) (e : Entry) : Entry :=
  mkEntry (next e) p (list_ e) (Key e) (Val e) (ExpiresAt e) (ExpireBucket e).
Definition set_list_e (p : ptr) (e : Entry) : Entry :=
  mkEntry (next e) (prev e) p (Key e) (Val e) (ExpiresAt e) (ExpireBucket e).
Definition set_Val_e (v : V) (e : Entry) : Entry :=
  mkEntry (next e) (prev e) (list_ e) (Key e) v (ExpiresAt e) (ExpireBucket e).

(** Pure heap updates; they leave an unallocated address alone. *)
Definition upd (f : Entry → Entry) (a : loc) (h : Heap) : Heap :=
  mkHeap (alter f a (entries h)) (lens h).
Definition upd_len (l : loc) (n : Z) (h : Heap) : Heap :=
  mkHeap (entries h) (<[l := n]> (lens h)).

(** [a.f], panicking when [a] is not an allocated entry. *)
Definition rd {A} (f : Entry → A) (a : loc) : M A :=
  λ h, match entries h !! a with
       | Some e => Some (f e, h)
       | None => None
       end.
(** [a.f = x]. *)
Definition wr (f : Entry → Entry) (a : loc) : M unit :=
  λ h, match entries h !! a with
       | Some _ => Some (tt, upd f a h)
       | None => None
       end.
Definition rd_len (l : loc) : M Z :=
  λ h, match lens h !! l with
       | Some n => Some (n, h)
       | None => None
       end.
Definition wr_len (l : loc) (n : Z) : M unit :=
  λ h, match lens h !! l with
       | Some _ => Some (tt, upd_len l n h)
       | None => None
       end.

(** The heap with the entry [e] stored at the address [a]. *)
Definition place (a : loc) (e : Entry) (h : Heap) : Heap :=
  mkHeap (<[a := e]> (entries h)) (lens h).

(** [&Entry{Key: k, Val: v, ExpiresAt: t}]: a fresh address holding an
    entry whose other fields are zero. *)
Definition alloc_entry (k : K) (v : V) (t : Z) : M loc :=
  λ h, let a := fresh (dom (entries h)) in
       Some (a, place a (mkEntry None None None k v t 0) h).
(** [new(LruList[K, V])]: a fresh list whose fields are all zero. *)
Definition alloc_list : M loc :=
  λ h, let l := fresh (dom (entries h)) in
       Some (l, upd_len l 0 (place l (mkEntry None None None zero zero 0 0) h)).

(** *** The methods *)

(** [func (e *Entry) PrevEntry() *Entry] *)
Definition PrevEntry (e : loc) : M ptr :=
  prev ← rd prev e;
  l ← rd list_ e;
  match l with
  | Some l => if decide (prev ≠ Some l) then mret prev else mret None
  | None => mret None
  end.

(** [func (l *LruList) Init() *LruList] *)
Definition Init (l : loc) : M loc :=
  wr (set_next_e (Some l)) l;;
  wr (set_prev_e (Some l)) l;;
  wr_len l 0;;
  mret l.

(** [func NewList() *LruList] *)
Definition NewList : M loc :=
  l ← alloc_list; Init l.

(** [func (l *LruList) lazyInit()] *)
Definition lazyInit (l : loc) : M unit :=
  n ← rd next l;
  if decide (n = None) then Init l;; mret tt else mret tt.

(** [func (l *LruList) insert(entry, index *Entry) *Entry] *)
Definition insert (l : loc) (entry index : loc) : M loc :=
  wr (set_prev_e (Some index)) entry;;
  n ← rd next index; wr (set_next_e n) entry;;
  p ← rd prev entry; p ← nonnil p; wr (set_next_e (Some entry)) p;;
  n ← rd next entry; n ← nonnil n; wr (set_prev_e (Some entry)) n;;
  wr (set_list_e (Some l)) entry;;
  len ← rd_len l; wr_len l (wrap64 (len + 1));;
  mret entry.

(** [func (l *LruList) insertValue(k, v, expiresAt, index) *Entry] *)
Definition insertValue (l : loc) (k : K) (v : V) (expiresAt : Z) (index : loc)
    : M loc :=
  entry ← alloc_entry k v expiresAt;
  insert l entry index.

(** [func (l *LruList) PushFront(k K, v V) *Entry] *)
Definition PushFront (l : loc) (k : K) (v : V) : M loc :=
  lazyInit l;;
  insertValue l k v 0 l.

(** [func (l *LruList) PushFrontExpirable(k, v, expiresAt) *Entry] *)
Definition PushFrontExpirable (l : loc) (k : K) (v : V) (expiresAt : Z) : M loc :=
  lazyInit l;;
  insertValue l k v expiresAt l.

(** [func (l *LruList) Remove(entry *Entry) V] *)
Definition Remove (l : loc) (entry : loc) : M V :=
  p ← rd prev entry; p ← nonnil p; n ← rd next entry; wr (set_next_e n) p;;
  n ← rd next entry; n ← nonnil n; p ← rd prev entry; wr (set_prev_e p) n;;
  wr (set_next_e None) entry;;
  wr (set_prev_e None) entry;;
  wr (set_list_e None) entry;;
  len ← rd_len l; wr_len l (wrap64 (len - 1));;
  rd Val entry.

(** [func (l *LruList) move(entry, index *Entry)] *)
Definition move (l : loc) (entry index : loc) : M unit :=
  if decide (entry = index) then mret tt else
  p ← rd prev entry; p ← nonnil p; n ← rd next entry; wr (set_next_e n) p;;
  n ← rd next entry; n ← nonnil n; p ← rd prev entry; wr (set_prev_e p) n;;
  wr (set_prev_e (Some index)) entry;;
  n ← rd next index; wr (set_next_e n) entry;;
  p ← rd prev entry; p ← nonnil p; wr (set_next_e (Some entry)) p;;
  n ← rd next entry; n ← nonnil n; wr (set_prev_e (Some entry)) n.

(** [func (l *LruList) MoveToFront(entry *Entry)] *)
Definition MoveToFront (l : loc) (entry : loc) : M unit :=
  el ← rd list_ entry;
  if decide (el ≠ Some l) then mret tt else
  front ← rd next l;
  if decide (front = Some entry) then mret tt
  else move l entry l.

(** [func (l *LruList) Length() int] *)
Definition Length (l : loc) : M Z := rd_len l.

(** [func (l *LruList) Back() *Entry] *)
Definition Back (l : loc) : M ptr :=
  len ← rd_len l;
  if decide (len = 0) then mret None else rd prev l.

(** *** Reading the heap, and what a well-formed list is *)

(** The field [f] of the entry at [a], if [a] is allocated. *)
Definition fld {A} (f : Entry → A) (h : Heap) (a : loc) : option A :=
  f <$> entries h !! a.
Definition alloc (h : Heap) (a : loc) : Prop := is_Some (entries h !! a).
(** The key/value pair an entry carries. *)
Definition ekv (e : Entry) : K * V := (Key e, Val e).

(** [a.next == b] and [b.prev == a]. *)
Definition link (h : Heap) (a b : loc) : Prop :=
  fld next h a = Some (Some b) ∧ fld prev h b = Some (Some a).

(** The entries [es] are chained, in this order, between [a] and [z]. *)
Fixpoint seg (h : Heap) (a : loc) (es : list loc) (z : loc) : Prop :=
  match es with
  | [] => link h a z
  | e :: es => link h a e ∧ seg h e es z
  end.

(** The list at [l] is a closed ring through its sentinel holding exactly
    the entries [es], front (newest) first; every one of them names [l]
    as its list, and [len] counts them. *)
Record is_list (h : Heap) (l : loc) (es : list loc) : Prop := mk_is_list {
  il_nodup : NoDup (l :: es);
  il_ring : seg h l es l;
  il_owner : ∀ e, e ∈ es → fld list_ h e = Some (Some l);
  il_len : lens h !! l = Some (Z.of_nat (length es));
  il_bound : Z.of_nat (length es) ≤ int_max;
}.

(** The entry before the end of a chain that starts after [a], and the
    entry after the start of a chain that ends before [z]. *)
Definition lastd (a : loc) (es : list loc) : loc := default a (last es).
Definition headd (es : list loc) (z : loc) : loc := default z (head es).

(** The heap after [p.next = n; n.prev = p], the two stores that take an
    entry between [p] and [n] out of the ring. *)
Definition unlinked (p n : loc) (h : Heap) : Heap :=
  upd (set_prev_e (Some p)) n (upd (set_next_e (Some n)) p h).
(** The heap [Remove] leaves: [e] unlinked from between [p] and [n], its
    three pointers cleared, [len] decremented. *)
Definition removed (l e p n : loc) (len : Z) (h : Heap) : Heap :=
  upd_len l (wrap64 (len - 1))
    (upd (set_list_e None) e (upd (set_prev_e None) e (upd (set_next_e None) e
      (unlinked p n h)))).

(** The reading of [PrevEntry] as a step towards the back of the list:
    from the entry at position [i], counted from the front, to the one
    at [i + 1], and to nil from the last one. *)
Definition previous_is_next_older (h : Heap) (es : list loc) : Prop :=
  ∀ i e, es !! i = Some e → PrevEntry e h = Some (es !! S i, h).

(** The entries at [es] carry the pairs [kvs], position by position. *)
Definition carries (h : Heap) (es : list loc) (kvs : list (K * V)) : Prop :=
  fld ekv h <$> es = Some <$> kvs.

(** *** Entries that are not in a list *)

(** The reading of "an entry that does not belong to [l]" as "an entry
    that the ring of [l] does not hold": [MoveToFront] of any such entry
    returns and leaves [l] holding [es], in this order. *)
Definition outsiders_left_alone (h : Heap) (l : loc) (es : list loc) : Prop :=
  ∀ e, alloc h e → e ∉ l :: es →
       ∃ h', MoveToFront l e h = Some (tt, h') ∧ is_list h' l es.

(** A list as [new(LruList)] leaves it: no link is set yet and [len]
    is 0. *)
Definition zero_list (h : Heap) (l : loc) : Prop :=
  fld next h l = Some None ∧ lens h !! l = Some 0.

(** The heaps a program reaches from the empty heap through the exported
    operations of the package, when it calls [Remove] on entries of the
    list only, never pushes onto a list of [int_max] entries, and calls
    [Init] only on a list whose length is 0. [NewList] is [new(LruList)]
    followed by such an [Init], [PushFront] is [PushFrontExpirable] with
    the zero time, [MoveToFront] may be called on any list and any entry,
    and a client may overwrite the exported field [Val]. [Length], [Back]
    and [PrevEntry] only read. *)
Inductive reached : Heap → Prop :=
| reached_empty : reached (mkHeap ∅ ∅)
| reached_new h l h' :
    reached h → alloc_list h = Some (l, h') → reached h'
| reached_Init h l h' :
    reached h → lens h !! l = Some 0 → Init l h = Some (l, h') → reached h'
| reached_PushFrontExpirable h l n k v t e h' :
    reached h → lens h !! l = Some n → n < int_max →
    PushFrontExpirable l k v t h = Some (e, h') → reached h'
| reached_Remove h l xs e ys v h' :
    reached h → is_list h l (xs ++ e :: ys) →
    Remove l e h = Some (v, h') → reached h'
| reached_MoveToFront h l e h' :
    reached h → MoveToFront l e h = Some (tt, h') → reached h'
| reached_Val h e v h' :
    reached h → wr (set_Val_e v) e h = Some (tt, h') → reached h'.

(** Every list reference in the heap is true: the sentinel of a list is
    in no list, a list is either untouched or a well-formed ring, and an
    entry whose [list] field names [l] is one of the entries of the ring
    of [l]. *)
Definition tidy (h : Heap) : Prop :=
  (∀ l, is_Some (lens h !! l) →
        fld list_ h l = Some None ∧ (zero_list h l ∨ ∃ es, is_list h l es)) ∧
  (∀ e l, fld list_ h e = Some (Some l) → ∃ es, is_list h l es ∧ e ∈ es).

(** The links and the list reference of [x] are the same in both heaps. *)
Definition links_same (h h' : Heap) (x : loc) : Prop :=
  fld next h' x = fld next h x ∧ fld prev h' x = fld prev h x ∧
  fld list_ h' x = fld list_ h x.
End dll.
Global Arguments Entry : clear implicits.
Global Arguments Heap : clear implicits.
Global Arguments M : clear implicits.
End dll.

(** ** Package simplelru *)

Module simplelru.
Section simplelru.
Context {K : Type} `{Countable K} {V : Type} `{!GoZero K, !GoZero V}.
(** [W] is the state the eviction callback acts on: a call
    [onEvict(k, v)] turns [w] into [cb k v w]. The callback does not
    re-enter the cache. *)
Context {W : Type}.

(** [type EvictCallback func(key K, value V)] *)
Definition EvictCallback : Type := K → V → W → W.

(** [type LruCache struct] *)
Record LruCache := mkLru {
  size : Z;
  evictList : loc;
  items : gmap K loc;
  onEvict : option EvictCallback;     (* [None] is a nil callback *)
}.

(** The cache, the heap its list lives in, and the callback's world. *)
Record St := mkSt {
  lru : LruCache;
  mem : dll.Heap K V;
  world : W;
}.

Definition M : Type → Type := SE St.

(** A method of the list run on the cache's heap. *)
Definition liftH {A} (m : dll.M K V A) : M A :=
  λ s, match m (mem s) with
       | Some (a, h) => Some (a, mkSt (lru s) h (world s))
       | None => None
       end.

Definition rd_lru {A} (f : LruCache → A) : M A := λ s, Some (f (lru s), s).
Definition set_items (m : gmap K loc) : M unit :=
  λ s, let c := lru s in
       Some (tt, mkSt (mkLru (size c) (evictList c) m (onEvict c)) (mem s) (world s)).
Definition set_size (n : Z) : M unit :=
  λ s, let c := lru s in
       Some (tt, mkSt (mkLru n (evictList c) (items c) (onEvict c)) (mem s) (world s)).
(** [if lru.onEvict != nil { lru.onEvict(k, v) }] *)
Definition call_onEvict (k : K) (v : V) : M unit :=
  λ s, match onEvict (lru s) with
       | Some cb => Some (tt, mkSt (lru s) (mem s) (cb k v (world s)))
       | None => Some (tt, s)
       end.

(** [func NewLru(size int, onEvict EvictCallback)], returning a cache or an error:
    [inr] is the error. *)
Definition NewLru (size : Z) (onEvict : option EvictCallback)
    : dll.M K V (LruCache + string) :=
  if decide (size ≤ 0) then mret (inr "size must be greater than 0"%string)
  else l ← dll.NewList; mret (inl (mkLru size l ∅ onEvict)).

(** [func (lru *LruCache) removeElement(entry *dll.Entry)] *)
Definition removeElement (entry : loc) : M unit :=
  l ← rd_lru evictList;
  liftH (dll.Remove l entry);;
  k ← liftH (dll.rd dll.Key entry);
  m ← rd_lru items; set_items (delete k m);;
  k ← liftH (dll.rd dll.Key entry);
  v ← liftH (dll.rd dll.Val entry);
  call_onEvict k v.

(** [func (lru *LruCache) removeOldest()] *)
Definition removeOldest : M unit :=
  l ← rd_lru evictList;
  entry ← liftH (dll.Back l);
  match entry with
  | Some entry => removeElement entry
  | None => mret tt
  end.

(** [func (lru *LruCache) Purge()]. Go leaves the order of [range] over
    a map unspecified; the order here is that of [map_to_list]. *)
Fixpoint Purge_loop (kvs : list (K * loc)) : M unit :=
  match kvs with
  | [] => mret tt
  | (k, e) :: kvs =>
      v ← liftH (dll.rd dll.Val e);
      call_onEvict k v;;
      m ← rd_lru items; set_items (delete k m);;
      Purge_loop kvs
  end.
Definition Purge : M unit :=
  l ← rd_lru evictList;
  liftH (dll.Init l);;
  m ← rd_lru items;
  Purge_loop (map_to_list m).

(** [func (lru *LruCache) Add(key K, val V) (evict bool)] *)
Definition Add (key : K) (val : V) : M bool :=
  l ← rd_lru evictList;
  m ← rd_lru items;
  match m !! key with
  | Some entry =>
      liftH (dll.MoveToFront l entry);;
      liftH (dll.wr (dll.set_Val_e val) entry);;
      mret false
  | None =>
      entry ← liftH (dll.PushFront l key val);
      m ← rd_lru items; set_items (<[key := entry]> m);;
      len ← liftH (dll.Length l);
      sz ← rd_lru size;
      let evict := bool_decide (len > sz) in
      (if evict then removeOldest else mret tt);;
      mret evict
  end.

(** [func (lru *LruCache) Get(key K) (val V, ok bool)] *)
Definition Get (key : K) : M (V * bool) :=
  l ← rd_lru evictList;
  m ← rd_lru items;
  match m !! key with
  | None => mret (zero, false)
  | Some entry =>
      liftH (dll.MoveToFront l entry);;
      v ← liftH (dll.rd dll.Val entry);
      mret (v, true)
  end.

(** [func (lru *LruCache) GetOldest() (key K, val V, ok bool)] *)
Definition GetOldest : M (K * V * bool) :=
  l ← rd_lru evictList;
  entry ← liftH (dll.Back l);
  match entry with
  | Some entry =>
      k ← liftH (dll.rd dll.Key entry);
      v ← liftH (dll.rd dll.Val entry);
      mret (k, v, true)
  | None => mret (zero, zero, false)
  end.

(** [func (lru *LruCache) Contains(key K) (ok bool)] *)
Definition Contains (key : K) : M bool :=
  m ← rd_lru items;
  mret (bool_decide (is_Some (m !! key))).

(** [func (lru *LruCache) Peek(key K) (val V, ok bool)] *)
Definition Peek (key : K) : M (V * bool) :=
  m ← rd_lru items;
  match m !! key with
  | None => mret (zero, false)
  | Some entry => v ← liftH (dll.rd dll.Val entry); mret (v, true)
  end.

(** [func (lru *LruCache) Len() int] *)
Definition Len : M Z :=
  l ← rd_lru evictList; liftH (dll.Length l).

(** [func (lru *LruCache) Cap() int] *)
Definition Cap : M Z := rd_lru size.

(** The loop of [Keys] and [Vals]: [out[i] = entry.f; i++;
    entry = entry.PrevEntry()] while [entry != nil]. [room] is
    [len(out) - i]; the store panics (index out of range) once no room
    is left, so the loop runs at most [len(out)] times. *)
Fixpoint walk {A} (f : dll.Entry K V → A) (room : nat) (out : list A) (i : nat)
    (entry : ptr) : M (list A) :=
  match entry with
  | None => mret out
  | Some e =>
      match room with
      | O => panic
      | S room =>
          x ← liftH (dll.rd f e);
          e' ← liftH (dll.PrevEntry e);
          walk f room (<[i := x]> out) (S i) e'
      end
  end.

(** [make([]A, n)] panics on a negative length. *)
Definition make_slice {A} `{!GoZero A} (n : Z) : M (list A) :=
  if decide (n < 0) then panic else mret (replicate (Z.to_nat n) zero).

(** [func (lru *LruCache) Keys() []K] *)
Definition Keys : M (list K) :=
  l ← rd_lru evictList;
  n ← liftH (dll.Length l);
  keys ← make_slice n;
  entry ← liftH (dll.Back l);
  walk dll.Key (length keys) keys 0%nat entry.

(** [func (lru *LruCache) Vals() []V] *)
Definition Vals : M (list V) :=
  l ← rd_lru evictList;
  n ← liftH (dll.Length l);
  vals ← make_slice n;
  entry ← liftH (dll.Back l);
  walk dll.Val (length vals) vals 0%nat entry.

(** [for i := 0; i < diff; i++ { body }] *)
Fixpoint times (n : nat) (body : M unit) : M unit :=
  match n with
  | O => mret tt
  | S n => body;; times n body
  end.

(** [func (lru *LruCache) Resize(size int) (evictCount int)] *)
Definition Resize (size : Z) : M Z :=
  len ← Len;
  let diff := wrap64 (len - size) in
  let size := if decide (size < 0) then 0 else size in
  times (Z.to_nat diff) removeOldest;;
  set_size size;;
  rd_lru simplelru.size.

(** [func (lru *LruCache) Remove(key K) (present bool)] *)
Definition Remove (key : K) : M bool :=
  m ← rd_lru items;
  match m !! key with
  | Some entry => removeElement entry;; mret true
  | None => mret false
  end.

(** [func (lru *LruCache) RemoveOldest() (key K, val V, ok bool)] *)
Definition RemoveOldest : M (K * V * bool) :=
  l ← rd_lru evictList;
  entry ← liftH (dll.Back l);
  match entry with
  | Some entry =>
      removeElement entry;;
      k ← liftH (dll.rd dll.Key entry);
      v ← liftH (dll.rd dll.Val entry);
      mret (k, v, true)
  | None => mret (zero, zero, false)
  end.

(** *** The cache as a list of pairs

    What a caller can observe of a cache: its capacity, its callback,
    the pairs it holds from the most to the least recently used, and the
    world the callback has acted on. *)
Record Abs := mkAbs {
  a_cap : Z;
  a_cb : option EvictCallback;
  a_kvs : list (K * V);
  a_world : W;
}.

(** The callback, when there is one, called on each of [evs] in turn. *)
Definition fire (cb : option EvictCallback) (evs : list (K * V)) (w : W) : W :=
  foldl (λ w kv, match cb with Some f => f kv.1 kv.2 w | None => w end) w evs.

Definition with_kvs (kvs : list (K * V)) (a : Abs) : Abs :=
  mkAbs (a_cap a) (a_cb a) kvs (a_world a).
Definition without (k : K) (kvs : list (K * V)) : list (K * V) :=
  filter (λ kv, kv.1 ≠ k) kvs.
(** The value held for [k]. *)
Fixpoint value_of (k : K) (kvs : list (K * V)) : option V :=
  match kvs with
  | [] => None
  | (k', v) :: kvs => if decide (k' = k) then Some v else value_of k kvs
  end.

(** The least recently used pair leaves, and the callback hears of it. *)
Definition m_evict (a : Abs) : Abs :=
  match last (a_kvs a) with
  | Some kv => mkAbs (a_cap a) (a_cb a) (removelast (a_kvs a))
                     (fire (a_cb a) [kv] (a_world a))
  | None => a
  end.
Definition m_add (k : K) (v : V) (a : Abs) : bool * Abs :=
  if decide (k ∈ (a_kvs a).*1) then
    (false, with_kvs ((k, v) :: without k (a_kvs a)) a)
  else
    let a1 := with_kvs ((k, v) :: a_kvs a) a in
    if decide (Z.of_nat (length (a_kvs a1)) > a_cap a) then (true, m_evict a1)
    else (false, a1).
Definition m_get (k : K) (a : Abs) : V * bool * Abs :=
  match value_of k (a_kvs a) with
  | Some v => (v, true, with_kvs ((k, v) :: without k (a_kvs a)) a)
  | None => (zero, false, a)
  end.
Definition m_remove (k : K) (a : Abs) : bool * Abs :=
  match value_of k (a_kvs a) with
  | Some v => (true, mkAbs (a_cap a) (a_cb a) (without k (a_kvs a))
                           (fire (a_cb a) [(k, v)] (a_world a)))
  | None => (false, a)
  end.
(** The pairs a call hands to the callback, in order: the least recently
    used pair for an [Add] that evicts, the pair of the key for a [Remove]
    that finds it, the least recently used pair for an eviction. *)
Definition m_add_gone (k : K) (v : V) (a : Abs) : list (K * V) :=
  if (m_add k v a).1 then option_list (last ((k, v) :: a_kvs a)) else [].
Definition m_remove_gone (k : K) (a : Abs) : list (K * V) :=
  match value_of k (a_kvs a) with
  | Some v => [(k, v)]
  | None => []
  end.
Definition m_evict_gone (a : Abs) : list (K * V) := option_list (last (a_kvs a)).
(** Oldest first, as [Keys] and [Vals] list them. *)
Definition m_keys (a : Abs) : list K := reverse (a_kvs a).*1.
Definition m_vals (a : Abs) : list V := reverse (a_kvs a).*2.
Definition m_resize (n : Z) (a : Abs) : Z * Abs :=
  let diff := wrap64 (Z.of_nat (length (a_kvs a)) - n) in
  let a' := Nat.iter (Z.to_nat diff) m_evict a in
  let cap := if decide (n < 0) then 0 else n in
  (cap, mkAbs cap (a_cb a') (a_kvs a') (a_world a')).

(** The state [s] holds the pairs [kvs] in the entries [es], position by
    position, and its map sends each key to its entry. *)
Record wf (s : St) (es : list loc) (kvs : list (K * V)) : Prop := mk_wf {
  wf_list : dll.is_list (mem s) (evictList (lru s)) es;
  wf_carries : dll.carries (mem s) es kvs;
  wf_items : items (lru s) = list_to_map (zip kvs.*1 es);
  wf_nodup : NoDup kvs.*1;
}.

(** [s] is a well-formed cache that a caller observes as [a]. *)
Definition rep (s : St) (a : Abs) : Prop :=
  size (lru s) = a_cap a ∧ onEvict (lru s) = a_cb a ∧ world s = a_world a ∧
  ∃ es, wf s es (a_kvs a).

(** A cache built by [NewLru] on the heap [h], with the callback's world
    at [w]; [None] when [NewLru] returns its error. *)
Definition new_cache (size : Z) (onEvict : option EvictCallback)
    (h : dll.Heap K V) (w : W) : option St :=
  match NewLru size onEvict h with
  | Some (inl c, h') => Some (mkSt c h' w)
  | _ => None
  end.

(** [Add] called on each pair in turn; the results in order. *)
Fixpoint Adds (kvs : list (K * V)) : M (list bool) :=
  match kvs with
  | [] => mret []
  | (k, v) :: kvs => b ← Add k v; bs ← Adds kvs; mret (b :: bs)
  end.

(** What [Adds] does to the list of pairs. *)
Fixpoint m_adds (kvs : list (K * V)) (a : Abs) : list bool * Abs :=
  match kvs with
  | [] => ([], a)
  | (k, v) :: kvs =>
      let r := m_add k v a in
      let rs := m_adds kvs r.2 in
      (r.1 :: rs.1, rs.2)
  end.

(** A cache that holds no key twice and no more pairs than its capacity,
    which leaves room for one more entry before [len] wraps around. *)
Definition m_ok (a : Abs) : Prop :=
  NoDup (a_kvs a).*1 ∧ Z.of_nat (length (a_kvs a)) ≤ a_cap a ∧ a_cap a < int_max.

(** *** Sequences of calls *)

(** A call of one of the methods, by a caller that drops what it returns. *)
Inductive Call :=
| CAdd (k : K) (v : V)
| CGet (k : K)
| CPeek (k : K)
| CContains (k : K)
| CRemove (k : K)
| CRemoveOldest
| CGetOldest
| CKeys
| CVals
| CLen
| CCap
| CPurge
| CResize (n : Z).

Definition run_call (c : Call) : M unit :=
  match c with
  | CAdd k v => Add k v;; mret tt
  | CGet k => Get k;; mret tt
  | CPeek k => Peek k;; mret tt
  | CContains k => Contains k;; mret tt
  | CRemove k => Remove k;; mret tt
  | CRemoveOldest => RemoveOldest;; mret tt
  | CGetOldest => GetOldest;; mret tt
  | CKeys => Keys;; mret tt
  | CVals => Vals;; mret tt
  | CLen => Len;; mret tt
  | CCap => Cap;; mret tt
  | CPurge => Purge
  | CResize n => Resize n;; mret tt
  end.

Fixpoint run_calls (cs : list Call) : M unit :=
  match cs with
  | [] => mret tt
  | c :: cs => run_call c;; run_calls cs
  end.

(** A size far enough from the ends of [int] for the length of a cache of
    that capacity, and its difference with another such size, to be an
    [int]. *)
Definition small (n : Z) : Prop := - 2 ^ 62 ≤ n < 2 ^ 62.
Definition small_call (c : Call) : Prop :=
  match c with
  | CResize n => small n
  | _ => True
  end.
End simplelru.
Global Arguments LruCache : clear implicits.
Global Arguments LruCache _ {_ _} _ _.
Global Arguments St : clear implicits.
Global Arguments St _ {_ _} _ _.
Global Arguments M : clear implicits.
Global Arguments M _ {_ _} _ _.
Global Arguments Abs : clear implicits.
Global Arguments Abs _ _ _ : clear implicits.
Global Arguments Call : clear implicits.
End simplelru.

(** ** Package golru *)

Module golru.
Section golru.
Context {K : Type} `{Countable K} {V : Type} `{!GoZero K, !GoZero V}.

(** [const DefaultEvictedBufferSize = 16]: the capacity the scratch
    buffers are made with. A slice is modelled by the list of its
    elements, so the capacity leaves no trace. *)
Definition DefaultEvictedBufferSize : Z := 16.

(** The fields [keysEvicted] and [valsEvicted] of [Cache]. They are the
    world the controller's callback acts on. *)
Record Buffers := mkBuffers {
  keysEvicted : list K;
  valsEvicted : list V;
}.

(** [sync.RWMutex]: whether a writer holds it, and how many readers. *)
Record RWMutex := mkRWMutex {
  writer : bool;
  readers : nat;
}.

(** The methods of the controller the wrapper calls. *)
Inductive CtlOp :=
| OpPurge | OpAdd | OpContains | OpPeek | OpRemove | OpResize
| OpRemoveOldest | OpGet | OpGetOldest | OpKeys | OpVals | OpLen | OpCap.

(** What a call of the wrapper does, in order. [EvUnlock] records what the
    scratch buffers hold when the exclusive lock is released; [EvCtl] and
    [EvCallback] record the state of the mutex when the controller is
    entered and when the user's callback is invoked. *)
Inductive Event :=
| EvLock
| EvUnlock (keys : list K) (vals : list V)
| EvRLock
| EvRUnlock
| EvCtl (op : CtlOp) (m : RWMutex)
| EvCallback (k : K) (v : V) (m : RWMutex).

(** [type Cache struct]. [ctl] is the controller [lru] points to, with the
    heap it lives in and the two buffers; [onEvictCb] tells whether the
    user's callback is non-nil (calling it is the event [EvCallback]);
    [trace] is the history of events. *)
Record Cache := mkCache {
  rwm : RWMutex;
  ctl : simplelru.St K V Buffers;
  onEvictCb : bool;
  trace : list Event;
}.

Definition M : Type → Type := SE Cache.

Definition buffers (c : Cache) : Buffers := simplelru.world (ctl c).

Definition emit (e : Event) (c : Cache) : Cache :=
  mkCache (rwm c) (ctl c) (onEvictCb c) (trace c ++ [e]).
Definition set_rwm (m : RWMutex) (c : Cache) : Cache :=
  mkCache m (ctl c) (onEvictCb c) (trace c).
Definition set_buffers (b : Buffers) : M unit :=
  λ c, let s := ctl c in
       Some (tt, mkCache (rwm c)
                   (simplelru.mkSt (simplelru.lru s) (simplelru.mem s) b)
                   (onEvictCb c) (trace c)).
Definition rd_cache {A} (f : Cache → A) : M A := λ c, Some (f c, c).

(** [c.rwm.Lock()]. With a single caller, a lock that is already held is
    never released: the call does not return. *)
Definition Lock : M unit :=
  λ c, if writer (rwm c) || negb (readers (rwm c) =? 0)%nat then None
       else Some (tt, emit EvLock (set_rwm (mkRWMutex true 0) c)).
(** [c.rwm.Unlock()]; unlocking an unlocked mutex is a fatal error. *)
Definition Unlock : M unit :=
  λ c, if writer (rwm c)
       then Some (tt, emit (EvUnlock (keysEvicted (buffers c)) (valsEvicted (buffers c)))
                        (set_rwm (mkRWMutex false (readers (rwm c))) c))
       else None.
(** [c.rwm.RLock()] *)
Definition RLock : M unit :=
  λ c, if writer (rwm c) then None
       else Some (tt, emit EvRLock (set_rwm (mkRWMutex false (S (readers (rwm c)))) c)).
(** [c.rwm.RUnlock()] *)
Definition RUnlock : M unit :=
  λ c, match readers (rwm c) with
       | O => None
       | S n => Some (tt, emit EvRUnlock (set_rwm (mkRWMutex (writer (rwm c)) n) c))
       end.

(** [c.lru.op(...)]: a method of the controller, entered now. *)
Definition call {A} (op : CtlOp) (m : simplelru.M K V Buffers A) : M A :=
  λ c, match m (ctl c) with
       | Some (a, s) =>
           Some (a, mkCache (rwm c) s (onEvictCb c) (trace c ++ [EvCtl op (rwm c)]))
       | None => None
       end.
(** [c.onEvictCb(k, v)] *)
Definition callback (k : K) (v : V) : M unit :=
  λ c, Some (tt, emit (EvCallback k v (rwm c)) c).

(** [func (c *Cache) initEvictBuffer()] *)
Definition initEvictBuffer : M unit := set_buffers (mkBuffers [] []).

(** [func (c *Cache) onEvict(key K, val V)], the callback the controller
    is given. *)
Definition onEvict (key : K) (val : V) (b : Buffers) : Buffers :=
  mkBuffers (keysEvicted b ++ [key]) (valsEvicted b ++ [val]).

(** [func NewLruWithEvict(size int, onEvict func(key K, val V))], on the
    heap [h]; [inr] is the error of the controller's constructor. *)
Definition NewLruWithEvict (size : Z) (onEvictCb : bool) (h : dll.Heap K V)
    : option (Cache + string) :=
  let cb := if onEvictCb then Some onEvict else None in
  match simplelru.NewLru size cb h with
  | Some (inl lru, h') =>
      Some (inl (mkCache (mkRWMutex false 0)
                         (simplelru.mkSt lru h' (mkBuffers [] []))
                         onEvictCb []))
  | Some (inr err, _) => Some (inr err)
  | None => None
  end.

(** [func NewLru(size int)] *)
Definition NewLru (size : Z) (h : dll.Heap K V) : option (Cache + string) :=
  NewLruWithEvict size false h.

(** [k = c.keysEvicted[0]; v = c.valsEvicted[0];
     c.keysEvicted = c.keysEvicted[:0]; c.valsEvicted = c.valsEvicted[:0]]:
    indexing an empty slice panics. *)
Definition take_first : M (K * V) :=
  b ← rd_cache buffers;
  match keysEvicted b !! 0%nat, valsEvicted b !! 0%nat with
  | Some k, Some v => set_buffers (mkBuffers [] []);; mret (k, v)
  | _, _ => panic
  end.

(** [keys = c.keysEvicted; vals = c.valsEvicted; c.initEvictBuffer()] *)
Definition take_all : M (list K * list V) :=
  b ← rd_cache buffers;
  initEvictBuffer;;
  mret (keysEvicted b, valsEvicted b).

(** [for i := 0; i < len(keys); i++ { c.onEvictCb(keys[i], vals[i]) }],
    from the index [i] on, [keys] being what is left of the keys. *)
Fixpoint deliver (keys : list K) (vals : list V) (i : nat) : M unit :=
  match keys with
  | [] => mret tt
  | k :: keys =>
      match vals !! i with
      | Some v => callback k v;; deliver keys vals (S i)
      | None => panic
      end
  end.

(** [func (c *Cache) Purge()] *)
Definition Purge : M unit :=
  Lock;;
  call OpPurge simplelru.Purge;;
  cb ← rd_cache onEvictCb;
  b ← rd_cache buffers;
  kvs ← (if cb && bool_decide (0 < length (keysEvicted b))%nat
         then take_all else mret ([], []) : M (list K * list V));
  Unlock;;
  if (cb : bool) then deliver kvs.1 kvs.2 0%nat else mret tt.

(** The part the methods [Add], [ContainsOrAdd], [PeekOrAdd], [Remove]
    and [RemoveOldest] share, [hit] being [evicted], [present] or [ok]:
    [if c.onEvictCb != nil && hit { k, v = first of the buffers; clear }
     c.rwm.Unlock()
     if c.onEvictCb != nil && hit { c.onEvictCb(k, v) }]. *)
Definition unlock_and_report (hit : bool) : M unit :=
  cb ← rd_cache onEvictCb;
  kv ← (if cb && hit then take_first else mret (zero, zero) : M (K * V));
  Unlock;;
  if (cb : bool) && hit then callback kv.1 kv.2 else mret tt.

(** [func (c *Cache) Add(key K, val V) bool] *)
Definition Add (key : K) (val : V) : M bool :=
  Lock;;
  evicted ← call OpAdd (simplelru.Add key val);
  unlock_and_report evicted;;
  mret evicted.

(** [func (c *Cache) ContainsOrAdd(key K, val V) (ok, evicted bool)] *)
Definition ContainsOrAdd (key : K) (val : V) : M (bool * bool) :=
  Lock;;
  ok ← call OpContains (simplelru.Contains key);
  if (ok : bool) then Unlock;; mret (true, false)
  else
    evicted ← call OpAdd (simplelru.Add key val);
    unlock_and_report evicted;;
    mret (false, evicted).

(** [func (c *Cache) PeekOrAdd(key K, val V) (prev V, ok, evicted bool)] *)
Definition PeekOrAdd (key : K) (val : V) : M (V * bool * bool) :=
  Lock;;
  r ← call OpPeek (simplelru.Peek key);
  let prev := r.1 in
  if (r.2 : bool) then Unlock;; mret (prev, true, false)
  else
    evicted ← call OpAdd (simplelru.Add key val);
    unlock_and_report evicted;;
    mret (prev, false, evicted).

(** [func (c *Cache) Remove(key K) bool] *)
Definition Remove (key : K) : M bool :=
  Lock;;
  present ← call OpRemove (simplelru.Remove key);
  unlock_and_report present;;
  mret present.

(** [func (c *Cache) Resize(size int) int] *)
Definition Resize (size : Z) : M Z :=
  Lock;;
  evicted ← call OpResize (simplelru.Resize size);
  cb ← rd_cache onEvictCb;
  kvs ← (if cb && bool_decide (evicted > 0)
         then take_all else mret ([], []) : M (list K * list V));
  Unlock;;
  (if (cb : bool) && bool_decide (evicted > 0) then deliver kvs.1 kvs.2 0%nat
   else mret tt);;
  mret evicted.

(** [func (c *Cache) RemoveOldest() (K, V, bool)] *)
Definition RemoveOldest : M (K * V * bool) :=
  Lock;;
  r ← call OpRemoveOldest simplelru.RemoveOldest;
  unlock_and_report r.2;;
  mret r.

(** [func (c *Cache) Get(key K) (V, bool)]; the deferred [Unlock] runs
    once the result is computed. *)
Definition Get (key : K) : M (V * bool) :=
  Lock;;
  r ← call OpGet (simplelru.Get key);
  Unlock;;
  mret r.

(** [func (c *Cache) Contains(key K) bool] *)
Definition Contains (key : K) : M bool :=
  RLock;;
  r ← call OpContains (simplelru.Contains key);
  RUnlock;;
  mret r.

(** [func (c *Cache) Peek(key K) (V, bool)] *)
Definition Peek (key : K) : M (V * bool) :=
  RLock;;
  r ← call OpPeek (simplelru.Peek key);
  RUnlock;;
  mret r.

(** [func (c *Cache) GetOldest() (K, V, bool)]: [RUnlock] is called, not
    deferred. *)
Definition GetOldest : M (K * V * bool) :=
  RLock;;
  RUnlock;;
  call OpGetOldest simplelru.GetOldest.

(** [func (c *Cache) Keys() []K] *)
Definition Keys : M (list K) :=
  RLock;;
  RUnlock;;
  call OpKeys simplelru.Keys.

(** [func (c *Cache) Vals() []V] *)
Definition Vals : M (list V) :=
  RLock;;
  RUnlock;;
  call OpVals simplelru.Vals.

(** [func (c *Cache) Len() int] *)
Definition Len : M Z :=
  RLock;;
  RUnlock;;
  call OpLen simplelru.Len.

(** [func (c *Cache) Cap() int] *)
Definition Cap : M Z := call OpCap simplelru.Cap.

(** *** Reading a trace *)

(** The mutex nobody holds. *)
Definition free : RWMutex := mkRWMutex false 0.

(** The events a call adds to the trace of [c] when it leaves [c']. *)
Definition events_since (c c' : Cache) : list Event :=
  drop (length (trace c)) (trace c').

(** The calls of the user's callback on the pairs [gone], made with the
    mutex free; none when there is no callback. *)
Definition callbacks (cbf : bool) (gone : list (K * V)) : list Event :=
  if cbf then (λ kv, EvCallback kv.1 kv.2 free) <$> gone else [].

(** A cache between two calls: nobody holds the mutex, the buffers are
    empty, the controller holds the pairs of [a], and its callback is
    [onEvict] when the user has given one and nil otherwise. *)
Definition idle (c : Cache) (a : simplelru.Abs K V Buffers) : Prop :=
  rwm c = free ∧ simplelru.rep (ctl c) a ∧
  simplelru.a_cb a = (if onEvictCb c then Some onEvict else None) ∧
  simplelru.a_world a = mkBuffers [] [].

(** Every release of the exclusive lock in [t] finds the buffers empty. *)
Definition unlocks_clean (t : list Event) : Prop :=
  ∀ keys vals, EvUnlock keys vals ∈ t → keys = [] ∧ vals = [].

(** The pairs the user's callback was invoked with, in order. *)
Definition delivered (t : list Event) : list (K * V) :=
  omap (λ e, match e with EvCallback k v _ => Some (k, v) | _ => None end) t.

(** Every invocation of the user's callback in [t] found the mutex free. *)
Definition callbacks_unlocked (t : list Event) : Prop :=
  ∀ k v m, EvCallback k v m ∈ t → writer m = false ∧ readers m = 0%nat.

(** What a mutating method owes its caller, [gone] being the pairs the
    controller has evicted during the call: the buffers are empty whenever
    the exclusive lock is released, and the user's callback, if there is
    one, is called on the pairs of [gone], once each and in that order,
    with the mutex free. *)
Definition follows_protocol (cbf : bool) (gone : list (K * V)) (t : list Event)
    : Prop :=
  unlocks_clean t ∧ callbacks_unlocked t ∧ delivered t = (if cbf then gone else []).

(** *** Sequences of calls *)

(** A call of one of the methods of [Cache], by a caller that drops what it
    returns. *)
Inductive Call :=
| CAdd (k : K) (v : V)
| CContainsOrAdd (k : K) (v : V)
| CPeekOrAdd (k : K) (v : V)
| CRemove (k : K)
| CRemoveOldest
| CPurge
| CResize (n : Z)
| CGet (k : K)
| CContains (k : K)
| CPeek (k : K)
| CGetOldest
| CKeys
| CVals
| CLen
| CCap.

Definition run_call (c : Call) : M unit :=
  match c with
  | CAdd k v => Add k v;; mret tt
  | CContainsOrAdd k v => ContainsOrAdd k v;; mret tt
  | CPeekOrAdd k v => PeekOrAdd k v;; mret tt
  | CRemove k => Remove k;; mret tt
  | CRemoveOldest => RemoveOldest;; mret tt
  | CPurge => Purge
  | CResize n => Resize n;; mret tt
  | CGet k => Get k;; mret tt
  | CContains k => Contains k;; mret tt
  | CPeek k => Peek k;; mret tt
  | CGetOldest => GetOldest;; mret tt
  | CKeys => Keys;; mret tt
  | CVals => Vals;; mret tt
  | CLen => Len;; mret tt
  | CCap => Cap;; mret tt
  end.

Fixpoint run_calls (cs : list Call) : M unit :=
  match cs with
  | [] => mret tt
  | c :: cs => run_call c;; run_calls cs
  end.

(** The calls of [Resize] with a positive size, within [2^62]. *)
Definition positive_resize (c : Call) : Prop :=
  match c with
  | CResize n => 0 < n ∧ simplelru.small n
  | _ => True
  end.
End golru.
Global Arguments Buffers : clear implicits.
Global Arguments Event : clear implicits.
Global Arguments Cache : clear implicits.
Global Arguments Cache _ {_ _} _.
Global Arguments M : clear implicits.
Global Arguments M _ {_ _} _ _.
Global Arguments Call : clear implicits.
End golru.

(** ** Concrete lists and caches, with keys and values in [Z] *)

Module Examples.
Definition heap0 : dll.Heap Z Z := dll.mkHeap ∅ ∅.

(** What [m] leaves of the heap, and the empty heap if it panics. *)
Definition heap_after {A} (m : dll.M Z Z A) (h : dll.Heap Z Z) : dll.Heap Z Z :=
  match m h with
  | Some (_, h') => h'
  | None => heap0
  end.

(** [l := NewList(); l.PushFront(1, 10); l.PushFront(2, 20)]: the list is
    at address 1, the entry of key 1 at 2 and the entry of key 2 at 3. *)
Definition two_pushes : dll.M Z Z (loc * loc * loc) :=
  l ← dll.NewList;
  e1 ← dll.PushFront l 1 10;
  e2 ← dll.PushFront l 2 20;
  mret (l, e1, e2).
Definition h_two : dll.Heap Z Z := heap_after two_pushes heap0.

(** [l := NewList(); e1 := l.PushFront(1, 10); l.Init(); l.PushFront(2, 20)]:
    the list at address 1 holds the entry of key 2, at address 3; the
    entry of key 1, at address 2, was dropped by [Init]. *)
Definition push_Init_push : dll.M Z Z (loc * loc * loc) :=
  l ← dll.NewList;
  e1 ← dll.PushFront l 1 10;
  dll.Init l;;
  e2 ← dll.PushFront l 2 20;
  mret (l, e1, e2).
Definition h_stale : dll.Heap Z Z := heap_after push_Init_push heap0.

(** The callback that logs the pairs it is called with. *)
Definition log : option (Z → Z → list (Z * Z) → list (Z * Z)) :=
  Some (λ k v w, w ++ [(k, v)]).

(** What [m] leaves of a cache, when it returns. *)
Definition state_after {W A} (m : simplelru.M Z Z W A)
    (s : option (simplelru.St Z Z W)) : option (simplelru.St Z Z W) :=
  match s with
  | Some s => snd <$> m s
  | None => None
  end.
Definition result_of {W A} (m : simplelru.M Z Z W A)
    (s : option (simplelru.St Z Z W)) : option A :=
  match s with
  | Some s => fst <$> m s
  | None => None
  end.

Definition pairs3 : list (Z * Z) := [(1, 10); (2, 20); (3, 30)].

(** [NewLru(3, log)] followed by [Add(1, 10); Add(2, 20); Add(3, 30)]. *)
Definition three : option (simplelru.St Z Z (list (Z * Z))) :=
  state_after (simplelru.Adds pairs3)
              (simplelru.new_cache 3 log heap0 []).

(** The wrapper: [NewLruWithEvict(size, cb)] on the empty heap. *)
Definition wrapper (size : Z) (cb : bool) : option (golru.Cache Z Z) :=
  match golru.NewLruWithEvict size cb heap0 with
  | Some (inl c) => Some c
  | _ => None
  end.
Definition cache_after {A} (m : golru.M Z Z A) (c : option (golru.Cache Z Z))
    : option (golru.Cache Z Z) :=
  match c with
  | Some c => snd <$> m c
  | None => None
  end.
Definition returned {A} (m : golru.M Z Z A) (c : option (golru.Cache Z Z))
    : option A :=
  match c with
  | Some c => fst <$> m c
  | None => None
  end.
(** The events [m] adds to the trace. *)
Definition events_of {A} (m : golru.M Z Z A) (c : option (golru.Cache Z Z))
    : option (list (golru.Event Z Z)) :=
  match c with
  | Some c => (λ r, golru.events_since c r.2) <$> m c
  | None => None
  end.

(** [NewLruWithEvict(2, cb)] followed by [Add(1, 10); Add(2, 20)]. *)
Definition full_wrapper : option (golru.Cache Z Z) :=
  cache_after (golru.Add 1 10;; golru.Add 2 20) (wrapper 2 true).

(** The controller of [full_wrapper], built without the wrapper. *)
Definition full_ctl : option (simplelru.St Z Z (golru.Buffers Z Z)) :=
  state_after (simplelru.Adds [(1, 10); (2, 20)])
              (simplelru.new_cache 2 (Some golru.onEvict) heap0 (golru.mkBuffers [] [])).
End Examples.

(** * What the code does

    ** The monad and the heap *)

Lemma SE_bind_run {S A B} (m : SE S A) (f : A → SE S B) s a s' :
  m s = Some (a, s') → (m ≫= f) s = f a s'.
Proof. intros E. unfold mbind, SE_bind. by rewrite E. Qed.

Lemma SE_bind_assoc {S A B C} (m : SE S A) (f : A → SE S B) (g : B → SE S C) s :
  ((m ≫= f) ≫= g) s = (m ≫= λ x, f x ≫= g) s.
Proof. unfold mbind, SE_bind. by destruct (m s) as [[]|]. Qed.

Lemma wrap64_id z : int_range z → wrap64 z = z.
Proof.
  unfold int_range, int_min, int_max, wrap64. intros ?.
  rewrite Z.mod_small; lia.
Qed.

Module dll_facts.
Import dll.
Section facts.
Context {K V : Type} `{!GoZero K, !GoZero V}.
Implicit Types (h : Heap K V) (a b e l : loc) (es : list loc).

Lemma rd_run {A} (f : Entry K V → A) a h x :
  fld f h a = Some x → rd f a h = Some (x, h).
Proof.
  unfold fld, rd. destruct (entries h !! a); simpl; [|done]. by intros [= ->].
Qed.

Lemma wr_run g a h : alloc h a → wr g a h = Some (tt, upd g a h).
Proof. intros [x E]. unfold wr. by rewrite E. Qed.

Lemma fld_alloc {A} (f : Entry K V → A) h a x : fld f h a = Some x → alloc h a.
Proof. unfold fld, alloc. destruct (entries h !! a); naive_solver. Qed.

Lemma alloc_upd g b h a : alloc (upd g b h) a ↔ alloc h a.
Proof.
  unfold alloc, upd; simpl. rewrite lookup_alter. case_decide; subst; [|done].
  by rewrite fmap_is_Some.
Qed.

Lemma alloc_upd_len l n h a : alloc (upd_len l n h) a ↔ alloc h a.
Proof. done. Qed.

Lemma fld_upd_ne {A} (f : Entry K V → A) g a b h :
  a ≠ b → fld f (upd g b h) a = fld f h a.
Proof. intros ?. unfold fld, upd; simpl. by rewrite lookup_alter_ne. Qed.

Lemma fld_upd_frame {A} (f : Entry K V → A) g a b h :
  (∀ x, f (g x) = f x) → fld f (upd g b h) a = fld f h a.
Proof.
  intros Hf. unfold fld, upd; simpl. rewrite lookup_alter. case_decide; subst; [|done].
  destruct (entries h !! a); simpl; by rewrite ?Hf.
Qed.

Lemma fld_upd_hit {A} (f : Entry K V → A) g a h x :
  (∀ y, f (g y) = x) → alloc h a → fld f (upd g a h) a = Some x.
Proof.
  intros Hf [y E]. unfold fld, upd; simpl. rewrite lookup_alter_eq, E. simpl. by rewrite Hf.
Qed.

Lemma fld_upd_len {A} (f : Entry K V → A) l n h a :
  fld f (upd_len l n h) a = fld f h a.
Proof. done. Qed.

Lemma fld_place_eq {A} (f : Entry K V → A) a ent h :
  fld f (place a ent h) a = Some (f ent).
Proof. unfold fld, place; simpl. by rewrite lookup_insert_eq. Qed.
Lemma fld_place_ne {A} (f : Entry K V → A) a b ent h :
  a ≠ b → fld f (place b ent h) a = fld f h a.
Proof. intros ?. unfold fld, place; simpl. by rewrite lookup_insert_ne. Qed.
Lemma alloc_place a b ent h : alloc (place b ent h) a ↔ a = b ∨ alloc h a.
Proof.
  unfold alloc, place; simpl. rewrite lookup_insert. case_decide; subst.
  - split; eauto.
  - naive_solver.
Qed.
Lemma fresh_not_alloc h : ¬ alloc h (fresh (dom (entries h))).
Proof. unfold alloc. rewrite <-elem_of_dom. apply is_fresh. Qed.

Lemma rd_len_run l h n : lens h !! l = Some n → rd_len l h = Some (n, h).
Proof. intros E. unfold rd_len. by rewrite E. Qed.
Lemma wr_len_run l h n : is_Some (lens h !! l) → wr_len l n h = Some (tt, upd_len l n h).
Proof. intros [x E]. unfold wr_len. by rewrite E. Qed.
Lemma lens_upd g a h : lens (upd g a h) = lens h.
Proof. done. Qed.
Lemma nonnil_run {S} a (s : S) : nonnil (Some a) s = Some (a, s).
Proof. done. Qed.
Lemma mret_run {S A} (a : A) (s : S) : (mret a : SE S A) s = Some (a, s).
Proof. done. Qed.
End facts.

Ltac alloc_solve :=
  repeat first [ rewrite alloc_upd_len | rewrite alloc_upd | rewrite alloc_place ];
  first [ eassumption | eapply fld_alloc; eassumption | by left | right; eassumption
        | right; eapply fld_alloc; eassumption ].
Ltac fld_side := intros; simpl; reflexivity.
Ltac fld_simpl :=
  repeat first
    [ rewrite fld_upd_len
    | rewrite fld_upd_frame by fld_side
    | erewrite fld_upd_hit by (first [ fld_side | alloc_solve ])
    | rewrite fld_upd_ne by congruence
    | rewrite fld_place_eq
    | rewrite fld_place_ne by congruence ].
Ltac fld_solve := fld_simpl; first [ eassumption | reflexivity ].
Ltac run_prim :=
  first
    [ apply mret_run
    | apply nonnil_run
    | apply rd_run; fld_solve
    | apply wr_run; alloc_solve
    | apply rd_len_run; simpl; rewrite ?lookup_insert_eq; first [ eassumption | reflexivity ]
    | apply wr_len_run; simpl; rewrite ?lookup_insert_eq; eauto ].
Ltac run_step :=
  lazymatch goal with
  | |- mbind _ (mbind _ _) _ = _ => eapply eq_trans; [ apply SE_bind_assoc | cbv beta ]
  | |- mbind _ _ _ = _ => eapply eq_trans; [ apply SE_bind_run; run_prim | cbv beta ]
  | |- _ = _ => run_prim
  end.

Section closed.
Context {K V : Type} `{!GoZero K, !GoZero V}.
Implicit Types (h : Heap K V) (a b e l : loc) (es : list loc).

Lemma Remove_run h l e p n len v :
  fld prev h e = Some (Some p) → fld next h e = Some (Some n) →
  e ≠ p → e ≠ n → alloc h p → alloc h n →
  lens h !! l = Some len → fld Val h e = Some v →
  Remove l e h = Some (v, removed l e p n len h).
Proof.
  intros. unfold Remove, removed, unlinked.
  repeat run_step.
Qed.

Lemma lastd_cons a x es : lastd a (x :: es) = lastd x es.
Proof.
  unfold lastd. rewrite last_cons. by destruct (last es).
Qed.
Lemma lastd_in a es : lastd a es ∈ a :: es.
Proof.
  revert a. induction es as [|x es IH]; intros a.
  - set_solver.
  - rewrite lastd_cons. specialize (IH x). set_solver.
Qed.
Lemma headd_in es z : headd es z ∈ es ++ [z].
Proof. destruct es; set_solver. Qed.
Lemma lastd_snoc a es x : lastd a (es ++ [x]) = x.
Proof. unfold lastd. by rewrite last_snoc. Qed.

Lemma seg_app h a xs e ys z :
  seg h a (xs ++ e :: ys) z ↔ seg h a xs e ∧ seg h e ys z.
Proof.
  revert a. induction xs as [|x xs IH]; intros a; simpl; [done|].
  rewrite IH. naive_solver.
Qed.

Lemma seg_frame h h' a es z :
  (∀ x, x ∈ a :: es → fld next h' x = fld next h x) →
  (∀ x, x ∈ es ++ [z] → fld prev h' x = fld prev h x) →
  seg h a es z → seg h' a es z.
Proof.
  revert a. induction es as [|e es IH]; intros a Hn Hp; simpl.
  - unfold link. rewrite Hn, Hp by set_solver. done.
  - intros [[??] ?]. split.
    + unfold link. rewrite Hn, Hp by set_solver. done.
    + apply IH; [intros; apply Hn | intros; apply Hp |]; set_solver.
Qed.

Lemma seg_last h a xs e : seg h a xs e → link h (lastd a xs) e.
Proof.
  revert a. induction xs as [|x xs IH]; intros a; simpl; [done|].
  intros [_ ?]. rewrite lastd_cons. by apply IH.
Qed.
Lemma seg_head h e ys z : seg h e ys z → link h e (headd ys z).
Proof. destruct ys; simpl; naive_solver. Qed.

Lemma seg_alloc h a es z x : seg h a es z → x ∈ a :: es ++ [z] → alloc h x.
Proof.
  revert a. induction es as [|e es IH]; intros a; simpl.
  - intros [??] Hx. assert (x = a ∨ x = z) as [->| ->] by set_solver;
      eapply fld_alloc; eauto.
  - intros [[??] ?] Hx. apply elem_of_cons in Hx as [->|Hx].
    + eapply fld_alloc; eauto.
    + eapply IH; eauto.
Qed.

(** Taking [e] out of a chain: only the [next] of its predecessor and the
    [prev] of its successor change. *)
Lemma seg_unlink h h' a xs e ys z :
  seg h a (xs ++ e :: ys) z →
  NoDup (a :: xs ++ e :: ys) → z ∉ xs ++ e :: ys →
  link h' (lastd a xs) (headd ys z) →
  (∀ x, x ∈ a :: xs ++ ys → x ≠ lastd a xs → fld next h' x = fld next h x) →
  (∀ x, x ∈ xs ++ ys ++ [z] → x ≠ headd ys z → fld prev h' x = fld prev h x) →
  seg h' a (xs ++ ys) z.
Proof.
  revert a. induction xs as [|x0 xs IH]; intros a Hseg Hnd Hz Hl Hn Hp.
  - simpl in *. destruct Hseg as [_ Hseg].
    destruct ys as [|y ys]; simpl in *; [done|].
    split; [done|]. destruct Hseg as [_ Hseg].
    apply NoDup_cons in Hnd as [Ha Hnd]. apply NoDup_cons in Hnd as [He Hnd].
    apply NoDup_cons in Hnd as [Hy Hnd].
    eapply seg_frame; [| |done].
    + intros x Hx. apply Hn; [set_solver|]. unfold lastd; simpl. set_solver.
    + intros x Hx. apply Hp; [set_solver|]. unfold headd; simpl.
      intros ->. set_solver.
  - rewrite lastd_cons in *. simpl in Hseg. destruct Hseg as [[Hn0 Hp0] Hseg].
    pose proof (lastd_in x0 xs) as Hlast. pose proof (headd_in ys z) as Hhd.
    apply NoDup_cons in Hnd as [Ha Hnd]. simpl.
    split.
    + unfold link. rewrite Hn, Hp; [done| set_solver | | set_solver | ].
      * intros E. rewrite <-E in Hhd. apply NoDup_cons in Hnd as [Hx0 _].
        set_solver.
      * intros E. rewrite <-E in Hlast. set_solver.
    + apply IH; [done|done|set_solver|done| |].
      * intros x Hx. apply Hn. set_solver.
      * intros x Hx. apply Hp. set_solver.
Qed.

(** *** What the methods do to a well-formed list *)

Lemma is_list_alloc h l es x : is_list h l es → x ∈ l :: es → alloc h x.
Proof. intros [] ?. eapply seg_alloc; [done|]. set_solver. Qed.

Lemma is_list_front h l es :
  is_list h l es → fld next h l = Some (Some (headd es l)).
Proof. intros []. by eapply seg_head. Qed.
Lemma is_list_back h l es :
  is_list h l es → fld prev h l = Some (Some (lastd l es)).
Proof. intros []. by eapply seg_last. Qed.

Lemma is_list_at h l xs e ys :
  is_list h l (xs ++ e :: ys) →
  fld prev h e = Some (Some (lastd l xs)) ∧
  fld next h e = Some (Some (headd ys l)) ∧
  fld list_ h e = Some (Some l).
Proof.
  intros [_ Hs Ho _ _]. apply seg_app in Hs as [H1 H2].
  apply seg_last in H1 as [_ ?]. apply seg_head in H2 as [? _].
  split_and!; [done|done|]. apply Ho. set_solver.
Qed.

Lemma Length_spec h l es :
  is_list h l es → Length l h = Some (Z.of_nat (length es), h).
Proof. intros []. by apply rd_len_run. Qed.

Lemma Back_spec h l es : is_list h l es → Back l h = Some (last es, h).
Proof.
  intros Hl. pose proof (is_list_back _ _ _ Hl). destruct Hl.
  unfold Back. run_step. destruct es as [|e es]; simpl.
  - run_step.
  - apply rd_run. rewrite H. unfold lastd.
    by destruct (last_is_Some (e :: es)) as [_ [? ->]].
Qed.

(** [PrevEntry] steps towards the front: from the entry at position
    [i] (counting from the front) to the one at [i - 1], and to nil from
    the front entry. *)
Lemma PrevEntry_at h l xs e ys :
  is_list h l (xs ++ e :: ys) → PrevEntry e h = Some (last xs, h).
Proof.
  intros Hl. destruct (is_list_at _ _ _ _ _ Hl) as (Hp & Hn & Ho).
  unfold PrevEntry. do 2 run_step.
  destruct Hl as [Hnd _ _ _ _].
  unfold lastd. destruct (last xs) as [p|] eqn:E; simpl.
  - rewrite decide_True; [done|]. intros [= ->].
    apply last_Some_elem_of in E. apply NoDup_cons in Hnd as [Hnd _]. set_solver.
  - by rewrite decide_False by naive_solver.
Qed.

Lemma NewList_spec h :
  ∃ l h', NewList h = Some (l, h') ∧ is_list h' l [] ∧ ¬ alloc h l ∧
          (∀ x, alloc h x → entries h' !! x = entries h !! x).
Proof.
  set (l := fresh (dom (entries h))).
  pose proof (fresh_not_alloc h) as Hfresh. fold l in Hfresh.
  eexists l, _. split; [|split_and!].
  - unfold NewList, Init. run_step. fold l. repeat run_step.
  - split; simpl.
    + apply NoDup_singleton.
    + split; fld_simpl; done.
    + set_solver.
    + by rewrite lookup_insert_eq.
    + unfold int_max. lia.
  - done.
  - intros x Hx. simpl. rewrite !lookup_alter_ne, lookup_insert_ne; [done|..];
      intros ->; done.
Qed.

Lemma Init_spec h l es :
  is_list h l es →
  ∃ h', Init l h = Some (l, h') ∧ is_list h' l [] ∧
        (∀ x, fld ekv h' x = fld ekv h x) ∧ (∀ x, alloc h' x ↔ alloc h x).
Proof.
  intros Hl. assert (alloc h l) as Ha by (eapply is_list_alloc; [done|set_solver]).
  pose proof (il_len _ _ _ Hl) as Hlen.
  eexists. split; [|split_and!].
  - unfold Init. repeat run_step.
  - split; simpl.
    + apply NoDup_singleton.
    + split; fld_simpl; done.
    + set_solver.
    + by rewrite lookup_insert_eq.
    + unfold int_max. lia.
  - intros x. by fld_simpl.
  - intros x. by rewrite alloc_upd_len, !alloc_upd.
Qed.

Lemma alloc_fld {A} (f : Entry K V → A) h a : alloc h a → ∃ x, fld f h a = Some x.
Proof. intros [y E]. unfold fld. rewrite E. eauto. Qed.

Lemma NoDup_mid l xs e ys :
  NoDup (l :: xs ++ e :: ys) ↔ e ≠ l ∧ (e ∉ xs ++ ys) ∧ NoDup (l :: xs ++ ys).
Proof.
  assert ((l :: xs ++ e :: ys) ≡ₚ (e :: l :: xs ++ ys)) as ->.
  { rewrite <-Permutation_middle. apply Permutation_swap. }
  rewrite NoDup_cons, not_elem_of_cons. naive_solver.
Qed.

Lemma Remove_spec h l xs e ys :
  is_list h l (xs ++ e :: ys) →
  ∃ v h', Remove l e h = Some (v, h') ∧ fld Val h e = Some v ∧
          is_list h' l (xs ++ ys) ∧
          (∀ x, fld ekv h' x = fld ekv h x) ∧
          fld list_ h' e = Some None ∧
          (∀ x, alloc h' x ↔ alloc h x).
Proof.
  intros Hl. destruct (is_list_at _ _ _ _ _ Hl) as (Hp & Hn & Ho).
  pose proof (lastd_in l xs) as Hpin. pose proof (headd_in ys l) as Hnin.
  set (p := lastd l xs) in *. set (n := headd ys l) in *.
  destruct Hl as [Hnd Hseg Hown Hlen Hbound].
  pose proof Hnd as Hnd'. apply NoDup_mid in Hnd' as (Hel & He & Hnd').
  assert (e ≠ p) as Hep by (intros <-; set_solver).
  assert (e ≠ n) as Hen by (intros <-; set_solver).
  assert (alloc h e) as Hae by (eapply fld_alloc; eauto).
  assert (alloc h p) as Hap by (eapply seg_alloc; [done|set_solver]).
  assert (alloc h n) as Han.
  { eapply seg_alloc; [done|]. rewrite !elem_of_cons, !elem_of_app, elem_of_cons.
    apply elem_of_app in Hnin. set_solver. }
  destruct (alloc_fld Val h e Hae) as [v Hv].
  exists v, (removed l e p n (Z.of_nat (length (xs ++ e :: ys))) h).
  split; [by apply Remove_run|]. split; [done|].
  unfold removed, unlinked. split_and!.
  - split.
    + done.
    + eapply seg_unlink; [done|done|by apply NoDup_cons in Hnd as [? _]| | |].
      * fold p n. split; fld_simpl; done.
      * fold p. intros x Hx Hxp. assert (x ≠ e) by set_solver. fld_simpl. done.
      * fold n. intros x Hx Hxn.
        assert (x ≠ e) by (rewrite app_assoc in Hx; set_solver).
        fld_simpl. done.
    + intros x Hx. assert (x ≠ e) by set_solver. fld_simpl.
      apply Hown. set_solver.
    + simpl. rewrite lookup_insert_eq. f_equal.
      rewrite !length_app in *. cbn [length] in *. rewrite wrap64_id; [lia|].
      unfold int_range, int_min, int_max in *. lia.
    + rewrite !length_app in *. cbn [length] in *. lia.
  - intros x. by fld_simpl.
  - by fld_simpl.
  - intros x. by rewrite alloc_upd_len, !alloc_upd.
Qed.

Lemma PushFront_spec h l es k v :
  is_list h l es → Z.of_nat (length es) < int_max →
  ∃ e h', PushFront l k v h = Some (e, h') ∧
          is_list h' l (e :: es) ∧ ¬ alloc h e ∧
          fld ekv h' e = Some (k, v) ∧
          (∀ x, x ≠ e → fld ekv h' x = fld ekv h x) ∧
          (∀ x, alloc h x → alloc h' x).
Proof.
  intros Hl Hlt. pose proof (is_list_front _ _ _ Hl) as Hfront.
  pose proof (headd_in es l) as Hfin. set (f := headd es l) in *.
  set (e := fresh (dom (entries h))).
  pose proof (fresh_not_alloc h) as Hfresh. fold e in Hfresh.
  assert (∀ x, x ∈ l :: es → x ≠ e) as Hne.
  { intros x Hx ->. apply Hfresh. by eapply is_list_alloc. }
  assert (l ≠ e) as Hle by (apply Hne; set_solver).
  assert (f ≠ e) as Hfe by (apply Hne; apply elem_of_app in Hfin; set_solver).
  destruct Hl as [Hnd Hseg Hown Hlen Hbound].
  assert (alloc h l) as Hal by (eapply seg_alloc; [done|set_solver]).
  assert (alloc h f) as Haf.
  { eapply seg_alloc; [done|]. apply elem_of_app in Hfin. set_solver. }
  eexists e, _. split; [|split_and!].
  - unfold PushFront, lazyInit, insertValue, insert.
    do 2 run_step. rewrite decide_False by done. do 2 run_step. fold e.
    repeat run_step.
  - split.
    + apply NoDup_cons in Hnd as [Hl' Hnd]. rewrite !NoDup_cons, not_elem_of_cons.
      split_and!; [done|done| |done]. intros Hin. apply (Hne e); set_solver.
    + simpl. split; [split; fld_simpl; done|].
      destruct es as [|f' es']; simpl in *.
      * subst f. unfold headd; simpl. split; fld_simpl; done.
      * subst f. unfold headd in *; simpl in *. destruct Hseg as [_ Hseg].
        pose proof Hnd as Hnd2.
        apply NoDup_cons in Hnd2 as [Hl' Hnd2]. apply NoDup_cons in Hnd2 as [Hf' Hnd2].
        split; [split; fld_simpl; done|].
        eapply seg_frame; [| |done].
        -- intros x Hx. assert (x ≠ e) by (apply Hne; set_solver).
           assert (x ≠ l) by set_solver. fld_simpl. done.
        -- intros x Hx. assert (x ≠ e) by (apply Hne; set_solver).
           assert (x ≠ f') by set_solver. fld_simpl. done.
    + intros x [->|Hx]%elem_of_cons; [by fld_simpl|].
      assert (x ≠ e) by (apply Hne; set_solver). fld_simpl. by apply Hown.
    + simpl. rewrite lookup_insert_eq. f_equal. cbn [length].
      rewrite wrap64_id; [lia|]. unfold int_range, int_min, int_max in *. lia.
    + cbn [length]. lia.
  - done.
  - by fld_simpl.
  - intros x Hx. by fld_simpl.
  - intros x Hx. alloc_solve.
Qed.

Lemma MoveToFront_spec h l xs e ys :
  is_list h l (xs ++ e :: ys) →
  ∃ h', MoveToFront l e h = Some (tt, h') ∧
        is_list h' l (e :: xs ++ ys) ∧
        (∀ x, fld ekv h' x = fld ekv h x) ∧
        (∀ x, alloc h' x ↔ alloc h x).
Proof.
  intros Hl. destruct (is_list_at _ _ _ _ _ Hl) as (Hp & Hn & Ho).
  pose proof (is_list_front _ _ _ Hl) as Hfront.
  destruct xs as [|x0 xs].
  { exists h. split; [|done]. unfold MoveToFront. run_step.
    rewrite decide_False by naive_solver. run_step.
    unfold headd; simpl. by rewrite decide_True. }
  pose proof (lastd_in x0 xs) as Hpin. pose proof (headd_in ys l) as Hnin.
  rewrite lastd_cons in Hp.
  set (p := lastd x0 xs) in *. set (n := headd ys l) in *.
  unfold headd in Hfront; simpl in Hfront.
  destruct Hl as [Hnd Hseg Hown Hlen Hbound].
  pose proof Hnd as Hnd'. apply (NoDup_mid l (x0 :: xs)) in Hnd' as (Hel & He & Hnd').
  pose proof Hnd' as Hnd2. apply NoDup_cons in Hnd2 as [Hl2 Hnd2].
  pose proof Hnd2 as Hnd3. apply NoDup_cons in Hnd3 as [Hx0 Hnd3].
  apply elem_of_app in Hnin.
  assert (e ≠ p) as Hep by (intros <-; set_solver).
  assert (e ≠ n) as Hen by (intros <-; set_solver).
  assert (e ≠ x0) as Hex by set_solver.
  assert (p ≠ l) as Hpl by (intros E; rewrite E in Hpin; set_solver).
  assert (n ≠ x0) as Hnx by (intros E; rewrite E in Hnin; set_solver).
  assert (x0 ≠ l) as Hxl by set_solver.
  assert (alloc h e) as Hae by (eapply fld_alloc; eauto).
  assert (alloc h l) as Hal by (eapply fld_alloc; eauto).
  assert (alloc h x0) as Hax by (eapply seg_alloc; [done|set_solver]).
  assert (alloc h p) as Hap by (eapply seg_alloc; [done|set_solver]).
  assert (alloc h n) as Han.
  { eapply seg_alloc; [done|]. set_solver. }
  eexists. split; [|split_and!].
  - unfold MoveToFront, move. run_step. rewrite decide_False by naive_solver.
    run_step. rewrite decide_False by naive_solver.
    rewrite decide_False by done. repeat run_step.
  - split.
    + rewrite NoDup_cons, not_elem_of_cons, NoDup_cons. set_solver.
    + simpl in Hseg. destruct Hseg as [_ Hseg]. simpl.
      split; [split; fld_simpl; done|]. split; [split; fld_simpl; done|].
      eapply seg_unlink; [done| | | | |].
      * apply NoDup_cons in Hnd as [_ Hnd]. done.
      * apply NoDup_cons in Hnd as [Hnd _]. set_solver.
      * fold p n. split; fld_simpl; done.
      * fold p. intros x Hx Hxp.
        assert (x ≠ e ∧ x ≠ l) as [??] by set_solver. fld_simpl. done.
      * fold n. intros x Hx Hxn.
        assert (x ≠ e ∧ x ≠ x0) as [??].
        { rewrite app_assoc in Hx. apply elem_of_app in Hx as [Hx|Hx]; set_solver. }
        fld_simpl. done.
    + intros x Hx. fld_simpl. apply Hown. set_solver.
    + simpl. rewrite Hlen. f_equal. cbn [length app].
      rewrite !length_app. cbn [length]. lia.
    + revert Hbound. cbn [length app]. rewrite !length_app. cbn [length]. lia.
  - intros x. by fld_simpl.
  - intros x. by rewrite !alloc_upd.
Qed.

(** Overwriting a value leaves the ring as it is. *)
Lemma is_list_upd_Val h l es a v :
  is_list h l es → is_list (upd (set_Val_e v) a h) l es.
Proof.
  intros [Hnd Hseg Hown Hlen Hb]. split; [done| | |done|done].
  - eapply seg_frame; [| |done]; intros; by fld_simpl.
  - intros e He. fld_simpl. by apply Hown.
Qed.
End closed.
End dll_facts.

(** ** The controller *)

Module lru_facts.
Import dll_facts simplelru.
Section facts.
Context {K : Type} `{Countable K} {V : Type} `{!GoZero K, !GoZero V} {W : Type}.
Implicit Types (s : St K V W) (h : dll.Heap K V) (e l : loc) (es : list loc)
  (kvs : list (K * V)) (k : K) (v : V) (a : Abs K V W) (w : W)
  (cb : option (K → V → W → W)).

Lemma liftH_run {A} (m : dll.M K V A) s x h' :
  m (mem s) = Some (x, h') → liftH m s = Some (x, mkSt (lru s) h' (world s)).
Proof. intros E. unfold liftH. by rewrite E. Qed.

Lemma call_onEvict_run k v s :
  call_onEvict k v s =
  Some (tt, mkSt (lru s) (mem s) (fire (onEvict (lru s)) [(k, v)] (world s))).
Proof. unfold call_onEvict, fire. destruct s as [[? ? ? []] ? ?]; done. Qed.

Lemma fld_ekv h e k v :
  dll.fld dll.ekv h e = Some (k, v) ↔
  dll.fld dll.Key h e = Some k ∧ dll.fld dll.Val h e = Some v.
Proof.
  unfold dll.fld, dll.ekv. destruct (dll.entries h !! e); simpl; naive_solver.
Qed.

(** *** Lists of pairs, keys and entries *)

Lemma carries_length h es kvs : dll.carries h es kvs → length es = length kvs.
Proof.
  unfold dll.carries. intros E. apply (f_equal length) in E.
  by rewrite !length_fmap in E.
Qed.

Lemma carries_app h xs ys kv1 kv2 :
  length xs = length kv1 →
  dll.carries h (xs ++ ys) (kv1 ++ kv2) ↔ dll.carries h xs kv1 ∧ dll.carries h ys kv2.
Proof.
  intros Hlen. unfold dll.carries. rewrite !fmap_app. split.
  - intros E. apply app_inj_1 in E; [done|]. by rewrite !length_fmap.
  - by intros [-> ->].
Qed.

Lemma carries_cons h e es kv kvs :
  dll.carries h (e :: es) (kv :: kvs) ↔
  dll.fld dll.ekv h e = Some kv ∧ dll.carries h es kvs.
Proof.
  unfold dll.carries. rewrite !fmap_cons. split.
  - by intros [= -> ->].
  - by intros [-> ->].
Qed.

Lemma carries_frame h h' es kvs :
  (∀ x, x ∈ es → dll.fld dll.ekv h' x = dll.fld dll.ekv h x) →
  dll.carries h es kvs → dll.carries h' es kvs.
Proof.
  unfold dll.carries. intros Hf <-. apply list_fmap_ext.
  intros i x Hx. apply Hf. by eapply list_elem_of_lookup_2.
Qed.

Lemma items_mid (ks1 ks2 : list K) k (xs ys : list loc) e :
  NoDup (ks1 ++ k :: ks2) → length ks1 = length xs → length ks2 = length ys →
  (list_to_map (zip (ks1 ++ k :: ks2) (xs ++ e :: ys)) : gmap K loc) =
    <[k := e]> (list_to_map (zip (ks1 ++ ks2) (xs ++ ys))) ∧
  (list_to_map (zip (ks1 ++ ks2) (xs ++ ys)) : gmap K loc) !! k = None.
Proof.
  intros Hnd Hl1 Hl2.
  assert (k ∉ ks1 ++ ks2) as Hk.
  { apply NoDup_app in Hnd as (_ & Hd & Hnd). apply NoDup_cons in Hnd as [? _].
    intros [?|?]%elem_of_app; [|done]. eapply Hd; [done|]. set_solver. }
  assert ((zip (ks1 ++ ks2) (xs ++ ys)).*1 = ks1 ++ ks2) as Hfst.
  { apply fst_zip. rewrite !length_app. lia. }
  split.
  - rewrite !zip_with_app by done. simpl.
    rewrite <-list_to_map_cons. apply list_to_map_proper.
    + rewrite fmap_app, fmap_cons, !fst_zip by lia. done.
    + by rewrite <-Permutation_middle.
  - apply not_elem_of_list_to_map. by rewrite Hfst.
Qed.

Lemma wf_lengths s es kvs : wf s es kvs → length es = length kvs.
Proof. intros []. by eapply carries_length. Qed.

Lemma wf_lookup s es kvs k e :
  wf s es kvs → items (lru s) !! k = Some e →
  ∃ xs ys kv1 v0 kv2,
    es = xs ++ e :: ys ∧ kvs = kv1 ++ (k, v0) :: kv2 ∧ length xs = length kv1.
Proof.
  intros Hwf Hk. pose proof (wf_lengths _ _ _ Hwf) as Hlen.
  destruct Hwf as [_ _ Hit _]. rewrite Hit in Hk.
  apply elem_of_list_to_map_2, list_elem_of_lookup in Hk as [i Hi].
  apply lookup_zip_with_Some in Hi as (k' & e' & [= <- <-] & Hki & Hei).
  rewrite list_lookup_fmap in Hki.
  destruct (kvs !! i) as [[k' v0]|] eqn:Hkv; simplify_eq/=.
  exists (take i es), (drop (S i) es), (take i kvs), v0, (drop (S i) kvs).
  rewrite !take_drop_middle by done. split_and!; [done|done|].
  apply lookup_lt_Some in Hei, Hkv. rewrite !length_take. lia.
Qed.

Lemma wf_absent s es kvs k :
  wf s es kvs → items (lru s) !! k = None → k ∉ kvs.*1.
Proof.
  intros Hwf Hk. pose proof (wf_lengths _ _ _ Hwf) as Hlen.
  destruct Hwf as [_ _ Hit _]. rewrite Hit in Hk.
  apply not_elem_of_list_to_map_2 in Hk. rewrite fst_zip in Hk; [done|].
  rewrite length_fmap. lia.
Qed.

Lemma NoDup_keys_mid kv1 k v kv2 :
  NoDup (kv1 ++ (k, v) :: kv2).*1 →
  (k ∉ kv1.*1) ∧ (k ∉ kv2.*1) ∧ NoDup (kv1 ++ kv2).*1.
Proof.
  rewrite !fmap_app, fmap_cons. simpl. intros Hnd.
  apply NoDup_app in Hnd as (H1 & Hd & Hnd). apply NoDup_cons in Hnd as [Hk H2].
  split_and!; [|done|].
  - intros Hin. eapply Hd; [done|]. set_solver.
  - apply NoDup_app. split_and!; [done| |done].
    intros x Hx Hx2. eapply Hd; [done|]. set_solver.
Qed.

Lemma without_notin k kvs : k ∉ kvs.*1 → without k kvs = kvs.
Proof.
  unfold without. induction kvs as [|[k' v'] kvs IH]; [done|].
  rewrite fmap_cons, not_elem_of_cons. simpl. intros [??].
  rewrite filter_cons_True by (simpl; congruence). by rewrite IH.
Qed.

Lemma without_mid kv1 k v kv2 :
  NoDup (kv1 ++ (k, v) :: kv2).*1 → without k (kv1 ++ (k, v) :: kv2) = kv1 ++ kv2.
Proof.
  intros (H1 & H2 & _)%NoDup_keys_mid. unfold without.
  rewrite filter_app, filter_cons_False by (simpl; auto).
  fold (without k kv1) (without k kv2). by rewrite !without_notin.
Qed.

Lemma value_of_notin k kvs : k ∉ kvs.*1 → value_of k kvs = None.
Proof.
  induction kvs as [|[k' v'] kvs IH]; [done|].
  rewrite fmap_cons, not_elem_of_cons. simpl. intros [??].
  rewrite decide_False by congruence. auto.
Qed.

Lemma value_of_mid kv1 k v kv2 :
  k ∉ kv1.*1 → value_of k (kv1 ++ (k, v) :: kv2) = Some v.
Proof.
  induction kv1 as [|[k' v'] kv1 IH]; simpl.
  - by rewrite decide_True.
  - rewrite not_elem_of_cons. intros [??]. rewrite decide_False by congruence. auto.
Qed.

(** *** The methods on a well-formed cache *)

Lemma removeElement_spec s xs e ys kv1 k v kv2 :
  wf s (xs ++ e :: ys) (kv1 ++ (k, v) :: kv2) → length xs = length kv1 →
  ∃ h',
    removeElement e s =
      Some (tt, mkSt (mkLru (size (lru s)) (evictList (lru s))
                            (delete k (items (lru s))) (onEvict (lru s)))
                     h' (fire (onEvict (lru s)) [(k, v)] (world s))) ∧
    dll.is_list h' (evictList (lru s)) (xs ++ ys) ∧
    dll.carries h' (xs ++ ys) (kv1 ++ kv2) ∧
    delete k (items (lru s)) = list_to_map (zip (kv1 ++ kv2).*1 (xs ++ ys)) ∧
    NoDup (kv1 ++ kv2).*1 ∧
    dll.fld dll.ekv h' e = Some (k, v) ∧
    dll.fld dll.list_ h' e = Some None.
Proof.
  intros [Hl Hc Hit Hnd] Hlen.
  destruct (Remove_spec _ _ _ _ _ Hl) as (v' & h' & E & Hv & Hl' & Hf & Hlst & _).
  apply carries_app in Hc as [Hc1 Hc2]; [|done].
  apply carries_cons in Hc2 as [Hkv Hc2].
  assert (dll.fld dll.ekv h' e = Some (k, v)) as Hkv' by (by rewrite Hf).
  pose proof Hkv' as [Hk' Hv']%fld_ekv.
  exists h'. split_and!; [|done| | |by apply NoDup_keys_mid in Hnd as (_&_&?)|done|done].
  - unfold removeElement.
    lazymatch goal with |- _ = Some (_, ?t) => set (s' := t) end.
    do 2 (eapply eq_trans; [apply SE_bind_run; first
      [ apply liftH_run; eassumption | reflexivity ] | cbv beta; simpl ]).
    do 2 (eapply eq_trans; [apply SE_bind_run; first
      [ apply liftH_run; apply rd_run; eassumption | reflexivity ] | cbv beta; simpl ]).
    eapply eq_trans; [apply SE_bind_run; reflexivity | cbv beta; simpl ].
    do 2 (eapply eq_trans; [apply SE_bind_run; first
      [ apply liftH_run; apply rd_run; eassumption | reflexivity ] | cbv beta; simpl ]).
    by rewrite call_onEvict_run.
  - apply carries_app; [done|]. split; eapply carries_frame; eauto.
  - rewrite Hit. rewrite !fmap_app, fmap_cons in *. simpl in *.
    pose proof (carries_length _ _ _ Hc2) as Hlen2.
    destruct (items_mid (kv1.*1) (kv2.*1) k xs ys e) as [-> Hnone];
      [done|by rewrite length_fmap|by rewrite length_fmap|].
    by rewrite delete_insert_eq, delete_id.
Qed.

(** *** The methods refine the list of pairs *)

(** One step of a controller method: run [m], whose result [tac]
    establishes, and continue. *)
Local Ltac lstep tac :=
  eapply eq_trans; [ apply SE_bind_run; tac | cbv beta; simpl ].
Local Ltac lpure := lstep ltac:(reflexivity).
Local Ltac lheap E := lstep ltac:(apply liftH_run; exact E).
Local Ltac lread := lstep ltac:(apply liftH_run; apply rd_run; eassumption).

Lemma rep_intro c l m cb h w es kvs :
  dll.is_list h l es → dll.carries h es kvs →
  m = list_to_map (zip kvs.*1 es) → NoDup kvs.*1 →
  rep (mkSt (mkLru c l m cb) h w) (mkAbs c cb kvs w).
Proof. intros. split_and!; try done. by exists es. Qed.

Lemma removeOldest_rep s a :
  rep s a → ∃ s', removeOldest s = Some (tt, s') ∧ rep s' (m_evict a).
Proof.
  destruct s as [[c l m cb] h w], a as [c' cb' kvs w'].
  intros (? & ? & ? & es & Hwf); simpl in *; subst c' cb' w'.
  pose proof (wf_lengths _ _ _ Hwf) as Hlen.
  pose proof (Back_spec _ _ _ (wf_list _ _ _ Hwf)) as HB. simpl in HB.
  unfold removeOldest, m_evict; simpl.
  destruct es as [|e0 es0] using rev_ind.
  - destruct kvs; [|done]. eexists. split.
    + eapply eq_trans; [apply SE_bind_run; reflexivity|]. cbv beta. simpl.
      eapply eq_trans; [apply SE_bind_run; apply liftH_run; exact HB|]. done.
    + simpl. split_and!; try done. by exists [].
  - clear IHes0. destruct kvs as [|[k v] kvs0 _] using rev_ind.
    { rewrite length_app in Hlen. simpl in Hlen. lia. }
    rewrite !length_app in Hlen. simpl in Hlen.
    destruct (removeElement_spec _ es0 e0 [] kvs0 k v [] Hwf) as
      (h' & E & Hl' & Hc' & Hit' & Hnd' & _); [lia|].
    simpl in *. rewrite !app_nil_r in *.
    eexists. split.
    + eapply eq_trans; [apply SE_bind_run; reflexivity|]. cbv beta. simpl.
      eapply eq_trans; [apply SE_bind_run; apply liftH_run; exact HB|].
      cbv beta. rewrite last_snoc. exact E.
    + rewrite last_snoc, removelast_last. by eapply rep_intro.
Qed.

Lemma Add_rep s a k v :
  rep s a → k ∈ (a_kvs a).*1 ∨ Z.of_nat (length (a_kvs a)) < int_max →
  ∃ s', Add k v s = Some ((m_add k v a).1, s') ∧ rep s' (m_add k v a).2.
Proof.
  destruct s as [[c l m cb] h w], a as [c' cb' kvs w'].
  intros (? & ? & ? & es & Hwf) Hlt; simpl in *; subst c' cb' w'.
  pose proof (wf_lengths _ _ _ Hwf) as Hlen.
  unfold Add, m_add; simpl. destruct (m !! k) as [e|] eqn:Hk.
  - destruct (wf_lookup _ _ _ _ _ Hwf Hk)
      as (xs & ys & kv1 & v0 & kv2 & -> & -> & Hl1).
    destruct Hwf as [Hl Hc Hit Hnd]; simpl in *.
    rewrite decide_True by (rewrite fmap_app, fmap_cons; set_solver).
    rewrite without_mid by done. simpl.
    destruct (MoveToFront_spec _ _ _ _ _ Hl) as (h' & E & Hl' & Hf & Hal).
    apply carries_app in Hc as [Hc1 Hc2]; [|done].
    apply carries_cons in Hc2 as [Hkv Hc2].
    pose proof (NoDup_keys_mid _ _ _ _ Hnd) as (Hk1 & Hk2 & Hnd').
    assert (dll.alloc h' e) as Hae by (apply Hal; by eapply fld_alloc).
    apply dll.il_nodup in Hl' as Hnd''.
    apply NoDup_cons in Hnd'' as [_ [He Hnd'']%NoDup_cons].
    eexists. split.
    + do 2 lpure. rewrite Hk. lheap E.
      lstep ltac:(apply liftH_run; apply wr_run; exact Hae). reflexivity.
    + eapply rep_intro.
      * by apply is_list_upd_Val.
      * apply carries_cons. split.
        -- apply fld_ekv. rewrite <-Hf in Hkv. apply fld_ekv in Hkv as [??].
           split; fld_simpl; done.
        -- eapply carries_frame; [|apply carries_app; [done|]; split; eauto].
           intros x Hx. assert (x ≠ e) by (intros ->; done).
           fld_simpl. by rewrite Hf.
      * rewrite Hit, !fmap_cons, !fmap_app, fmap_cons. simpl.
        pose proof (carries_length _ _ _ Hc2).
        destruct (items_mid (kv1.*1) (kv2.*1) k xs ys e) as [-> _];
          [by rewrite fmap_app, fmap_cons in Hnd
          |by rewrite length_fmap|by rewrite length_fmap|done].
      * rewrite fmap_cons. simpl. apply NoDup_cons. split; [|done].
        rewrite fmap_app. set_solver.
  - pose proof (wf_absent _ _ _ _ Hwf Hk) as Hnk. simpl in Hnk.
    rewrite decide_False by done. simpl.
    destruct Hwf as [Hl Hc Hit Hnd]; simpl in *.
    destruct Hlt as [?|Hlt]; [done|].
    destruct (PushFront_spec _ _ _ k v Hl) as (e & h' & E & Hl' & Hne & Hkv & Hf & _);
      [lia|].
    pose proof (Length_spec _ _ _ Hl') as HL.
    assert (rep (mkSt (mkLru c l (<[k:=e]> m) cb) h' w)
                (mkAbs c cb ((k, v) :: kvs) w)) as Hrep.
    { eapply rep_intro; [done| | |].
      - apply carries_cons. split; [done|]. eapply carries_frame; [|done].
        intros x Hx. apply Hf. intros ->. apply Hne.
        eapply is_list_alloc; [done|]. set_solver.
      - by rewrite Hit.
      - rewrite fmap_cons. by apply NoDup_cons. }
    cbn [length] in *. case_decide as Hev.
    + destruct (removeOldest_rep _ _ Hrep) as (s' & E' & Hrep').
      exists s'. split; [|done].
      do 2 lpure. rewrite Hk. lheap E. do 2 lpure. lheap HL. lpure.
      rewrite bool_decide_true by lia. lstep ltac:(exact E'). reflexivity.
    + eexists. split; [|exact Hrep].
      do 2 lpure. rewrite Hk. lheap E. do 2 lpure. lheap HL. lpure.
      rewrite bool_decide_false by lia. reflexivity.
Qed.

Lemma Get_rep s a k :
  rep s a → ∃ s', Get k s = Some ((m_get k a).1, s') ∧ rep s' (m_get k a).2.
Proof.
  destruct s as [[c l m cb] h w], a as [c' cb' kvs w'].
  intros (? & ? & ? & es & Hwf); simpl in *; subst c' cb' w'.
  unfold Get, m_get; simpl. destruct (m !! k) as [e|] eqn:Hk.
  - destruct (wf_lookup _ _ _ _ _ Hwf Hk)
      as (xs & ys & kv1 & v0 & kv2 & -> & -> & Hl1).
    destruct Hwf as [Hl Hc Hit Hnd]; simpl in *.
    pose proof (NoDup_keys_mid _ _ _ _ Hnd) as (Hk1 & Hk2 & Hnd').
    rewrite value_of_mid, without_mid by done. simpl.
    destruct (MoveToFront_spec _ _ _ _ _ Hl) as (h' & E & Hl' & Hf & Hal).
    apply carries_app in Hc as [Hc1 Hc2]; [|done].
    apply carries_cons in Hc2 as [Hkv Hc2].
    rewrite <-Hf in Hkv. pose proof Hkv as [HK HV]%fld_ekv.
    eexists. split.
    + do 2 lpure. rewrite Hk. lheap E. lread. reflexivity.
    + eapply rep_intro; [done| | |].
      * apply carries_cons. split; [done|].
        eapply carries_frame; [|apply carries_app; [done|]; split; eauto].
        intros x Hx. by rewrite Hf.
      * rewrite Hit, !fmap_cons, !fmap_app, fmap_cons. simpl.
        pose proof (carries_length _ _ _ Hc2).
        destruct (items_mid (kv1.*1) (kv2.*1) k xs ys e) as [-> _];
          [by rewrite fmap_app, fmap_cons in Hnd
          |by rewrite length_fmap|by rewrite length_fmap|done].
      * rewrite fmap_cons. simpl. apply NoDup_cons. split; [|done].
        rewrite fmap_app. set_solver.
  - pose proof (wf_absent _ _ _ _ Hwf Hk) as Hnk. simpl in Hnk.
    rewrite value_of_notin by done. simpl. eexists. split.
    + do 2 lpure. rewrite Hk. reflexivity.
    + split_and!; try done. by exists es.
Qed.

Lemma Remove_rep s a k :
  rep s a → ∃ s', Remove k s = Some ((m_remove k a).1, s') ∧ rep s' (m_remove k a).2.
Proof.
  destruct s as [[c l m cb] h w], a as [c' cb' kvs w'].
  intros (? & ? & ? & es & Hwf); simpl in *; subst c' cb' w'.
  unfold Remove, m_remove; simpl. destruct (m !! k) as [e|] eqn:Hk.
  - destruct (wf_lookup _ _ _ _ _ Hwf Hk)
      as (xs & ys & kv1 & v0 & kv2 & -> & -> & Hl1).
    pose proof (NoDup_keys_mid _ _ _ _ (wf_nodup _ _ _ Hwf)) as (Hk1 & Hk2 & Hnd').
    rewrite value_of_mid, without_mid by (done || apply Hwf). simpl.
    destruct (removeElement_spec _ _ _ _ _ _ _ _ Hwf Hl1)
      as (h' & E & Hl' & Hc' & Hit' & _ & _). simpl in *.
    eexists. split.
    + lpure. rewrite Hk. lstep ltac:(exact E). reflexivity.
    + by eapply rep_intro.
  - pose proof (wf_absent _ _ _ _ Hwf Hk) as Hnk. simpl in Hnk.
    rewrite value_of_notin by done. simpl. eexists. split.
    + lpure. rewrite Hk. reflexivity.
    + split_and!; try done. by exists es.
Qed.

Lemma Len_rep s a :
  rep s a → Len s = Some (Z.of_nat (length (a_kvs a)), s).
Proof.
  destruct s as [[c l m cb] h w]. intros (_ & _ & _ & es & Hwf).
  pose proof (Length_spec _ _ _ (wf_list _ _ _ Hwf)) as HL. simpl in HL.
  rewrite (wf_lengths _ _ _ Hwf) in HL.
  unfold Len. lpure. by apply liftH_run.
Qed.

Lemma Cap_rep s a : rep s a → Cap s = Some (a_cap a, s).
Proof. intros (<- & _). done. Qed.

Lemma times_rep n s a :
  rep s a →
  ∃ s', times n removeOldest s = Some (tt, s') ∧ rep s' (Nat.iter n m_evict a).
Proof.
  revert s a. induction n as [|n IH]; intros s a Hrep.
  - by exists s.
  - destruct (removeOldest_rep _ _ Hrep) as (s1 & E1 & Hrep1).
    destruct (IH _ _ Hrep1) as (s2 & E2 & Hrep2).
    exists s2. split.
    + simpl. lstep ltac:(exact E1). exact E2.
    + by rewrite Nat.iter_succ_r.
Qed.

Lemma Resize_rep s a n :
  rep s a →
  ∃ s', Resize n s = Some ((m_resize n a).1, s') ∧ rep s' (m_resize n a).2.
Proof.
  intros Hrep. pose proof (Len_rep _ _ Hrep) as HL.
  destruct (times_rep (Z.to_nat (wrap64 (Z.of_nat (length (a_kvs a)) - n))) _ _ Hrep)
    as (s' & E & Hrep').
  destruct s' as [[c l m cb] h w]. destruct Hrep' as (? & ? & ? & es & Hwf).
  simpl in *. eexists. split.
  - unfold Resize. lstep ltac:(exact HL). lstep ltac:(exact E). lpure. reflexivity.
  - unfold m_resize; simpl. split_and!; try done.
    exists es. by destruct Hwf.
Qed.

Lemma new_cache_rep c cb h w :
  0 < c → ∃ s, new_cache c cb h w = Some s ∧ rep s (mkAbs c cb [] w).
Proof.
  intros Hc. destruct (NewList_spec h) as (l & h' & E & Hl & _).
  unfold new_cache, NewLru. rewrite decide_False by lia.
  unfold mbind, SE_bind. rewrite E. simpl. eexists. split; [done|].
  eapply rep_intro; try done. apply NoDup_nil_2.
Qed.

(** *** Listing the cache *)

Lemma walk_spec {A} (f : dll.Entry K V → A) c h w l xs :
  ∀ e ys vals pre rest,
  dll.is_list h l (xs ++ e :: ys) →
  dll.fld f h <$> (xs ++ [e]) = Some <$> vals →
  length rest = S (length xs) →
  walk f (S (length xs)) (pre ++ rest) (length pre) (Some e) (mkSt c h w) =
    Some (pre ++ reverse vals, mkSt c h w).
Proof.
  induction xs as [|e' xs' IH] using rev_ind; intros e ys vals pre rest Hl Hv Hr.
  - pose proof (PrevEntry_at _ _ _ _ _ Hl) as HP. simpl in *.
    destruct vals as [|x [|??]]; simplify_eq/=.
    destruct rest as [|r [|??]]; simplify_eq/=.
    lstep ltac:(apply liftH_run; apply rd_run; eassumption). lheap HP.
    rewrite insert_app_r_alt, Nat.sub_diag by lia. done.
  - pose proof (PrevEntry_at _ _ _ _ _ Hl) as HP. rewrite last_snoc in HP.
    destruct vals as [|x vals' _] using rev_ind.
    { apply (f_equal length) in Hv. rewrite !length_fmap, !length_app in Hv.
      simpl in Hv. lia. }
    rewrite !fmap_app in Hv. apply app_inj_2 in Hv as [Hv' Hx]; [|done].
    simpl in Hx. injection Hx as Hx.
    destruct rest as [|r rest']; [done|]. simpl in Hr. injection Hr as Hr.
    rewrite length_app in *. cbn [length] in *.
    replace (length xs' + 1)%nat with (S (length xs')) in * by lia.
    cbn [walk].
    eapply eq_trans;
      [apply SE_bind_run; apply liftH_run; apply rd_run; eassumption|cbv beta].
    eapply eq_trans; [apply SE_bind_run; apply liftH_run; exact HP|cbv beta].
    cbn [lru mem world].
    rewrite insert_app_r_alt, Nat.sub_diag by lia. cbn [insert list_insert].
    rewrite <-app_assoc in Hl. cbn [app] in Hl.
    specialize (IH e' (e :: ys) vals' (pre ++ [x]) rest' Hl).
    rewrite <-fmap_app in Hv'. specialize (IH Hv' Hr).
    rewrite length_app in IH. cbn [length] in IH.
    replace (length pre + 1)%nat with (S (length pre)) in IH by lia.
    rewrite <-!app_assoc in IH. cbn [app] in IH.
    rewrite reverse_snoc. exact IH.
Qed.

Lemma carries_fld {A} (f : dll.Entry K V → A) (g : K * V → A) h es kvs :
  (∀ x, f x = g (dll.ekv x)) →
  dll.carries h es kvs → dll.fld f h <$> es = Some <$> (g <$> kvs).
Proof.
  intros Hfg. unfold dll.carries. revert kvs.
  induction es as [|e es IH]; intros [|kv kvs]; try done.
  rewrite !fmap_cons. intros [= He Hes]. f_equal; [|by apply IH].
  unfold dll.fld in *. destruct (dll.entries h !! e); simplify_eq/=.
  by rewrite Hfg.
Qed.

Lemma listing_spec {A} `{!GoZero A} (f : dll.Entry K V → A) (g : K * V → A) s a :
  (∀ x, f x = g (dll.ekv x)) →
  rep s a →
  (l ← rd_lru evictList; n ← liftH (dll.Length l); out ← make_slice n;
   entry ← liftH (dll.Back l); walk f (length out) out 0%nat entry) s =
    Some (reverse (g <$> a_kvs a), s).
Proof.
  intros Hfg. destruct s as [[c l m cb] h w], a as [c' cb' kvs w'].
  intros (_ & _ & _ & es & [Hl Hc _ _]); simpl in *.
  pose proof (Length_spec _ _ _ Hl) as HL. pose proof (Back_spec _ _ _ Hl) as HB.
  pose proof (carries_fld f g _ _ _ Hfg Hc) as Hv.
  lpure. lheap HL. unfold make_slice. rewrite decide_False by lia.
  lpure. lheap HB. rewrite length_replicate, Nat2Z.id.
  destruct es as [|e xs _] using rev_ind.
  - destruct kvs; [done|]. apply (f_equal length) in Hv. done.
  - rewrite last_snoc, length_app. simpl.
    replace (length xs + 1)%nat with (S (length xs)) by lia.
    apply (walk_spec f _ h w l xs e [] _ []); [done|done|].
    change (length (replicate (S (length xs)) (zero : A)) = S (length xs)).
    by rewrite length_replicate.
Qed.

Lemma Keys_rep s a : rep s a → Keys s = Some (m_keys a, s).
Proof.
  intros Hrep. unfold m_keys.
  by apply (listing_spec dll.Key fst s a).
Qed.

Lemma Vals_rep s a : rep s a → Vals s = Some (m_vals a, s).
Proof.
  intros Hrep. unfold m_vals.
  by apply (listing_spec dll.Val snd s a).
Qed.
(** *** The methods that only read *)

Lemma Contains_rep s a k :
  rep s a → Contains k s = Some (bool_decide (k ∈ (a_kvs a).*1), s).
Proof.
  intros (_ & _ & _ & es & Hwf). unfold Contains. lpure.
  unfold mret, SE_ret. do 2 f_equal. apply bool_decide_ext.
  destruct (items (lru s) !! k) as [e|] eqn:Hk.
  - destruct (wf_lookup _ _ _ _ _ Hwf Hk) as (xs & ys & kv1 & v0 & kv2 & _ & -> & _).
    rewrite fmap_app, fmap_cons. split; [set_solver|by eauto].
  - pose proof (wf_absent _ _ _ _ Hwf Hk). split; [by intros []|done].
Qed.

Lemma Peek_rep s a k :
  rep s a →
  Peek k s = Some (match value_of k (a_kvs a) with
                   | Some v => (v, true)
                   | None => (zero, false)
                   end, s).
Proof.
  destruct s as [[c l m cb] h w], a as [c' cb' kvs w'].
  intros (_ & _ & _ & es & Hwf); simpl in *.
  unfold Peek. lpure. destruct (m !! k) as [e|] eqn:Hk.
  - destruct (wf_lookup _ _ _ _ _ Hwf Hk)
      as (xs & ys & kv1 & v0 & kv2 & -> & -> & Hl1).
    destruct Hwf as [Hl Hc Hit Hnd]; simpl in *.
    pose proof (NoDup_keys_mid _ _ _ _ Hnd) as (Hk1 & _ & _).
    rewrite value_of_mid by done.
    apply carries_app in Hc as [_ Hc2]; [|done].
    apply carries_cons in Hc2 as [[_ HV]%fld_ekv _].
    lread. reflexivity.
  - pose proof (wf_absent _ _ _ _ Hwf Hk) as Hnk. simpl in Hnk.
    by rewrite value_of_notin.
Qed.

Lemma GetOldest_rep s a :
  rep s a →
  GetOldest s = Some (match last (a_kvs a) with
                      | Some (k, v) => (k, v, true)
                      | None => (zero, zero, false)
                      end, s).
Proof.
  destruct s as [[c l m cb] h w], a as [c' cb' kvs w'].
  intros (_ & _ & _ & es & [Hl Hc _ _]); simpl in *.
  pose proof (Back_spec _ _ _ Hl) as HB.
  pose proof (carries_length _ _ _ Hc) as Hlen.
  unfold GetOldest. lpure. lheap HB.
  destruct es as [|e xs _] using rev_ind.
  - by destruct kvs.
  - destruct kvs as [|[k v] kvs0 _] using rev_ind.
    { rewrite length_app in Hlen. simpl in Hlen. lia. }
    rewrite !length_app in Hlen. simpl in Hlen. rewrite !last_snoc.
    apply carries_app in Hc as [_ Hc2]; [|lia].
    apply carries_cons in Hc2 as [[HK HV]%fld_ekv _].
    do 2 lread. reflexivity.
Qed.
Lemma RemoveOldest_rep s a :
  rep s a →
  ∃ s', RemoveOldest s = Some (match last (a_kvs a) with
                               | Some (k, v) => (k, v, true)
                               | None => (zero, zero, false)
                               end, s') ∧
        rep s' (m_evict a).
Proof.
  destruct s as [[c l m cb] h w], a as [c' cb' kvs w'].
  intros (? & ? & ? & es & Hwf); simpl in *; subst c' cb' w'.
  pose proof (wf_lengths _ _ _ Hwf) as Hlen.
  pose proof (Back_spec _ _ _ (wf_list _ _ _ Hwf)) as HB. simpl in HB.
  unfold RemoveOldest, m_evict; simpl.
  destruct es as [|e0 es0] using rev_ind.
  - destruct kvs; [|done]. eexists. split.
    + lpure. lheap HB. reflexivity.
    + simpl. split_and!; try done. by exists [].
  - clear IHes0. destruct kvs as [|[k v] kvs0 _] using rev_ind.
    { rewrite length_app in Hlen. simpl in Hlen. lia. }
    rewrite !length_app in Hlen. simpl in Hlen.
    destruct (removeElement_spec _ es0 e0 [] kvs0 k v [] Hwf) as
      (h' & E & Hl' & Hc' & Hit' & Hnd' & [HK HV]%fld_ekv & _); [lia|].
    simpl in *. rewrite !app_nil_r in *.
    eexists. split.
    + lpure. lheap HB. rewrite !last_snoc. lstep ltac:(exact E).
      do 2 lread. reflexivity.
    + rewrite last_snoc, removelast_last. by eapply rep_intro.
Qed.
(** *** [Purge] *)

(** The entry the map has for a key carries that key and its value. *)
Lemma wf_entry s es kvs k e :
  wf s es kvs → items (lru s) !! k = Some e →
  ∃ v, dll.fld dll.ekv (mem s) e = Some (k, v) ∧ (k, v) ∈ kvs.
Proof.
  intros Hwf Hk.
  destruct (wf_lookup _ _ _ _ _ Hwf Hk) as (xs & ys & kv1 & v0 & kv2 & -> & -> & Hl1).
  destruct Hwf as [_ Hc _ _].
  apply carries_app in Hc as [_ Hc2]; [|done].
  apply carries_cons in Hc2 as [Hkv _].
  exists v0. split; [done|set_solver].
Qed.

Lemma foldl_delete_all {A} (L : list (K * A)) : ∀ m : gmap K A,
  (∀ k, is_Some (m !! k) → k ∈ L.*1) →
  foldl (λ m ke, delete ke.1 m) m L = ∅.
Proof.
  induction L as [|[k x] L IH]; intros m Hm.
  - apply map_empty. intros k. apply eq_None_not_Some. intros Hk%Hm. set_solver.
  - cbn [foldl fst]. apply IH. intros k' Hk'.
    destruct (decide (k' = k)) as [->|Hne].
    + rewrite lookup_delete_eq in Hk'. by destruct Hk'.
    + rewrite lookup_delete_ne in Hk' by done. apply Hm in Hk'. set_solver.
Qed.

Lemma Purge_loop_run c l cb h (L : list (K * loc)) : ∀ m w,
  Forall (λ ke, ∃ v, dll.fld dll.ekv h ke.2 = Some (ke.1, v)) L →
  ∃ evs,
    Purge_loop L (mkSt (mkLru c l m cb) h w) =
      Some (tt, mkSt (mkLru c l (foldl (λ m ke, delete ke.1 m) m L) cb) h
                     (fire cb evs w)) ∧
    Forall2 (λ ke kv, dll.fld dll.ekv h ke.2 = Some kv) L evs.
Proof.
  induction L as [|[k e] L IH]; intros m w HL.
  - exists []. split; [done|constructor].
  - apply Forall_cons in HL as [[v Hkv] HL]. cbn [fst snd] in Hkv.
    pose proof Hkv as [HK HV]%fld_ekv.
    destruct (IH (delete k m) (fire cb [(k, v)] w) HL) as (evs & E & Hevs).
    exists ((k, v) :: evs). split; [|by constructor].
    cbn [Purge_loop]. lread.
    lstep ltac:(apply call_onEvict_run). lpure. lpure. exact E.
Qed.

Lemma Purge_rep s a :
  rep s a →
  ∃ s' evs, Purge s = Some (tt, s') ∧ evs ≡ₚ a_kvs a ∧
    rep s' (mkAbs (a_cap a) (a_cb a) [] (fire (a_cb a) evs (a_world a))).
Proof.
  destruct s as [[c l m cb] h w], a as [c' cb' kvs w'].
  intros (? & ? & ? & es & Hwf); simpl in *; subst c' cb' w'.
  destruct (Init_spec _ _ _ (wf_list _ _ _ Hwf)) as (h1 & EI & Hl1 & Hf1 & _).
  simpl in EI.
  assert (∀ k e, (k, e) ∈ map_to_list m →
            ∃ v, dll.fld dll.ekv h1 e = Some (k, v) ∧ (k, v) ∈ kvs) as Hent.
  { intros k e Hke%elem_of_map_to_list.
    destruct (wf_entry _ _ _ _ _ Hwf Hke) as (v & Hv & Hin). simpl in Hv.
    exists v. by rewrite Hf1. }
  destruct (Purge_loop_run c l cb h1 (map_to_list m) m w) as (evs & E & Hevs).
  { apply Forall_forall. intros [k e] Hke. destruct (Hent _ _ Hke) as (v & ? & _).
    by exists v. }
  rewrite foldl_delete_all in E
    by (intros k [e Hk]; apply list_elem_of_fmap; exists (k, e);
        split; [done|by apply elem_of_map_to_list]).
  pose proof (wf_nodup _ _ _ Hwf) as Hnd.
  assert (∀ k v1 v2, (k, v1) ∈ kvs → (k, v2) ∈ kvs → v1 = v2) as Hfun.
  { intros k v1 v2 H1%(elem_of_list_to_map (M:=gmap K)) H2%(elem_of_list_to_map (M:=gmap K));
      [congruence|done|done]. }
  assert (evs.*1 = (map_to_list m).*1) as Hkeys.
  { clear E. induction Hevs as [|[k e] kv L evs' Hx Hxs IH]; [done|].
    destruct (Hent k e) as (v & Hv & _); [set_solver|].
    cbn [fst snd] in Hx. rewrite !fmap_cons, IH by set_solver.
    f_equal. by simplify_eq. }
  exists (mkSt (mkLru c l ∅ cb) h1 (fire cb evs w)), evs. split_and!.
  - unfold Purge. lpure. lheap EI. lpure. exact E.
  - apply NoDup_Permutation.
    + apply (NoDup_fmap_1 fst). rewrite Hkeys. apply NoDup_fst_map_to_list.
    + by apply (NoDup_fmap_1 fst).
    + intros [k v]. split.
      * intros Hin. apply list_elem_of_lookup in Hin as [i Hi].
        destruct (Forall2_lookup_r _ _ _ _ _ Hevs Hi) as ([k' e] & Hke & Hx).
        apply list_elem_of_lookup_2 in Hke.
        destruct (Hent _ _ Hke) as (v' & Hv' & Hin'). cbn [snd] in Hx.
        by simplify_eq.
      * intros Hin.
        assert (is_Some (m !! k)) as [e Hk].
        { destruct (m !! k) eqn:Hk; [done|].
          apply (wf_absent _ _ _ _ Hwf) in Hk. exfalso. apply Hk.
          apply list_elem_of_fmap. by exists (k, v). }
        apply elem_of_map_to_list, list_elem_of_lookup in Hk as [i Hi].
        destruct (Forall2_lookup_l _ _ _ _ _ Hevs Hi) as (kv & Hkv & Hx).
        destruct (Hent k e) as (v' & Hv' & Hin'); [by eapply list_elem_of_lookup_2|].
        cbn [snd] in Hx. assert (kv = (k, v')) as -> by congruence.
        rewrite (Hfun _ _ _ Hin Hin'). by eapply list_elem_of_lookup_2.
  - by eapply rep_intro; [done|done|done|apply NoDup_nil_2].
Qed.
End facts.
End lru_facts.

(** ** Sequences of calls, on the list of pairs *)

Module model_facts.
Import dll_facts lru_facts simplelru.
Section facts.
Context {K : Type} `{Countable K} {V : Type} `{!GoZero K, !GoZero V} {W : Type}.
Implicit Types (s : St K V W) (kvs P : list (K * V)) (k : K) (v : V)
  (a : Abs K V W) (w : W) (cb : option (K → V → W → W)).

Lemma fire_app cb P1 P2 w : fire cb (P1 ++ P2) w = fire cb P2 (fire cb P1 w).
Proof. unfold fire. by rewrite foldl_app. Qed.

Lemma keys_split kvs k :
  k ∈ kvs.*1 → ∃ kv1 v0 kv2, kvs = kv1 ++ (k, v0) :: kv2.
Proof.
  intros ([k' v0] & -> & Hin)%list_elem_of_fmap.
  apply list_elem_of_split in Hin as (kv1 & kv2 & ->). by exists kv1, v0, kv2.
Qed.

Lemma m_evict_snoc c cb kvs kv w :
  m_evict (mkAbs c cb (kvs ++ [kv]) w) = mkAbs c cb kvs (fire cb [kv] w).
Proof. unfold m_evict; simpl. by rewrite last_snoc, removelast_last. Qed.

Lemma m_evict_nil c cb w : m_evict (mkAbs c cb [] w) = mkAbs c cb [] w.
Proof. done. Qed.

Lemma m_add_cfg k v a :
  a_cap (m_add k v a).2 = a_cap a ∧ a_cb (m_add k v a).2 = a_cb a.
Proof.
  unfold m_add. repeat case_decide; simpl; try done.
  unfold m_evict; simpl. by destruct (last _).
Qed.

Lemma m_add_ok k v a : m_ok a → m_ok (m_add k v a).2.
Proof.
  destruct a as [c cb kvs w]. unfold m_ok. cbn [a_kvs a_cap].
  intros (Hnd & Hlen & Hcap).
  unfold m_add, with_kvs. cbn [a_kvs a_cap a_cb a_world].
  case_decide as Hin; cbn [fst snd a_kvs a_cap].
  - destruct (keys_split _ _ Hin) as (kv1 & v0 & kv2 & ->).
    rewrite without_mid by done.
    pose proof (NoDup_keys_mid _ _ _ _ Hnd) as (H1 & H2 & Hnd').
    split_and!; [|revert Hlen; cbn [length]; rewrite !length_app; cbn [length]; lia|done].
    rewrite fmap_cons. apply NoDup_cons. split; [|done].
    cbn [fst]. rewrite fmap_app. set_solver.
  - assert (NoDup ((k, v) :: kvs).*1) as Hnd1.
    { rewrite fmap_cons. by apply NoDup_cons. }
    case_decide as Hev; cbn [fst snd a_kvs a_cap];
      [|split_and!; [done|cbn [length] in *; lia|done]].
    destruct (kvs) as [|kv kvs' _] using rev_ind.
    + change [(k, v)] with ([] ++ [(k, v)]). rewrite m_evict_snoc.
      cbn [a_kvs a_cap length] in *.
      split_and!; [apply NoDup_nil_2|lia|done].
    + rewrite app_comm_cons, m_evict_snoc. cbn [a_kvs a_cap].
      rewrite length_app in Hlen. cbn [length] in *.
      split_and!; [|lia|done].
      rewrite app_comm_cons, fmap_app in Hnd1. by apply NoDup_app in Hnd1 as [? _].
Qed.

Lemma Adds_rep P : ∀ s a,
  rep s a → m_ok a →
  ∃ s', Adds P s = Some ((m_adds P a).1, s') ∧
        rep s' (m_adds P a).2 ∧ m_ok (m_adds P a).2.
Proof.
  induction P as [|[k v] P IH]; intros s a Hrep Hok.
  - by exists s.
  - destruct (Add_rep s a k v Hrep) as (s1 & E1 & Hrep1).
    { right. destruct Hok as (_ & ? & ?). lia. }
    pose proof (m_add_ok k v a Hok) as Hok1.
    destruct (IH _ _ Hrep1 Hok1) as (s2 & E2 & Hrep2 & Hok2).
    exists s2. split; [|done]. simpl.
    eapply eq_trans; [apply SE_bind_run; exact E1|]. cbv beta.
    eapply eq_trans; [apply SE_bind_run; exact E2|]. done.
Qed.

Lemma m_adds_app P1 P2 a :
  m_adds (P1 ++ P2) a =
    ((m_adds P1 a).1 ++ (m_adds P2 (m_adds P1 a).2).1, (m_adds P2 (m_adds P1 a).2).2).
Proof.
  revert a. induction P1 as [|[k v] P1 IH]; intros a; simpl.
  - by destruct (m_adds P2 a).
  - by rewrite IH.
Qed.

(** Distinct keys added to an empty cache of capacity [c]: the first [c]
    calls evict nothing, every later one evicts the oldest pair; the
    cache ends with the last [c] pairs, and the callback has heard of the
    others in the order they were added. *)
Lemma m_adds_fresh (c : nat) cb w P :
  (0 < c)%nat → NoDup P.*1 →
  m_adds P (mkAbs (Z.of_nat c) cb [] w) =
    (replicate (length P `min` c) false ++ replicate (length P - c) true,
     mkAbs (Z.of_nat c) cb (reverse (drop (length P - c) P))
           (fire cb (take (length P - c) P) w)).
Proof.
  intros Hc. induction P as [|[k v] P' IH] using rev_ind; intros Hnd; [done|].
  rewrite fmap_app in Hnd. apply NoDup_app in Hnd as (Hnd' & Hk & _).
  assert (k ∉ P'.*1) as Hk'. { intros Hin. apply (Hk _ Hin). set_solver. }
  rewrite m_adds_app, (IH Hnd'). clear IH. cbn [m_adds fst snd].
  rewrite length_app. cbn [length]. set (n := length P').
  unfold m_add, with_kvs. cbn [a_kvs a_cap a_cb a_world].
  rewrite decide_False; last first.
  { rewrite fmap_reverse, elem_of_reverse. intros Hin. apply Hk'.
    eapply subseteq_drop. by rewrite <-fmap_drop. }
  cbn [a_kvs a_cap with_kvs length fst snd].
  rewrite length_reverse, length_drop. fold n.
  destruct (decide (n < c)%nat) as [Hlt|Hge].
  - rewrite decide_False by lia. cbn [fst snd].
    replace (n - c)%nat with 0%nat by lia.
    replace (n + 1 - c)%nat with 0%nat by lia.
    rewrite !drop_0, !take_0, reverse_snoc.
    replace (n `min` c)%nat with n by lia.
    replace ((n + 1) `min` c)%nat with (S n) by lia.
    rewrite replicate_S_end. cbn [replicate fire foldl]. by rewrite !app_nil_r.
  - rewrite decide_True by lia. cbn [fst snd].
    assert (is_Some (P' !! (n - c)%nat)) as [x Hx].
    { apply lookup_lt_is_Some. unfold n in *. lia. }
    rewrite (drop_S _ _ _ Hx), reverse_cons, app_comm_cons, m_evict_snoc.
    replace (n + 1 - c)%nat with (S (n - c)) by lia.
    rewrite drop_app_le, take_app_le by (unfold n in *; lia).
    rewrite reverse_app. simpl.
    rewrite (take_S_r _ _ _ Hx), fire_app.
    replace (n `min` c)%nat with c by lia.
    replace ((n + 1) `min` c)%nat with c by lia.
    by rewrite <-app_assoc, <-replicate_S_end.
Qed.

Lemma wf_items_None s es kvs k :
  wf s es kvs → k ∉ kvs.*1 → items (lru s) !! k = None.
Proof.
  intros Hwf Hk. rewrite (wf_items _ _ _ Hwf).
  apply not_elem_of_list_to_map_1. rewrite fst_zip; [done|].
  rewrite length_fmap, (wf_lengths _ _ _ Hwf). done.
Qed.

Lemma rep_items_Some s a k :
  rep s a → k ∈ (a_kvs a).*1 → is_Some (items (lru s) !! k).
Proof.
  intros (_ & _ & _ & es & Hwf) Hk.
  destruct (items (lru s) !! k) eqn:E; [done|].
  by apply (wf_absent _ _ _ _ Hwf) in E.
Qed.

Lemma value_of_present kvs k :
  NoDup kvs.*1 → k ∈ kvs.*1 →
  ∃ kv1 v kv2, kvs = kv1 ++ (k, v) :: kv2 ∧ value_of k kvs = Some v ∧
               without k kvs = kv1 ++ kv2 ∧ (k ∉ (kv1 ++ kv2).*1).
Proof.
  intros Hnd Hk. destruct (keys_split _ _ Hk) as (kv1 & v & kv2 & ->).
  pose proof (NoDup_keys_mid _ _ _ _ Hnd) as (H1 & H2 & _).
  exists kv1, v, kv2. split_and!; [done|by apply value_of_mid|by apply without_mid|].
  rewrite fmap_app. set_solver.
Qed.

Lemma without_keys k kvs : (without k kvs).*1 = filter (λ x, x ≠ k) kvs.*1.
Proof.
  unfold without. induction kvs as [|[k' v'] kvs IH]; [done|].
  rewrite fmap_cons, !filter_cons. simpl.
  case_decide; [rewrite fmap_cons|]; by rewrite IH.
Qed.

Lemma rep_nodup s a : rep s a → NoDup (a_kvs a).*1.
Proof. intros (_ & _ & _ & es & Hwf). by destruct Hwf. Qed.

Lemma rep_bound s a : rep s a → Z.of_nat (length (a_kvs a)) ≤ int_max.
Proof.
  intros (_ & _ & _ & es & Hwf). rewrite <-(wf_lengths _ _ _ Hwf).
  apply (dll.il_bound _ _ _ (wf_list _ _ _ Hwf)).
Qed.

(** [j] evictions drop the [j] oldest pairs, oldest first. *)
Lemma iter_evict j c cb kvs w :
  Nat.iter j m_evict (mkAbs c cb kvs w) =
    mkAbs c cb (take (length kvs - j) kvs)
          (fire cb (reverse (drop (length kvs - j) kvs)) w).
Proof.
  induction j as [|j IH].
  - change (Nat.iter 0 m_evict ?x) with x. by rewrite Nat.sub_0_r, take_ge, drop_ge by lia.
  - rewrite Nat.iter_succ, IH. destruct (decide (length kvs ≤ j)%nat) as [Hle|Hgt].
    + replace (length kvs - j)%nat with 0%nat by lia.
      replace (length kvs - S j)%nat with 0%nat by lia.
      rewrite take_0. apply m_evict_nil.
    + replace (length kvs - j)%nat with (S (length kvs - S j)) by lia.
      destruct (lookup_lt_is_Some_2 kvs (length kvs - S j)) as [x Hx]; [lia|].
      rewrite (take_S_r _ _ _ Hx), m_evict_snoc. f_equal.
      rewrite (drop_S _ _ _ Hx), reverse_cons, fire_app. done.
Qed.

Lemma m_adds_cfg P : ∀ a,
  a_cap (m_adds P a).2 = a_cap a ∧ a_cb (m_adds P a).2 = a_cb a.
Proof.
  induction P as [|[k v] P IH]; intros a; [done|].
  cbn [m_adds fst snd]. destruct (IH (m_add k v a).2) as [-> ->].
  apply m_add_cfg.
Qed.

(** A cache built by [NewLru] and filled by [Add] holds what the model
    says. *)
Lemma built_rep c cb h w P :
  0 < c < int_max →
  ∃ s0 s, new_cache c cb h w = Some s0 ∧
    Adds P s0 = Some ((m_adds P (mkAbs c cb [] w)).1, s) ∧
    rep s (m_adds P (mkAbs c cb [] w)).2 ∧ m_ok (m_adds P (mkAbs c cb [] w)).2.
Proof.
  intros [Hc Hm]. destruct (new_cache_rep c cb h w Hc) as (s0 & E0 & R0).
  destruct (Adds_rep P s0 _ R0) as (s & E & R & Hok).
  { split_and!; simpl; [apply NoDup_nil_2|lia|done]. }
  by exists s0, s.
Qed.

(** The calls of [Adds] on [P ++ Q] are those on [P], then those on [Q]. *)
Lemma Adds_app P Q : ∀ s,
  Adds (P ++ Q) s = (bs1 ← Adds P; bs2 ← Adds Q; mret (bs1 ++ bs2)) s.
Proof.
  induction P as [|[k v] P IH]; intros s.
  - cbn [app Adds]. unfold mbind, SE_bind, mret, SE_ret.
    by destruct (Adds Q s) as [[??]|].
  - cbn [app Adds]. unfold mbind, SE_bind. destruct (Add k v s) as [[b s1]|]; [|done].
    rewrite IH. unfold mbind, SE_bind, mret, SE_ret.
    destruct (Adds P s1) as [[bs1 s2]|]; [|done].
    by destruct (Adds Q s2) as [[??]|].
Qed.

(** An [Add] of a key the cache holds touches neither the controller's
    fields, the map among them, nor the callback's world. *)
Lemma Add_present_frame s k v e r s' :
  items (lru s) !! k = Some e → Add k v s = Some (r, s') →
  lru s' = lru s ∧ world s' = world s.
Proof.
  intros Hk. unfold Add, mbind, SE_bind, rd_lru, liftH, mret, SE_ret.
  rewrite Hk. intros; repeat case_match; by simplify_eq.
Qed.

(** A resize of the model, for an [n] that does not make [Len() - n]
    overflow: the capacity becomes [max(n, 0)] and the pairs beyond it
    leave, oldest first. *)
Lemma m_resize_in_range n cap cb kvs w :
  n ≤ int_max → Z.of_nat (length kvs) ≤ int_max →
  Z.of_nat (length kvs) - n ≤ int_max →
  let m := Z.max n 0 in
  let keep := (length kvs - Z.to_nat (Z.of_nat (length kvs) - m))%nat in
  m_resize n (mkAbs cap cb kvs w) =
    (m, mkAbs m cb (take keep kvs) (fire cb (reverse (drop keep kvs)) w)).
Proof.
  intros Hn Hl Hd m keep. unfold m_resize. cbn [a_kvs].
  rewrite wrap64_id by (unfold int_range, int_min, int_max in *; lia).
  replace (if decide (n < 0) then 0 else n) with m by (subst m; case_decide; lia).
  rewrite iter_evict. cbn [a_kvs a_cb a_world].
  replace (length kvs - Z.to_nat (Z.of_nat (length kvs) - n))%nat with keep
    by (subst keep m; lia).
  done.
Qed.

Lemma m_get_world k a : a_world (m_get k a).2 = a_world a.
Proof. unfold m_get. by destruct (value_of k (a_kvs a)). Qed.
(** *** What a call hands to the callback *)

Lemma m_evict_world a :
  a_world (m_evict a) = fire (a_cb a) (m_evict_gone a) (a_world a).
Proof. unfold m_evict, m_evict_gone. by destruct (last (a_kvs a)). Qed.

Lemma m_evict_cfg a : a_cap (m_evict a) = a_cap a ∧ a_cb (m_evict a) = a_cb a.
Proof. unfold m_evict. by destruct (last (a_kvs a)). Qed.

Lemma m_add_world k v a :
  a_world (m_add k v a).2 = fire (a_cb a) (m_add_gone k v a) (a_world a).
Proof.
  unfold m_add_gone, m_add, with_kvs.
  repeat case_decide; cbn [fst snd a_world]; [done| |done].
  unfold m_evict. cbn [a_kvs a_world a_cb].
  by destruct (last ((k, v) :: a_kvs a)).
Qed.

Lemma m_add_gone_length k v a :
  if (m_add k v a).1 then length (m_add_gone k v a) = 1%nat
  else m_add_gone k v a = [].
Proof.
  unfold m_add_gone. destruct (m_add k v a).1; [|done].
  destruct (last ((k, v) :: a_kvs a)) eqn:E; [done|].
  by apply last_None in E.
Qed.

Lemma m_remove_world k a :
  a_world (m_remove k a).2 = fire (a_cb a) (m_remove_gone k a) (a_world a).
Proof. unfold m_remove, m_remove_gone. by destruct (value_of k (a_kvs a)). Qed.

Lemma m_remove_cfg k a :
  a_cap (m_remove k a).2 = a_cap a ∧ a_cb (m_remove k a).2 = a_cb a.
Proof. unfold m_remove. by destruct (value_of k (a_kvs a)). Qed.

Lemma m_remove_gone_length k a :
  if (m_remove k a).1 then length (m_remove_gone k a) = 1%nat
  else m_remove_gone k a = [].
Proof. unfold m_remove, m_remove_gone. by destruct (value_of k (a_kvs a)). Qed.

(** The world plays no part in what a cache holds. *)
Lemma rep_set_world s a w :
  rep s a → rep (mkSt (lru s) (mem s) w) (mkAbs (a_cap a) (a_cb a) (a_kvs a) w).
Proof.
  intros (Hc & Hcb & _ & es & [Hl Hca Hit Hnd]).
  split_and!; [done|done|done|]. exists es. by split.
Qed.
End facts.
End model_facts.

(** ** The wrapper *)

Module golru_facts.
Import dll_facts lru_facts model_facts simplelru golru.
Section facts.
Context {K : Type} `{Countable K} {V : Type} `{!GoZero K, !GoZero V}.
Implicit Types (c : Cache K V) (a : Abs K V (Buffers K V)) (k : K) (v : V)
  (kvs : list (K * V)).

Lemma events_since_app c c' evs :
  trace c' = trace c ++ evs → events_since c c' = evs.
Proof. unfold events_since. intros ->. by rewrite drop_app_length. Qed.

(** The controller's callback fills the buffers in the order of the
    evictions. *)
Lemma fire_onEvict kvs : ∀ ks vs,
  fire (Some onEvict) kvs (mkBuffers ks vs) = mkBuffers (ks ++ kvs.*1) (vs ++ kvs.*2).
Proof.
  induction kvs as [|[k v] kvs IH]; intros ks vs.
  - by rewrite !app_nil_r.
  - change (fire (Some onEvict) ((k, v) :: kvs) (mkBuffers ks vs))
      with (fire (Some onEvict) kvs (mkBuffers (ks ++ [k]) (vs ++ [v]))).
    by rewrite IH, !fmap_cons, <-!app_assoc.
Qed.

(** The loop that replays the buffers calls the user's callback on each
    pair, in order, in the state of the mutex it starts in. *)
Lemma deliver_run kvs : ∀ pre c,
  deliver kvs.*1 (pre ++ kvs.*2) (length pre) c =
    Some (tt, mkCache (rwm c) (ctl c) (onEvictCb c)
                (trace c ++ ((λ kv, EvCallback kv.1 kv.2 (rwm c)) <$> kvs))).
Proof.
  induction kvs as [|[k v] kvs IH]; intros pre c.
  - destruct c. cbn [fmap list_fmap deliver]. by rewrite app_nil_r.
  - cbn [fmap list_fmap deliver fst snd].
    rewrite list_lookup_middle by done.
    unfold mbind, SE_bind, callback.
    specialize (IH (pre ++ [v]) (emit (EvCallback k v (rwm c)) c)).
    rewrite <-app_assoc, length_app in IH. cbn [app length] in IH.
    replace (length pre + 1)%nat with (S (length pre)) in IH by lia.
    rewrite IH. destruct c. cbn [emit rwm ctl onEvictCb trace].
    by rewrite <-app_assoc.
Qed.

(** What the buffers hold after the controller has evicted [gone] from an
    idle cache. *)
Lemma fire_flag (cbf : bool) kvs :
  fire (if cbf then Some onEvict else None) kvs (mkBuffers [] []) =
    if cbf then mkBuffers kvs.*1 kvs.*2 else mkBuffers [] [].
Proof.
  destruct cbf; [apply (fire_onEvict kvs [] [])|].
  unfold fire. by induction kvs.
Qed.

(** The end of [Add], [Remove] and the like: with the lock held and the
    buffers holding the one pair the controller has evicted, if it has,
    the buffers are emptied, the lock released and the pair delivered. *)
Lemma unlock_and_report_run (hit cbf : bool) (s : St K V (Buffers K V)) t gone :
  world s = (if cbf then mkBuffers gone.*1 gone.*2 else mkBuffers [] []) →
  (if hit then length gone = 1%nat else gone = []) →
  unlock_and_report hit (mkCache (mkRWMutex true 0) s cbf t) =
    Some (tt, mkCache free (mkSt (lru s) (mem s) (mkBuffers [] [])) cbf
                (t ++ EvUnlock [] [] :: callbacks cbf gone)).
Proof.
  destruct s as [c h w]. cbn [world lru mem]. intros -> Hg.
  destruct hit.
  - destruct gone as [|[k0 v0] [|??]]; [done| |done].
    destruct cbf; cbv -[app]; by rewrite <-?app_assoc.
  - subst gone. destruct cbf; cbv -[app]; by rewrite <-?app_assoc.
Qed.

(** A call of the controller under the lock, followed by that end. *)
Lemma call_report_run {A B} (op : CtlOp) (m : simplelru.M K V (Buffers K V) A)
    (hitf : A → bool) (g : A → B) s (cbf : bool) t x s' a a' gone :
  rep s a → a_cb a = (if cbf then Some onEvict else None) →
  a_world a = mkBuffers [] [] →
  m s = Some (x, s') → rep s' a' →
  a_world a' = fire (a_cb a) gone (a_world a) →
  (if hitf x then length gone = 1%nat else gone = []) →
  (r ← call op m; unlock_and_report (hitf r);; mret (g r))
    (mkCache (mkRWMutex true 0) s cbf t) =
    Some (g x, mkCache free (mkSt (lru s') (mem s') (mkBuffers [] [])) cbf
                 (t ++ [EvCtl op (mkRWMutex true 0); EvUnlock [] []] ++
                  callbacks cbf gone)).
Proof.
  intros R Hcb Hw E R' Hw' Hg.
  assert (world s' = if cbf then mkBuffers gone.*1 gone.*2 else mkBuffers [] []) as Hs'.
  { destruct R' as (_ & _ & -> & _). by rewrite Hw', Hcb, Hw, fire_flag. }
  unfold mbind, SE_bind, call. cbn [ctl rwm onEvictCb trace]. rewrite E.
  rewrite (unlock_and_report_run _ _ _ _ gone Hs' Hg).
  unfold mret, SE_ret. by rewrite <-app_assoc.
Qed.

(** The cache a call leaves is idle again. *)
Lemma idle_after s' a' (cbf : bool) t :
  rep s' a' → a_cb a' = (if cbf then Some onEvict else None) →
  idle (mkCache free (mkSt (lru s') (mem s') (mkBuffers [] [])) cbf t)
       (mkAbs (a_cap a') (a_cb a') (a_kvs a') (mkBuffers [] [])).
Proof.
  intros R Hcb. split_and!; [done| |done|done]. by apply rep_set_world.
Qed.

(** *** The mutating methods but [Resize] and [Purge] *)

Lemma Add_protocol c a k v :
  idle c a → k ∈ (a_kvs a).*1 ∨ Z.of_nat (length (a_kvs a)) < int_max →
  ∃ c', golru.Add k v c = Some ((m_add k v a).1, c') ∧
    idle c' (mkAbs (a_cap a) (a_cb a) (a_kvs (m_add k v a).2) (mkBuffers [] [])) ∧
    onEvictCb c' = onEvictCb c ∧
    events_since c c' =
      [EvLock; EvCtl OpAdd (mkRWMutex true 0); EvUnlock [] []] ++
      callbacks (onEvictCb c) (m_add_gone k v a).
Proof.
  intros (Hm & R & Hcb & Hw) Hlt. destruct c as [mx s cbf t]. simpl in *. subst mx.
  destruct (Add_rep _ _ k v R Hlt) as (s' & E & R').
  destruct (m_add_cfg k v a) as [Hcap' Hcb'].
  eexists. split_and!.
  - unfold golru.Add. unfold mbind at 1, SE_bind at 1, Lock.
    cbn [rwm writer readers orb negb Nat.eqb emit set_rwm ctl onEvictCb trace].
    apply (call_report_run OpAdd _ (λ r, r) (λ r, r) _ _ _ _ _ _ _ _
             R Hcb Hw E R' (m_add_world k v a) (m_add_gone_length k v a)).
  - rewrite <-Hcap', <-Hcb'. apply idle_after; [done|]. by rewrite Hcb'.
  - done.
  - apply events_since_app. cbn [trace]. by rewrite <-app_assoc.
Qed.

Lemma Remove_protocol c a k :
  idle c a →
  ∃ c', golru.Remove k c = Some ((m_remove k a).1, c') ∧
    idle c' (mkAbs (a_cap a) (a_cb a) (a_kvs (m_remove k a).2) (mkBuffers [] [])) ∧
    onEvictCb c' = onEvictCb c ∧
    events_since c c' =
      [EvLock; EvCtl OpRemove (mkRWMutex true 0); EvUnlock [] []] ++
      callbacks (onEvictCb c) (m_remove_gone k a).
Proof.
  intros (Hm & R & Hcb & Hw). destruct c as [mx s cbf t]. simpl in *. subst mx.
  destruct (Remove_rep _ _ k R) as (s' & E & R').
  destruct (m_remove_cfg k a) as [Hcap' Hcb'].
  eexists. split_and!.
  - unfold golru.Remove. unfold mbind at 1, SE_bind at 1, Lock.
    cbn [rwm writer readers orb negb Nat.eqb emit set_rwm ctl onEvictCb trace].
    apply (call_report_run OpRemove _ (λ r, r) (λ r, r) _ _ _ _ _ _ _ _
             R Hcb Hw E R' (m_remove_world k a) (m_remove_gone_length k a)).
  - rewrite <-Hcap', <-Hcb'. apply idle_after; [done|]. by rewrite Hcb'.
  - done.
  - apply events_since_app. cbn [trace]. by rewrite <-app_assoc.
Qed.

Lemma RemoveOldest_protocol c a :
  idle c a →
  ∃ r c', golru.RemoveOldest c = Some (r, c') ∧
    idle c' (mkAbs (a_cap a) (a_cb a) (a_kvs (m_evict a)) (mkBuffers [] [])) ∧
    onEvictCb c' = onEvictCb c ∧
    events_since c c' =
      [EvLock; EvCtl OpRemoveOldest (mkRWMutex true 0); EvUnlock [] []] ++
      callbacks (onEvictCb c) (m_evict_gone a).
Proof.
  intros (Hm & R & Hcb & Hw). destruct c as [mx s cbf t]. simpl in *. subst mx.
  destruct (RemoveOldest_rep _ _ R) as (s' & E & R').
  destruct (m_evict_cfg a) as [Hcap' Hcb'].
  eexists _, _. split_and!.
  - unfold golru.RemoveOldest. unfold mbind at 1, SE_bind at 1, Lock.
    cbn [rwm writer readers orb negb Nat.eqb emit set_rwm ctl onEvictCb trace].
    apply (call_report_run OpRemoveOldest _ (λ r, r.2) (λ r, r) _ _ _ _ _ _ _ _
             R Hcb Hw E R' (m_evict_world a)).
    unfold m_evict_gone. by destruct (last (a_kvs a)) as [[??]|].
  - rewrite <-Hcap', <-Hcb'. apply idle_after; [done|]. by rewrite Hcb'.
  - done.
  - apply events_since_app. cbn [trace]. by rewrite <-app_assoc.
Qed.
(** One step of a method of the wrapper. *)
Local Ltac wstep tac :=
  eapply eq_trans; [ apply SE_bind_run; tac | cbv beta iota ].
Local Ltac wlock := wstep ltac:(reflexivity).
Local Ltac wcall E :=
  wstep ltac:(unfold call; cbn [ctl emit set_rwm rwm onEvictCb trace];
              rewrite E; reflexivity).

Lemma ContainsOrAdd_protocol c a k v :
  idle c a → k ∈ (a_kvs a).*1 ∨ Z.of_nat (length (a_kvs a)) < int_max →
  let found := bool_decide (k ∈ (a_kvs a).*1) in
  ∃ c', golru.ContainsOrAdd k v c =
          Some (if found then (true, false) else (false, (m_add k v a).1), c') ∧
    idle c' (mkAbs (a_cap a) (a_cb a)
                   (if found then a_kvs a else a_kvs (m_add k v a).2)
                   (mkBuffers [] [])) ∧
    onEvictCb c' = onEvictCb c ∧
    events_since c c' =
      [EvLock; EvCtl OpContains (mkRWMutex true 0)] ++
      (if found then [EvUnlock [] []]
       else [EvCtl OpAdd (mkRWMutex true 0); EvUnlock [] []] ++
            callbacks (onEvictCb c) (m_add_gone k v a)).
Proof.
  intros (Hm & R & Hcb & Hw) Hlt found.
  destruct c as [mx s cbf t]. simpl in *. subst mx.
  pose proof (Contains_rep _ _ k R) as EC. fold found in EC.
  destruct found.
  - pose proof R as (HR1 & HR2 & HR3 & HR4). rewrite Hw in HR3.
    exists (mkCache free s cbf
              (t ++ [EvLock; EvCtl OpContains (mkRWMutex true 0); EvUnlock [] []])).
    split_and!; [|split_and!; [done| |done|done]|done|by apply events_since_app].
    + unfold golru.ContainsOrAdd. wlock. wcall EC.
      cbv [mbind SE_bind Unlock buffers mret SE_ret rwm writer readers emit set_rwm
           ctl onEvictCb trace]. rewrite HR3. cbn [keysEvicted valsEvicted].
      by rewrite <-!app_assoc.
    + cbn [ctl]. by split_and!.
  - destruct (Add_rep _ _ k v R Hlt) as (s' & E & R').
    destruct (m_add_cfg k v a) as [Hcap' Hcb'].
    eexists. split_and!.
    + unfold golru.ContainsOrAdd. wlock. wcall EC.
      apply (call_report_run OpAdd _ (λ r, r) (λ r, (false, r)) _ _ _ _ _ _ _ _
               R Hcb Hw E R' (m_add_world k v a) (m_add_gone_length k v a)).
    + rewrite <-Hcap', <-Hcb'. apply idle_after; [done|]. by rewrite Hcb'.
    + done.
    + apply events_since_app. cbn [trace]. by rewrite <-!app_assoc.
Qed.

Lemma PeekOrAdd_protocol c a k v :
  idle c a → k ∈ (a_kvs a).*1 ∨ Z.of_nat (length (a_kvs a)) < int_max →
  let found := value_of k (a_kvs a) in
  ∃ c', golru.PeekOrAdd k v c =
          Some (match found with
                | Some v0 => (v0, true, false)
                | None => (zero, false, (m_add k v a).1)
                end, c') ∧
    idle c' (mkAbs (a_cap a) (a_cb a)
                   (if found is Some _ then a_kvs a else a_kvs (m_add k v a).2)
                   (mkBuffers [] [])) ∧
    onEvictCb c' = onEvictCb c ∧
    events_since c c' =
      [EvLock; EvCtl OpPeek (mkRWMutex true 0)] ++
      (if found is Some _ then [EvUnlock [] []]
       else [EvCtl OpAdd (mkRWMutex true 0); EvUnlock [] []] ++
            callbacks (onEvictCb c) (m_add_gone k v a)).
Proof.
  intros (Hm & R & Hcb & Hw) Hlt found.
  destruct c as [mx s cbf t]. simpl in *. subst mx.
  pose proof (Peek_rep _ _ k R) as EP. fold found in EP.
  destruct found as [v0|].
  - pose proof R as (HR1 & HR2 & HR3 & HR4). rewrite Hw in HR3.
    exists (mkCache free s cbf
              (t ++ [EvLock; EvCtl OpPeek (mkRWMutex true 0); EvUnlock [] []])).
    split_and!; [|split_and!; [done| |done|done]|done|by apply events_since_app].
    + unfold golru.PeekOrAdd. wlock. wcall EP.
      cbv [mbind SE_bind Unlock buffers mret SE_ret rwm writer readers emit set_rwm
           ctl onEvictCb trace fst snd]. rewrite HR3. cbn [keysEvicted valsEvicted].
      by rewrite <-!app_assoc.
    + cbn [ctl]. by split_and!.
  - destruct (Add_rep _ _ k v R Hlt) as (s' & E & R').
    destruct (m_add_cfg k v a) as [Hcap' Hcb'].
    eexists. split_and!.
    + unfold golru.PeekOrAdd. wlock. wcall EP. cbn [fst snd].
      apply (call_report_run OpAdd _ (λ r, r) (λ r, (zero, false, r)) _ _ _ _ _ _ _ _
               R Hcb Hw E R' (m_add_world k v a) (m_add_gone_length k v a)).
    + rewrite <-Hcap', <-Hcb'. apply idle_after; [done|]. by rewrite Hcb'.
    + done.
    + apply events_since_app. cbn [trace]. by rewrite <-!app_assoc.
Qed.

Lemma Purge_protocol c a :
  idle c a →
  ∃ c' gone, golru.Purge c = Some (tt, c') ∧ gone ≡ₚ a_kvs a ∧
    idle c' (mkAbs (a_cap a) (a_cb a) [] (mkBuffers [] [])) ∧
    onEvictCb c' = onEvictCb c ∧
    events_since c c' =
      [EvLock; EvCtl OpPurge (mkRWMutex true 0); EvUnlock [] []] ++
      callbacks (onEvictCb c) gone.
Proof.
  intros (Hm & R & Hcb & Hw). destruct c as [mx s cbf t]. simpl in *. subst mx.
  destruct (Purge_rep _ _ R) as (s' & gone & E & Hperm & R').
  assert (world s' = if cbf then mkBuffers gone.*1 gone.*2 else mkBuffers [] []) as Hs'.
  { destruct R' as (_ & _ & -> & _). cbn [a_world]. by rewrite Hcb, Hw, fire_flag. }
  pose proof (rep_set_world _ _ (mkBuffers [] []) R') as R''. cbn [a_cap a_cb a_kvs] in R''.
  destruct s' as [lru' mem' w']. cbn [world lru mem] in *. subst w'.
  pose proof (deliver_run gone []) as HD. cbn [app length] in HD.
  exists (mkCache free (mkSt lru' mem' (mkBuffers [] [])) cbf
            (t ++ [EvLock; EvCtl OpPurge (mkRWMutex true 0); EvUnlock [] []] ++
             callbacks cbf gone)), gone.
  split_and!; [|done|by split_and!|done|by apply events_since_app].
  cbv [golru.Purge Lock call mbind SE_bind rwm ctl onEvictCb trace writer readers
       orb negb Nat.eqb emit set_rwm free].
  rewrite E.
  cbv [rd_cache Unlock take_all initEvictBuffer set_buffers mbind SE_bind mret
       SE_ret emit set_rwm buffers rwm ctl onEvictCb trace writer readers andb
       world lru mem].
  destruct cbf.
  - destruct gone as [|[k0 v0] gone'].
    + rewrite bool_decide_false by (cbn; lia).
      cbv [keysEvicted valsEvicted fst snd rwm ctl trace onEvictCb world lru mem
           writer readers deliver callbacks fmap list_fmap].
      by rewrite <-!app_assoc.
    + rewrite bool_decide_true by (cbn; lia).
      cbv [keysEvicted valsEvicted fst snd rwm ctl trace onEvictCb world lru mem
           writer readers].
      rewrite HD. cbv [rwm ctl trace onEvictCb callbacks]. by rewrite <-!app_assoc.
  - cbv [keysEvicted valsEvicted fst snd rwm ctl trace onEvictCb world lru mem
         writer readers callbacks]. by rewrite <-!app_assoc.
Qed.
(** *** [Resize] *)

(** [Resize] hands the buffers over and replays them only when what the
    controller returns, the new capacity, is positive. *)
Lemma Resize_run c a n :
  idle c a → onEvictCb c = true →
  n ≤ int_max → Z.of_nat (length (a_kvs a)) - n ≤ int_max →
  let m := Z.max n 0 in
  let kvs := a_kvs a in
  let keep := (length kvs - Z.to_nat (Z.of_nat (length kvs) - m))%nat in
  let gone := reverse (drop keep kvs) in
  ∃ c', golru.Resize n c = Some (m, c') ∧
    events_since c c' =
      [EvLock; EvCtl OpResize (mkRWMutex true 0)] ++
      (if decide (0 < m) then EvUnlock [] [] :: callbacks true gone
       else [EvUnlock gone.*1 gone.*2]).
Proof.
  intros (Hm & R & Hcb & Hw) Hon Hn Hd m kvs keep gone.
  destruct c as [mx s cbf t], a as [cap cb kvs0 w]. simpl in *. subst mx cbf cb w.
  destruct (Resize_rep s _ n R) as (s' & E & R').
  pose proof (rep_bound _ _ R) as Hb. cbn [a_kvs] in Hb.
  rewrite m_resize_in_range in E, R' by done. cbn [fst snd] in E, R'.
  fold m kvs keep gone in E, R'.
  destruct R' as (_ & _ & Hw' & _). cbn [a_world] in Hw'.
  rewrite (fire_onEvict gone [] []) in Hw'. cbn [app] in Hw'.
  destruct s' as [lru' mem' w']. cbn [world] in Hw'. subst w'.
  pose proof (deliver_run gone []) as HD. cbn [app length] in HD.
  exists (mkCache free
            (mkSt lru' mem'
               (if decide (0 < m) then mkBuffers [] [] else mkBuffers gone.*1 gone.*2))
            true
            (t ++ [EvLock; EvCtl OpResize (mkRWMutex true 0)] ++
             (if decide (0 < m) then EvUnlock [] [] :: callbacks true gone
              else [EvUnlock gone.*1 gone.*2]))).
  split; [|by apply events_since_app].
  cbv [golru.Resize Lock call mbind SE_bind rwm ctl onEvictCb trace writer readers
       orb negb Nat.eqb emit set_rwm free].
  rewrite E.
  cbv [rd_cache Unlock take_all initEvictBuffer set_buffers mbind SE_bind mret
       SE_ret emit set_rwm buffers rwm ctl onEvictCb trace writer readers andb
       world lru mem].
  destruct (decide (0 < m)) as [Hpos|Hnpos].
  - rewrite bool_decide_true by lia.
    cbv [keysEvicted valsEvicted fst snd rwm ctl trace onEvictCb world lru mem
         writer readers].
    rewrite HD. cbv [rwm ctl trace onEvictCb callbacks free].
    by rewrite <-!app_assoc.
  - rewrite bool_decide_false by lia.
    cbv [keysEvicted valsEvicted fst snd rwm ctl trace onEvictCb world lru mem
         writer readers deliver].
    by rewrite <-!app_assoc.
Qed.

(** *** Reading the traces *)

Lemma delivered_callbacks (cbf : bool) kvs :
  delivered (callbacks cbf kvs) = if cbf then kvs else [].
Proof.
  destruct cbf; [|done]. unfold delivered, callbacks.
  induction kvs as [|[k v] kvs IH]; [done|]. cbn [fmap list_fmap omap list_omap fst snd].
  f_equal. exact IH.
Qed.

Lemma callbacks_inv (cbf : bool) kvs (e : Event K V) :
  e ∈ callbacks cbf kvs → ∃ k v, e = EvCallback k v free.
Proof.
  destruct cbf; unfold callbacks; [|by intros ?%elem_of_nil].
  intros ([k v] & -> & _)%list_elem_of_fmap. by eexists _, _.
Qed.

(** A trace of calls of the controller under the lock, one release with
    the buffers empty, and the callbacks: the protocol is followed. *)
Lemma protocol_followed (ops : list CtlOp) (cbf : bool) (gone : list (K * V)) :
  follows_protocol cbf gone
    ((EvLock :: ((λ op, EvCtl op (mkRWMutex true 0)) <$> ops)) ++
     EvUnlock [] [] :: callbacks cbf gone).
Proof.
  split_and!.
  - intros ks vs [Hin|Hin]%elem_of_app.
    + apply elem_of_cons in Hin as [?|([] & ? & _)%list_elem_of_fmap]; done.
    + apply elem_of_cons in Hin as [?|(? & ? & ?)%callbacks_inv]; by simplify_eq.
  - intros k v mx [Hin|Hin]%elem_of_app.
    + apply elem_of_cons in Hin as [?|([] & ? & _)%list_elem_of_fmap]; done.
    + apply elem_of_cons in Hin as [?|(? & ? & ?)%callbacks_inv]; by simplify_eq.
  - unfold delivered. rewrite omap_app. cbn [omap list_omap].
    fold (delivered (callbacks cbf gone)). rewrite delivered_callbacks.
    replace (omap _ (_ <$> ops)) with (@nil (K * V)); [done|].
    by induction ops.
Qed.

(** On an idle cache, the six mutating methods other than [Resize] return
    and follow the protocol. *)
Lemma mutators_follow_protocol c a k v :
  idle c a → Z.of_nat (length (a_kvs a)) < int_max →
  (∃ r c', golru.Add k v c = Some (r, c') ∧
     follows_protocol (onEvictCb c) (m_add_gone k v a) (events_since c c')) ∧
  (∃ r c', golru.Remove k c = Some (r, c') ∧
     follows_protocol (onEvictCb c) (m_remove_gone k a) (events_since c c')) ∧
  (∃ r c', golru.RemoveOldest c = Some (r, c') ∧
     follows_protocol (onEvictCb c) (m_evict_gone a) (events_since c c')) ∧
  (∃ r c', golru.ContainsOrAdd k v c = Some (r, c') ∧
     follows_protocol (onEvictCb c)
       (if bool_decide (k ∈ (a_kvs a).*1) then [] else m_add_gone k v a)
       (events_since c c')) ∧
  (∃ r c', golru.PeekOrAdd k v c = Some (r, c') ∧
     follows_protocol (onEvictCb c)
       (if bool_decide (k ∈ (a_kvs a).*1) then [] else m_add_gone k v a)
       (events_since c c')) ∧
  (∃ c' gone, golru.Purge c = Some (tt, c') ∧ gone ≡ₚ a_kvs a ∧
     follows_protocol (onEvictCb c) gone (events_since c c')).
Proof.
  intros Hi Hlt. split_and!.
  - destruct (Add_protocol c a k v Hi (or_intror Hlt)) as (c' & E & _ & _ & Hev).
    eexists _, c'. split; [exact E|]. rewrite Hev. apply (protocol_followed [OpAdd]).
  - destruct (Remove_protocol c a k Hi) as (c' & E & _ & _ & Hev).
    eexists _, c'. split; [exact E|]. rewrite Hev. apply (protocol_followed [OpRemove]).
  - destruct (RemoveOldest_protocol c a Hi) as (r & c' & E & _ & _ & Hev).
    eexists _, c'. split; [exact E|]. rewrite Hev. apply (protocol_followed [OpRemoveOldest]).
  - destruct (ContainsOrAdd_protocol c a k v Hi (or_intror Hlt)) as (c' & E & _ & _ & Hev).
    eexists _, c'. split; [exact E|]. rewrite Hev. case_bool_decide.
    + pose proof (protocol_followed [OpContains] (onEvictCb c) []) as HP.
      replace (callbacks _ []) with (@nil (Event K V)) in HP
        by (by destruct (onEvictCb c)).
      exact HP.
    + apply (protocol_followed [OpContains; OpAdd]).
  - destruct (PeekOrAdd_protocol c a k v Hi (or_intror Hlt)) as (c' & E & _ & _ & Hev).
    eexists _, c'. split; [exact E|]. rewrite Hev.
    destruct Hi as (_ & R & _). pose proof (rep_nodup _ _ R) as Hnd.
    case_bool_decide as Hk.
    + destruct (value_of_present _ _ Hnd Hk) as (? & v0 & ? & _ & -> & _).
      pose proof (protocol_followed [OpPeek] (onEvictCb c) []) as HP.
      replace (callbacks _ []) with (@nil (Event K V)) in HP
        by (by destruct (onEvictCb c)).
      exact HP.
    + rewrite value_of_notin by done. apply (protocol_followed [OpPeek; OpAdd]).
  - destruct (Purge_protocol c a Hi) as (c' & gone & E & Hp & _ & _ & Hev).
    exists c', gone. split_and!; [exact E|exact Hp|]. rewrite Hev. apply (protocol_followed [OpPurge]).
Qed.
End facts.
End golru_facts.

(** * The claims of the specification *)

Module claims.
Import dll_facts lru_facts model_facts golru_facts.

Section list_claims.
Context {K V : Type} `{!GoZero K, !GoZero V}.
Implicit Types (h : dll.Heap K V) (e l : loc) (es : list loc).

(** C3, as the code has it. In a list holding [es], front (most recent)
    first, [PrevEntry] on the entry at position [i] returns the entry at
    position [i - 1], the next newer one, and returns nil exactly when
    [i] is 0, that is for the newest entry, the one right after the
    sentinel. It leaves the heap as it was. *)
Theorem PrevEntry_steps_to_newer h l es i e :
  dll.is_list h l es → es !! i = Some e →
  ∃ r, dll.PrevEntry e h = Some (r, h) ∧
       r = match i with O => None | S j => es !! j end ∧
       (r = None ↔ i = 0%nat).
Proof.
  intros Hl Hi. pose proof (lookup_lt_Some _ _ _ Hi) as Hlt.
  rewrite <-(take_drop_middle es i e Hi) in Hl.
  rewrite (PrevEntry_at _ _ _ _ _ Hl). eexists. split; [done|].
  rewrite last_lookup, length_take. destruct i as [|j]; [done|].
  replace (Init.Nat.pred (S j `min` length es)) with j by lia.
  rewrite lookup_take_lt by lia. split; [done|].
  destruct (lookup_lt_is_Some_2 es j) as [x ->]; [lia|]. done.
Qed.


(** An entry [Remove] has detached is such an entry: [Remove] clears its
    [list] field, and a later [MoveToFront] leaves the list alone. *)
Lemma MoveToFront_after_Remove h l xs e ys :
  dll.is_list h l (xs ++ e :: ys) →
  ∃ v h', dll.Remove l e h = Some (v, h') ∧ dll.is_list h' l (xs ++ ys) ∧
          dll.MoveToFront l e h' = Some (tt, h').
Proof.
  intros Hl. destruct (Remove_spec _ _ _ _ _ Hl) as (v & h' & E & _ & Hl' & _ & Hlst & Hal).
  exists v, h'. split_and!; [done|done|].
  unfold dll.MoveToFront. run_step. by rewrite decide_True.
Qed.
End list_claims.

Section lru_claims.
Import simplelru.
Context {K : Type} `{Countable K} {V : Type} `{!GoZero K, !GoZero V} {W : Type}.
Implicit Types (s : St K V W) (h : dll.Heap K V) (kvs P : list (K * V))
  (k : K) (v : V) (a : Abs K V W) (w : W) (cb : option (K → V → W → W)).

(** C1, as the code has it. [Resize(n)], with [n] an [int] such that
    [Len() - n] does not overflow, sets the capacity to [max(n, 0)] and
    evicts the [Len() - max(n, 0)] oldest pairs when that is positive and
    none otherwise, oldest first, the callback being called once for each.
    What it returns is the new capacity [max(n, 0)], which is not the
    number of pairs evicted. *)
Theorem Resize_returns_new_capacity s a n :
  rep s a → n ≤ int_max → Z.of_nat (length (a_kvs a)) - n ≤ int_max →
  let m := Z.max n 0 in
  let d := Z.to_nat (Z.of_nat (length (a_kvs a)) - m) in
  let keep := (length (a_kvs a) - d)%nat in
  ∃ s', Resize n s = Some (m, s') ∧
        rep s' (mkAbs m (a_cb a) (take keep (a_kvs a))
                      (fire (a_cb a) (reverse (drop keep (a_kvs a))) (a_world a))).
Proof.
  intros R Hn Hd m d keep. destruct (Resize_rep s a n R) as (s' & E & R').
  pose proof (rep_bound _ _ R) as Hb. destruct a as [c cb kvs w].
  rewrite m_resize_in_range in E, R' by done.
  exists s'. split; [exact E|exact R'].
Qed.

(** C4. A cache built with a capacity [c > 0] (and below the largest
    [int], so that the length does not wrap around) and given any
    sequence [P] of calls of [Add], looked at after any number [i] of
    them: every call has returned, [Len()] is the number of keys
    [Keys()] lists, no key is listed twice, [Cap()] is [c], and
    [Len() ≤ Cap()]. *)
Theorem Adds_within_capacity c cb h w P (i : nat) :
  0 < c < int_max →
  ∃ s0 bs s n ks,
    new_cache c cb h w = Some s0 ∧ Adds (take i P) s0 = Some (bs, s) ∧
    Len s = Some (n, s) ∧ Cap s = Some (c, s) ∧ Keys s = Some (ks, s) ∧
    NoDup ks ∧ Z.of_nat (length ks) = n ∧ n ≤ c.
Proof.
  intros Hc. destruct (built_rep c cb h w (take i P) Hc) as (s0 & s & E0 & E & R & Hok).
  destruct (m_adds_cfg (take i P) (mkAbs c cb [] w)) as [Hcap _].
  destruct Hok as (Hnd & Hle & _). cbn [a_cap] in Hcap.
  eexists s0, _, s, _, _. split_and!; [done|done|by eapply Len_rep| | by eapply Keys_rep|..].
  - rewrite <-Hcap. by eapply Cap_rep.
  - unfold m_keys. by rewrite reverse_Permutation.
  - unfold m_keys. by rewrite length_reverse, length_fmap.
  - by rewrite Hcap in Hle.
Qed.


(** C6. Pairs [P] with distinct keys, no more of them than the capacity,
    added to an empty cache: [Keys()] lists the keys of [P] in the order
    they were added. A following [Get(k)] of one of them, the first
    among them, finds its value and leaves [Keys()] with [k] last and the
    other keys in the order they had. *)
Theorem Keys_recency c cb h w P :
  0 < c < int_max → NoDup P.*1 → Z.of_nat (length P) ≤ c →
  ∃ s0 bs s,
    new_cache c cb h w = Some s0 ∧ Adds P s0 = Some (bs, s) ∧
    Keys s = Some (P.*1, s) ∧
    ∀ P1 k v P2, P = P1 ++ (k, v) :: P2 →
      ∃ s', Get k s = Some ((v, true), s') ∧
            Keys s' = Some ((P1 ++ P2).*1 ++ [k], s').
Proof.
  intros Hc Hnd Hlen.
  destruct (built_rep c cb h w P Hc) as (s0 & s & E0 & E & R & _).
  replace c with (Z.of_nat (Z.to_nat c)) in E, R by lia.
  rewrite m_adds_fresh in E, R by (done || lia). cbn [fst snd] in *.
  replace (length P - Z.to_nat c)%nat with 0%nat in * by lia.
  rewrite drop_0 in R. rewrite Z2Nat.id in R by lia.
  eexists s0, _, s. split_and!; [done|done| |].
  - rewrite (Keys_rep _ _ R). unfold m_keys. cbn [a_kvs].
    by rewrite fmap_reverse, reverse_involutive.
  - intros P1 k v P2 ->.
    destruct (Get_rep _ _ k R) as (s' & EG & R').
    assert (NoDup (reverse P2 ++ (k, v) :: reverse P1).*1) as Hnd'.
    { rewrite fmap_app, fmap_cons, !fmap_reverse, !reverse_Permutation.
      rewrite fmap_app, fmap_cons in Hnd.
      rewrite <-Permutation_middle in Hnd |- *.
      by rewrite (Permutation_app_comm (P2.*1) (P1.*1)). }
    unfold m_get in *. cbn [a_kvs] in *.
    rewrite reverse_app, reverse_cons, <-app_assoc in EG, R'. cbn [app] in EG, R'.
    pose proof (NoDup_keys_mid _ _ _ _ Hnd') as (Hk2 & _ & _).
    rewrite (value_of_mid _ _ _ _ Hk2) in EG, R'. cbn [fst snd] in *.
    rewrite without_mid in R' by done.
    exists s'. split; [done|].
    rewrite (Keys_rep _ _ R'). unfold m_keys, with_kvs. cbn [a_kvs].
    rewrite fmap_cons, reverse_cons, fmap_app, reverse_app, !fmap_reverse,
      !reverse_involutive, fmap_app. done.
Qed.

(** C7. On a cache that holds the key [k], [Remove(k)] returns true and
    a second [Remove(k)] returns false and leaves the state it finds as
    it is: the controller, the heap with the list, and the world of the
    callback, which has therefore not been called. *)
Theorem Remove_twice s a k :
  rep s a → k ∈ (a_kvs a).*1 →
  ∃ s1, Remove k s = Some (true, s1) ∧ Remove k s1 = Some (false, s1).
Proof.
  intros R Hk. pose proof (rep_nodup _ _ R) as Hnd.
  destruct (value_of_present _ _ Hnd Hk) as (kv1 & v & kv2 & Hkvs & Hv & Hwo & Hnk).
  destruct (Remove_rep _ _ k R) as (s1 & E1 & R1).
  unfold m_remove in *. rewrite Hv in *. cbn [fst snd] in *.
  exists s1. split; [done|].
  destruct R1 as (_ & _ & _ & es & Hwf). cbn [a_kvs] in Hwf.
  rewrite Hwo in Hwf. pose proof (wf_items_None _ _ _ _ Hwf Hnk) as Hnone.
  unfold Remove, mbind, SE_bind, rd_lru. by rewrite Hnone.
Qed.

(** C8. On a cache that holds the key [k], [Add(k, v2)] returns false,
    leaves the controller's fields, the map with the entry of [k] among
    them, and the callback's world as they are, leaves [Len()] what it
    was, leaves [Keys()] with [k] last and the other keys in the order
    they had, and a following [Get(k)] returns [v2]. *)
Theorem Add_present_updates_in_place s a k v2 :
  rep s a → k ∈ (a_kvs a).*1 →
  ∃ n ks s1 s2,
    Len s = Some (n, s) ∧ Keys s = Some (ks, s) ∧
    Add k v2 s = Some (false, s1) ∧
    lru s1 = lru s ∧ world s1 = world s ∧
    Len s1 = Some (n, s1) ∧
    Keys s1 = Some (filter (λ x, x ≠ k) ks ++ [k], s1) ∧
    Get k s1 = Some ((v2, true), s2).
Proof.
  intros R Hk. pose proof (rep_nodup _ _ R) as Hnd.
  destruct (value_of_present _ _ Hnd Hk) as (kv1 & v & kv2 & Hkvs & Hv & Hwo & Hnk).
  destruct (rep_items_Some _ _ _ R Hk) as [e He].
  destruct (Add_rep _ _ k v2 R) as (s1 & E1 & R1); [by left|].
  unfold m_add in *. rewrite decide_True in E1, R1 by done. cbn [fst snd] in *.
  destruct (Get_rep _ _ k R1) as (s2 & E2 & _).
  unfold m_get, with_kvs in E2. cbn [a_kvs value_of] in E2.
  rewrite decide_True in E2 by done. cbn [fst snd] in E2.
  destruct (Add_present_frame _ _ _ _ _ _ He E1) as [Hlru Hw].
  eexists _, _, s1, s2.
  split_and!; [by eapply Len_rep|by eapply Keys_rep|done|done|done| | |done].
  - rewrite (Len_rep _ _ R1). unfold with_kvs. cbn [a_kvs length].
    rewrite Hwo, Hkvs, !length_app. cbn [length]. do 3 f_equal. lia.
  - rewrite (Keys_rep _ _ R1). unfold m_keys, with_kvs. cbn [a_kvs].
    by rewrite fmap_cons, reverse_cons, without_keys, filter_reverse.
Qed.
End lru_claims.

Section wrapper_claims.
Import golru.
Context {K : Type} `{Countable K} {V : Type} `{!GoZero K, !GoZero V}.
Implicit Types (c : Cache K V) (a : simplelru.Abs K V (Buffers K V)) (k : K).

(** C2, at [Resize]. On an idle cache with a callback, [Resize(n)] (with
    [n] such that [Len() - n] does not overflow) returns [max(n, 0)], what
    the controller returns, and takes it for the number of evictions. When
    it is positive the protocol is followed: the pairs [gone] that the
    controller has evicted, oldest first, are taken out of the buffers
    before [Unlock] and replayed to the callback after it. When it is 0
    and pairs have been evicted, they are in the buffers at the moment
    the lock is released and the callback is not called. *)
Theorem Resize_flushes_only_for_positive_capacity c a n :
  idle c a → onEvictCb c = true →
  n ≤ int_max → Z.of_nat (length (simplelru.a_kvs a)) - n ≤ int_max →
  let m := Z.max n 0 in
  let kvs := simplelru.a_kvs a in
  let keep := (length kvs - Z.to_nat (Z.of_nat (length kvs) - m))%nat in
  let gone := reverse (drop keep kvs) in
  ∃ c', Resize n c = Some (m, c') ∧
    events_since c c' =
      [EvLock; EvCtl OpResize (mkRWMutex true 0)] ++
      (if decide (0 < m) then EvUnlock [] [] :: callbacks true gone
       else [EvUnlock gone.*1 gone.*2]) ∧
    (0 < m → follows_protocol true gone (events_since c c')) ∧
    (m = 0 → gone ≠ [] →
       ¬ unlocks_clean (events_since c c') ∧ delivered (events_since c c') = []).
Proof.
  intros Hi Hon Hn Hd m kvs keep gone.
  destruct (Resize_run c a n Hi Hon Hn Hd) as (c' & E & Hev).
  fold m kvs keep gone in E, Hev.
  exists c'. split_and!; [exact E|exact Hev|..]; rewrite Hev.
  - intros Hpos. rewrite decide_True by done.
    apply (protocol_followed [OpResize] true gone).
  - intros Hz Hne. rewrite decide_False by lia. split; [|done].
    intros Hclean. destruct (Hclean gone.*1 gone.*2) as [Hks _]; [set_solver|].
    by apply fmap_nil_inv in Hks.
Qed.

(** C9. On a cache whose mutex is free and whose controller is well
    formed, every reader returns, and the trace tells in which state of
    the mutex it has entered the controller: [Contains] and [Peek] with
    the one reader they have registered, [Get] with the writer, and
    [GetOldest], [Keys], [Vals] and [Len] after their [RUnlock], with the
    mutex free. *)
Theorem readers_and_the_lock c a k :
  rwm c = free → simplelru.rep (ctl c) a →
  let events {A} (m : golru.M K V A) := (λ r, events_since c r.2) <$> m c in
  events (Contains k) =
    Some [EvRLock; EvCtl OpContains (mkRWMutex false 1); EvRUnlock] ∧
  events (Peek k) =
    Some [EvRLock; EvCtl OpPeek (mkRWMutex false 1); EvRUnlock] ∧
  events (Get k) =
    Some [EvLock; EvCtl OpGet (mkRWMutex true 0);
          EvUnlock (keysEvicted (buffers c)) (valsEvicted (buffers c))] ∧
  events GetOldest = Some [EvRLock; EvRUnlock; EvCtl OpGetOldest free] ∧
  events Keys = Some [EvRLock; EvRUnlock; EvCtl OpKeys free] ∧
  events Vals = Some [EvRLock; EvRUnlock; EvCtl OpVals free] ∧
  events Len = Some [EvRLock; EvRUnlock; EvCtl OpLen free].
Proof.
  intros Hm R events. subst events.
  destruct c as [mx s cbf t]. simpl in Hm, R. subst mx.
  destruct (Get_rep _ _ k R) as (sg & EG & RG).
  assert (simplelru.world sg = simplelru.world s) as HwG.
  { destruct RG as (_ & _ & -> & _), R as (_ & _ & -> & _). apply m_get_world. }
  pose proof (Contains_rep _ _ k R) as EC. pose proof (Peek_rep _ _ k R) as EP.
  pose proof (GetOldest_rep _ _ R) as EO. pose proof (Keys_rep _ _ R) as EK.
  pose proof (Vals_rep _ _ R) as EV. pose proof (Len_rep _ _ R) as EL.
  unfold Contains, Peek, Get, GetOldest, Keys, Vals, Len, Lock, Unlock, RLock, RUnlock,
    call, mbind, SE_bind, mret, SE_ret, free, emit, set_rwm, buffers.
  cbn [rwm ctl onEvictCb trace writer readers orb negb Nat.eqb].
  rewrite EC, EP, EG, EO, EK, EV, EL.
  cbn [rwm ctl onEvictCb trace writer readers fmap option_fmap option_map snd].
  rewrite HwG.
  split_and!; f_equal; apply events_since_app; cbn [trace]; by rewrite <-?app_assoc.
Qed.
End wrapper_claims.

(** The list of [Examples.h_two] is well formed. *)
Lemma h_two_is_list : dll.is_list Examples.h_two 1%positive [3%positive; 2%positive].
Proof.
  split.
  - repeat (apply NoDup_cons; split; [set_solver|]). apply NoDup_nil_2.
  - simpl. unfold dll.link. split_and!; by vm_compute.
  - intros e He. apply list_elem_of_In in He. simpl in He.
    destruct He as [<-|[<-|[]]]; by vm_compute.
  - by vm_compute.
  - by vm_compute.
Qed.

(** C3 as stated fails on the list of two entries: the oldest entry, at
    address 2 and last in the list, has a previous entry, the newest one at
    address 3, where the claim wants nil. *)
Lemma PrevEntry_oldest_not_nil :
  dll.is_list Examples.h_two 1%positive [3%positive; 2%positive] ∧
  last [3%positive; 2%positive] = Some 2%positive ∧
  dll.PrevEntry 2%positive Examples.h_two = Some (Some 3%positive, Examples.h_two) ∧
  ¬ dll.previous_is_next_older Examples.h_two [3%positive; 2%positive].
Proof.
  split_and!; [apply h_two_is_list|done|by vm_compute|].
  intros Hc. specialize (Hc 1%nat 2%positive eq_refl). by vm_compute in Hc.
Qed.

(** On that list, the entry at address 2, second from the front, steps to
    the one at address 3. *)
Lemma PrevEntry_steps_to_newer_witness :
  ∃ r, dll.PrevEntry 2%positive Examples.h_two = Some (r, Examples.h_two) ∧
       r = Some 3%positive ∧ (r = None ↔ 1%nat = 0%nat).
Proof.
  exact (PrevEntry_steps_to_newer Examples.h_two 1%positive [3%positive; 2%positive]
           1%nat 2%positive h_two_is_list eq_refl).
Defined.

(** The cache of [Examples.three] holds its three pairs, newest first. *)
Lemma three_rep :
  ∃ s, Examples.three = Some s ∧
       simplelru.rep s (simplelru.mkAbs 3 Examples.log [(3, 30); (2, 20); (1, 10)] []).
Proof.
  destruct (built_rep 3 Examples.log Examples.heap0 [] Examples.pairs3)
    as (s0 & s & E0 & E & R & _); [compute_done|].
  exists s. split; [|exact R].
  unfold Examples.three, Examples.state_after. by rewrite E0, E.
Qed.

(** [Resize(1)] on the cache of three pairs evicts the pairs of the keys 1
    and 2, in this order, and returns 1. *)
Lemma Resize_returns_new_capacity_witness :
  ∃ s s', Examples.three = Some s ∧ simplelru.Resize 1 s = Some (1, s') ∧
    simplelru.rep s' (simplelru.mkAbs 1 Examples.log [(3, 30)] [(1, 10); (2, 20)]).
Proof.
  destruct three_rep as (s & E & R).
  destruct (Resize_returns_new_capacity s _ 1 R) as (s' & E' & R');
    [compute_done|compute_done|].
  exists s, s'. split_and!; [exact E|exact E'|exact R'].
Defined.

(** At the other end of [int], [Len() - n] overflows: [Resize] of the
    least [int] takes the difference for a negative number and evicts
    nothing, and the cache is left with three pairs and the capacity 0. *)
Lemma Resize_int_min_evicts_nothing :
  Examples.result_of (simplelru.Resize int_min) Examples.three = Some 0 ∧
  Examples.result_of simplelru.Len
    (Examples.state_after (simplelru.Resize int_min) Examples.three) = Some 3 ∧
  simplelru.world <$> Examples.state_after (simplelru.Resize int_min) Examples.three
    = Some [].
Proof. split_and!; by vm_compute. Qed.

(** Three pairs added to a cache of capacity 2. *)
Lemma Adds_within_capacity_witness :
  ∃ s0 bs s n ks,
    simplelru.new_cache 2 Examples.log Examples.heap0 [] = Some s0 ∧
    simplelru.Adds (take 3 Examples.pairs3) s0 = Some (bs, s) ∧
    simplelru.Len s = Some (n, s) ∧ simplelru.Cap s = Some (2, s) ∧
    simplelru.Keys s = Some (ks, s) ∧
    NoDup ks ∧ Z.of_nat (length ks) = n ∧ n ≤ 2.
Proof.
  apply (Adds_within_capacity 2 Examples.log Examples.heap0 [] Examples.pairs3 3).
  compute_done.
Defined.


(** Three pairs added to a cache of capacity 3, then [Get(1)]. *)
Lemma Keys_recency_witness :
  ∃ s0 bs s,
    simplelru.new_cache 3 Examples.log Examples.heap0 [] = Some s0 ∧
    simplelru.Adds Examples.pairs3 s0 = Some (bs, s) ∧
    simplelru.Keys s = Some ([1; 2; 3], s) ∧
    ∃ s', simplelru.Get 1 s = Some ((10, true), s') ∧
          simplelru.Keys s' = Some ([2; 3; 1], s').
Proof.
  destruct (Keys_recency 3 Examples.log Examples.heap0 [] Examples.pairs3)
    as (s0 & bs & s & E0 & E & EK & HG); [compute_done|compute_done|compute_done|].
  exists s0, bs, s. split_and!; [exact E0|exact E|exact EK|].
  exact (HG [] 1 10 [(2, 20); (3, 30)] eq_refl).
Defined.

(** [Remove(2)] twice on the cache of three pairs. *)
Lemma Remove_twice_witness :
  ∃ s s1, Examples.three = Some s ∧
    simplelru.Remove 2 s = Some (true, s1) ∧ simplelru.Remove 2 s1 = Some (false, s1).
Proof.
  destruct three_rep as (s & E & R).
  destruct (Remove_twice s _ 2 R) as (s1 & E1 & E2); [compute_done|].
  exists s, s1. split_and!; [exact E|exact E1|exact E2].
Defined.

(** [Add(1, 11)] on the cache of three pairs, which holds the key 1. *)
Lemma Add_present_updates_in_place_witness :
  ∃ s s1 s2, Examples.three = Some s ∧
    simplelru.Len s = Some (3, s) ∧ simplelru.Keys s = Some ([1; 2; 3], s) ∧
    simplelru.Add 1 11 s = Some (false, s1) ∧
    simplelru.lru s1 = simplelru.lru s ∧ simplelru.world s1 = simplelru.world s ∧
    simplelru.Len s1 = Some (3, s1) ∧
    simplelru.Keys s1 = Some ([2; 3; 1], s1) ∧
    simplelru.Get 1 s1 = Some ((11, true), s2).
Proof.
  destruct three_rep as (s & E & R).
  destruct (Add_present_updates_in_place s _ 1 11 R)
    as (n & ks & s1 & s2 & EL & EK & EA & Hl & Hw & EL1 & EK1 & EG); [compute_done|].
  exists s, s1, s2.
  rewrite (Len_rep _ _ R) in EL. rewrite (Keys_rep _ _ R) in EK.
  injection EL as <-. injection EK as <-.
  split_and!; [exact E|exact (Len_rep _ _ R)|exact (Keys_rep _ _ R)
              |exact EA|exact Hl|exact Hw|exact EL1|exact EK1|exact EG].
Defined.

(** ** The wrapper, on a cache of capacity 2 that holds two pairs *)

(** The controller of [Examples.full_wrapper] is the one [NewLru] and two
    calls of [Add] build. *)
Lemma full_wrapper_built :
  (λ c, (golru.rwm c, golru.ctl c, golru.onEvictCb c)) <$> Examples.full_wrapper =
  (λ s, (golru.free, s, true)) <$> Examples.full_ctl.
Proof. by vm_compute. Qed.

(** [Examples.full_wrapper] is idle and holds its two pairs. *)
Lemma full_wrapper_idle :
  ∃ c, Examples.full_wrapper = Some c ∧ golru.onEvictCb c = true ∧
       golru.idle c (simplelru.mkAbs 2 (Some golru.onEvict) [(2, 20); (1, 10)]
                                     (golru.mkBuffers [] [])).
Proof.
  destruct (built_rep 2 (Some golru.onEvict) Examples.heap0 (golru.mkBuffers [] [])
              [(1, 10); (2, 20)]) as (s0 & s & E0 & E & R & _); [compute_done|].
  pose proof full_wrapper_built as HB.
  unfold Examples.full_ctl, Examples.state_after in HB. rewrite E0, E in HB.
  destruct Examples.full_wrapper as [c|]; [|done].
  injection HB as Hm Hs Hcb. exists c. split_and!; [done|done|].
  split_and!; [done| |by rewrite Hcb|done]. rewrite Hs. exact R.
Qed.

(** [Resize(0)] on that cache: both pairs are in the buffers when the lock
    is released, and the callback is not called. *)
Lemma Resize_flushes_only_for_positive_capacity_witness :
  ∃ c c', Examples.full_wrapper = Some c ∧ golru.Resize 0 c = Some (0, c') ∧
    golru.events_since c c' =
      [golru.EvLock; golru.EvCtl golru.OpResize (golru.mkRWMutex true 0);
       golru.EvUnlock [1; 2] [10; 20]] ∧
    ¬ golru.unlocks_clean (golru.events_since c c') ∧
    golru.delivered (golru.events_since c c') = [].
Proof.
  destruct full_wrapper_idle as (c & E & Hcb & Hi).
  destruct (Resize_flushes_only_for_positive_capacity c _ 0 Hi Hcb)
    as (c' & ER & Hev & _ & Hbad); [compute_done|compute_done|].
  exists c, c'. split_and!; [exact E|exact ER|exact Hev|..];
    apply (Hbad eq_refl); discriminate.
Defined.

(** After that [Resize(0)], the next [Add] evicts the pair it is given
    and hands the callback the oldest pair left in the buffers. *)
Lemma Add_after_Resize_zero_delivers_stale_pair :
  Examples.returned (golru.Resize 0) Examples.full_wrapper = Some 0 ∧
  Examples.events_of (golru.Add 3 30)
      (Examples.cache_after (golru.Resize 0) Examples.full_wrapper) =
    Some [golru.EvLock; golru.EvCtl golru.OpAdd (golru.mkRWMutex true 0);
          golru.EvUnlock [] []; golru.EvCallback 1 10 (golru.mkRWMutex false 0)].
Proof. split_and!; by vm_compute. Qed.

(** The readers on that cache, with the key 1. *)
Lemma readers_and_the_lock_witness :
  ∃ c, Examples.full_wrapper = Some c ∧
    let events {A} (m : golru.M Z Z A) := (λ r, golru.events_since c r.2) <$> m c in
    events (golru.Contains 1) =
      Some [golru.EvRLock; golru.EvCtl golru.OpContains (golru.mkRWMutex false 1);
            golru.EvRUnlock] ∧
    events (golru.Peek 1) =
      Some [golru.EvRLock; golru.EvCtl golru.OpPeek (golru.mkRWMutex false 1);
            golru.EvRUnlock] ∧
    events (golru.Get 1) =
      Some [golru.EvLock; golru.EvCtl golru.OpGet (golru.mkRWMutex true 0);
            golru.EvUnlock (golru.keysEvicted (golru.buffers c))
                           (golru.valsEvicted (golru.buffers c))] ∧
    events golru.GetOldest =
      Some [golru.EvRLock; golru.EvRUnlock; golru.EvCtl golru.OpGetOldest golru.free] ∧
    events golru.Keys =
      Some [golru.EvRLock; golru.EvRUnlock; golru.EvCtl golru.OpKeys golru.free] ∧
    events golru.Vals =
      Some [golru.EvRLock; golru.EvRUnlock; golru.EvCtl golru.OpVals golru.free] ∧
    events golru.Len =
      Some [golru.EvRLock; golru.EvRUnlock; golru.EvCtl golru.OpLen golru.free].
Proof.
  destruct full_wrapper_idle as (c & E & _ & (Hm & R & _)).
  exists c. split; [exact E|]. exact (readers_and_the_lock c _ 1 Hm R).
Defined.

End claims.

(** * More of the code

    ** The list *)

Module coverage.
Import dll_facts lru_facts model_facts golru_facts.

Section list_coverage.
Import dll.
Context {K V : Type} `{!GoZero K, !GoZero V}.
Implicit Types (h : Heap K V) (e l : loc) (es xs ys : list loc) (k : K) (v : V).

(** [PushFrontExpirable] on a well-formed list, with the expiry time among
    what the new entry holds. *)
Lemma PushFrontExpirable_spec h l es k v (t : Z) :
  is_list h l es → Z.of_nat (length es) < int_max →
  ∃ e h', PushFrontExpirable l k v t h = Some (e, h') ∧
          is_list h' l (e :: es) ∧ ¬ alloc h e ∧
          fld ekv h' e = Some (k, v) ∧ fld ExpiresAt h' e = Some t ∧
          (∀ x, x ≠ e → fld ekv h' x = fld ekv h x).
Proof.
  intros Hl Hlt. pose proof (is_list_front _ _ _ Hl) as Hfront.
  pose proof (headd_in es l) as Hfin. set (f := headd es l) in *.
  set (e := fresh (dom (entries h))).
  pose proof (fresh_not_alloc h) as Hfresh. fold e in Hfresh.
  assert (∀ x, x ∈ l :: es → x ≠ e) as Hne.
  { intros x Hx ->. apply Hfresh. by eapply is_list_alloc. }
  assert (l ≠ e) as Hle by (apply Hne; set_solver).
  assert (f ≠ e) as Hfe by (apply Hne; apply elem_of_app in Hfin; set_solver).
  destruct Hl as [Hnd Hseg Hown Hlen Hbound].
  assert (alloc h l) as Hal by (eapply seg_alloc; [done|set_solver]).
  assert (alloc h f) as Haf.
  { eapply seg_alloc; [done|]. apply elem_of_app in Hfin. set_solver. }
  eexists e, _. split; [|split_and!].
  - unfold PushFrontExpirable, lazyInit, insertValue, insert.
    do 2 run_step. rewrite decide_False by done. do 2 run_step. fold e.
    repeat run_step.
  - split.
    + apply NoDup_cons in Hnd as [Hl' Hnd]. rewrite !NoDup_cons, not_elem_of_cons.
      split_and!; [done|done| |done]. intros Hin. apply (Hne e); set_solver.
    + simpl. split; [split; fld_simpl; done|].
      destruct es as [|f' es']; simpl in *.
      * subst f. unfold headd; simpl. split; fld_simpl; done.
      * subst f. unfold headd in *; simpl in *. destruct Hseg as [_ Hseg].
        pose proof Hnd as Hnd2.
        apply NoDup_cons in Hnd2 as [Hl' Hnd2]. apply NoDup_cons in Hnd2 as [Hf' Hnd2].
        split; [split; fld_simpl; done|].
        eapply seg_frame; [| |done].
        -- intros x Hx. assert (x ≠ e) by (apply Hne; set_solver).
           assert (x ≠ l) by set_solver. fld_simpl. done.
        -- intros x Hx. assert (x ≠ e) by (apply Hne; set_solver).
           assert (x ≠ f') by set_solver. fld_simpl. done.
    + intros x [->|Hx]%elem_of_cons; [by fld_simpl|].
      assert (x ≠ e) by (apply Hne; set_solver). fld_simpl. by apply Hown.
    + simpl. rewrite lookup_insert_eq. f_equal. cbn [length].
      rewrite wrap64_id; [lia|]. unfold int_range, int_min, int_max in *. lia.
    + cbn [length]. lia.
  - done.
  - by fld_simpl.
  - by fld_simpl.
  - intros x Hx. by fld_simpl.
Qed.

(** An entry that names no list has no previous entry. *)
Lemma PrevEntry_detached h e :
  alloc h e → fld list_ h e = Some None → PrevEntry e h = Some (None, h).
Proof.
  intros Ha Hl. destruct (alloc_fld prev h e Ha) as [p Hp].
  unfold PrevEntry. by do 2 run_step.
Qed.

(** X1. [PushFrontExpirable(k, v, t)] on a list of fewer than [2^63 - 1]
    entries allocates a fresh entry, makes it the front of the list ahead
    of the entries that were there, in their order, stores [k], [v] and [t]
    in it, and leaves the pairs of the other entries alone; [Length()] has
    grown by one and the new entry has no previous entry. [PushFront(k, v)]
    is the same call with the zero time. *)
Theorem PushFrontExpirable_at_front h l es k v (t : Z) :
  is_list h l es → Z.of_nat (length es) < int_max →
  PushFront l k v h = PushFrontExpirable l k v 0 h ∧
  ∃ e h', PushFrontExpirable l k v t h = Some (e, h') ∧
    ¬ alloc h e ∧ is_list h' l (e :: es) ∧
    fld ekv h' e = Some (k, v) ∧ fld ExpiresAt h' e = Some t ∧
    (∀ x, x ∈ es → fld ekv h' x = fld ekv h x) ∧
    Length l h' = Some (Z.of_nat (length es) + 1, h') ∧
    PrevEntry e h' = Some (None, h').
Proof.
  intros Hl Hlt. split; [done|].
  destruct (PushFrontExpirable_spec h l es k v t Hl Hlt)
    as (e & h' & E & Hl' & Hfresh & Hkv & Ht & Hf).
  exists e, h'. split_and!; try done.
  - intros x Hx. apply Hf. intros ->. apply Hfresh.
    eapply is_list_alloc; [done|set_solver].
  - rewrite (Length_spec _ _ _ Hl'). cbn [length]. do 2 f_equal. lia.
  - apply (PrevEntry_at h' l [] e es Hl').
Qed.

(** X2. The zero value of [LruList] is ready to use: the first
    [PushFront] on a list allocated by [new] and never initialised
    initialises it, and gives the list of one entry that the same call
    gives on a list made by [NewList]. Before that call, [Length()] is 0
    and [Back()] is nil. *)
Theorem zero_list_ready h k v :
  (l ← alloc_list; n ← Length l; b ← Back l; mret (n, b)) h =
    (l ← alloc_list; mret (0, None)) h ∧
  (l ← alloc_list; e ← PushFront l k v; mret (l, e)) h =
    (l ← NewList; e ← PushFront l k v; mret (l, e)) h ∧
  ∃ l e h', (l ← alloc_list; e ← PushFront l k v; mret (l, e)) h = Some ((l, e), h') ∧
    is_list h' l [e] ∧ fld ekv h' e = Some (k, v).
Proof.
  destruct (NewList_spec h) as (l & h1 & EN & Hl1 & _ & _).
  destruct (PushFrontExpirable_spec h1 l [] k v 0 Hl1)
    as (e & h2 & EP & Hl2 & _ & Hkv & _ & _).
  { unfold int_max. simpl. lia. }
  set (l0 := fresh (dom (entries h))).
  set (h0 := upd_len l0 0 (place l0 (mkEntry None None None zero zero 0 0) h)).
  assert (alloc_list h = Some (l0, h0)) as EA by done.
  assert (Init l0 h0 = Some (l, h1)) as EI.
  { revert EN. unfold NewList, mbind, SE_bind. by rewrite EA. }
  assert (l = l0) as ->.
  { revert EI. unfold Init, mbind, SE_bind, mret, SE_ret.
    repeat case_match; congruence. }
  assert (lazyInit l0 h0 = Some (tt, h1)) as EL0.
  { unfold lazyInit. eapply eq_trans.
    { apply SE_bind_run. apply rd_run. unfold h0. by fld_simpl. }
    cbv beta. rewrite decide_True by done.
    eapply eq_trans; [apply SE_bind_run; exact EI|]. done. }
  assert (lazyInit l0 h1 = Some (tt, h1)) as EL1.
  { unfold lazyInit. eapply eq_trans.
    { apply SE_bind_run. apply rd_run. apply (is_list_front _ _ _ Hl1). }
    cbv beta. by rewrite decide_False. }
  assert (insertValue l0 k v 0 l0 h1 = Some (e, h2)) as EIV.
  { rewrite <-EP. unfold PushFrontExpirable. symmetry.
    eapply eq_trans; [apply SE_bind_run; exact EL1|]. done. }
  assert (PushFront l0 k v h0 = Some (e, h2)) as EP0.
  { unfold PushFront. eapply eq_trans; [apply SE_bind_run; exact EL0|]. done. }
  assert ((l ← alloc_list; e ← PushFront l k v; mret (l, e)) h = Some ((l0, e), h2)) as E0.
  { eapply eq_trans; [apply SE_bind_run; exact EA|]. cbv beta.
    eapply eq_trans; [apply SE_bind_run; exact EP0|]. done. }
  split_and!.
  - assert (lens h0 !! l0 = Some 0) as Hlen by (unfold h0; simpl; by rewrite lookup_insert_eq).
    assert (Back l0 h0 = Some (None, h0)) as EB.
    { unfold Back. eapply eq_trans; [apply SE_bind_run; by apply rd_len_run|]. done. }
    eapply eq_trans; [apply SE_bind_run; exact EA|]. cbv beta.
    eapply eq_trans; [apply SE_bind_run; by apply rd_len_run|]. cbv beta.
    eapply eq_trans; [apply SE_bind_run; exact EB|]. cbv beta.
    symmetry. eapply eq_trans; [apply SE_bind_run; exact EA|]. done.
  - rewrite E0. symmetry.
    eapply eq_trans; [apply SE_bind_run; exact EN|]. cbv beta.
    eapply eq_trans; [apply SE_bind_run; exact EP|]. done.
  - by exists l0, e, h2.
Qed.
(** X3. [Remove] of an entry of the list returns its value and takes it
    out: the other entries stay in their order, [Length()] drops by one,
    every entry, the removed one too, keeps its key and value, and the
    removed entry names no list any more, so that it has no previous
    entry. *)
Theorem Remove_takes_out h l xs e ys :
  is_list h l (xs ++ e :: ys) →
  ∃ v h', Remove l e h = Some (v, h') ∧ fld Val h e = Some v ∧
    is_list h' l (xs ++ ys) ∧
    Length l h' = Some (Z.of_nat (length (xs ++ e :: ys)) - 1, h') ∧
    (∀ x, fld ekv h' x = fld ekv h x) ∧
    fld list_ h' e = Some None ∧
    PrevEntry e h' = Some (None, h').
Proof.
  intros Hl. destruct (Remove_spec _ _ _ _ _ Hl) as (v & h' & E & Hv & Hl' & Hf & Hlst & Hal).
  exists v, h'. split_and!; try done.
  - rewrite (Length_spec _ _ _ Hl'). do 2 f_equal.
    rewrite !length_app. cbn [length]. lia.
  - apply PrevEntry_detached; [|done]. apply Hal.
    eapply is_list_alloc; [done|]. set_solver.
Qed.

(** X4. [MoveToFront] of an entry of the list makes it the front and
    leaves the others in their order; the length and every key and value
    are what they were. On the entry that is the front already the heap is
    not touched. *)
Theorem MoveToFront_reorders h l xs e ys :
  is_list h l (xs ++ e :: ys) →
  ∃ h', MoveToFront l e h = Some (tt, h') ∧
    is_list h' l (e :: xs ++ ys) ∧
    Length l h' = Some (Z.of_nat (length (xs ++ e :: ys)), h') ∧
    (∀ x, fld ekv h' x = fld ekv h x) ∧
    PrevEntry e h' = Some (None, h') ∧
    Back l h' = Some (last (e :: xs ++ ys), h') ∧
    (xs = [] → h' = h).
Proof.
  intros Hl. destruct (MoveToFront_spec _ _ _ _ _ Hl) as (h' & E & Hl' & Hf & _).
  exists h'. split_and!; try done.
  - rewrite (Length_spec _ _ _ Hl'). do 2 f_equal.
    cbn [length]. rewrite !length_app. cbn [length]. lia.
  - apply (PrevEntry_at h' l [] e (xs ++ ys) Hl').
  - apply (Back_spec _ _ _ Hl').
  - intros ->. pose proof (is_list_front _ _ _ Hl) as Hfront.
    destruct (is_list_at _ _ _ _ _ Hl) as (_ & _ & Ho).
    assert (MoveToFront l e h = Some (tt, h)) as E'.
    { unfold MoveToFront. run_step. rewrite decide_False by naive_solver.
      run_step. unfold headd; simpl. by rewrite decide_True. }
    congruence.
Qed.

(** X5. [Init] on a list that holds entries empties it in one step:
    [Length()] is 0 and [Back()] is nil afterwards. It does not visit the
    entries: each keeps its key and value, and still names the list as
    its own. *)
Theorem Init_empties h l es :
  is_list h l es →
  ∃ h', Init l h = Some (l, h') ∧ is_list h' l [] ∧
    Length l h' = Some (0, h') ∧ Back l h' = Some (None, h') ∧
    (∀ x, fld ekv h' x = fld ekv h x) ∧
    (∀ x, x ∈ es → fld list_ h' x = Some (Some l)).
Proof.
  intros Hl. destruct (Init_spec _ _ _ Hl) as (h' & E & Hl' & Hf & Hal).
  exists h'. split_and!; try done.
  - apply (Length_spec _ _ _ Hl').
  - apply (Back_spec _ _ _ Hl').
  - intros x Hx.
    assert (alloc h l) as Ha by (eapply is_list_alloc; [done|set_solver]).
    pose proof (il_len _ _ _ Hl) as Hlen.
    assert (Init l h = Some (l, upd_len l 0 (upd (set_prev_e (Some l)) l
              (upd (set_next_e (Some l)) l h)))) as E'.
    { unfold Init. repeat run_step. }
    rewrite E in E'. injection E' as ->. fld_simpl. by apply (il_owner _ _ _ Hl).
Qed.
End list_coverage.
(** ** The controller *)

Section lru_coverage.
Import simplelru.
Context {K : Type} `{Countable K} {V : Type} `{!GoZero K, !GoZero V} {W : Type}.
Implicit Types (s : St K V W) (h : dll.Heap K V) (kvs : list (K * V))
  (k : K) (v : V) (a : Abs K V W) (w : W) (cb : option (K → V → W → W)).

(** What the methods that list and count return. *)
Lemma rep_sees s a :
  rep s a →
  Keys s = Some (reverse (a_kvs a).*1, s) ∧ Vals s = Some (reverse (a_kvs a).*2, s) ∧
  Len s = Some (Z.of_nat (length (a_kvs a)), s) ∧ Cap s = Some (a_cap a, s).
Proof.
  intros R. split_and!;
    [apply (Keys_rep _ _ R)|apply (Vals_rep _ _ R)|apply (Len_rep _ _ R)|apply (Cap_rep _ _ R)].
Qed.

Lemma rep_items_None s a k :
  rep s a → k ∉ (a_kvs a).*1 → items (lru s) !! k = None.
Proof. intros (_ & _ & _ & es & Hwf). by eapply wf_items_None. Qed.

Lemma value_of_in kvs k v :
  NoDup kvs.*1 → (k, v) ∈ kvs → value_of k kvs = Some v.
Proof.
  intros Hnd Hin.
  assert (k ∈ kvs.*1) as Hk by (apply list_elem_of_fmap; by exists (k, v)).
  destruct (value_of_present _ _ Hnd Hk) as (kv1 & v0 & kv2 & -> & Hv & _ & Hnk).
  rewrite Hv. f_equal.
  apply elem_of_app in Hin as [Hin|[Hin|Hin]%elem_of_cons]; [|congruence|].
  - exfalso. apply Hnk. rewrite fmap_app. apply elem_of_app. left.
    apply list_elem_of_fmap. by exists (k, v).
  - exfalso. apply Hnk. rewrite fmap_app. apply elem_of_app. right.
    apply list_elem_of_fmap. by exists (k, v).
Qed.

(** X6. [NewLru] either refuses a size that is not positive, with its
    error and without allocating, or returns an empty cache of that
    capacity: nothing is listed, nothing is found, there is no oldest
    entry. *)
Theorem NewLru_gives_empty_cache (size : Z) cb h w :
  match new_cache size cb h w with
  | None =>
      size ≤ 0 ∧ NewLru size cb h = Some (inr "size must be greater than 0"%string, h)
  | Some s =>
      0 < size ∧ (∃ c, NewLru size cb h = Some (inl c, mem s) ∧ lru s = c) ∧
      world s = w ∧
      Len s = Some (0, s) ∧ Cap s = Some (size, s) ∧
      Keys s = Some ([], s) ∧ Vals s = Some ([], s) ∧
      GetOldest s = Some ((zero, zero, false), s) ∧
      RemoveOldest s = Some ((zero, zero, false), s) ∧
      ∀ k, Contains k s = Some (false, s) ∧ Get k s = Some ((zero, false), s) ∧
           Peek k s = Some ((zero, false), s) ∧ Remove k s = Some (false, s)
  end.
Proof.
  destruct (decide (size ≤ 0)) as [Hle|Hgt].
  - unfold new_cache, NewLru. by rewrite decide_True.
  - destruct (new_cache_rep size cb h w) as (s & E & R); [lia|]. rewrite E.
    destruct (rep_sees _ _ R) as (EK & EV & EL & EC).
    pose proof (GetOldest_rep _ _ R) as EO.
    pose proof R as (_ & _ & Hw & _). cbn [a_world a_kvs a_cap] in *.
    split; [lia|]. split.
    { revert E. unfold new_cache. destruct (NewLru size cb h) as [[[c|?] h']|]; [|done..].
      intros [= <-]. by exists c. }
    do 6 (split; [done|]). split.
    { revert EO. unfold GetOldest, RemoveOldest, mbind, SE_bind.
      destruct (rd_lru evictList s) as [[l s1]|]; [|done].
      destruct (liftH (dll.Back l) s1) as [[[e|] s2]|]; [|done..].
      repeat (destruct (liftH _ _) as [[? ?]|]; [|done]). done. }
    intros k. pose proof (rep_items_None _ _ k R) as Hk. cbn [a_kvs] in Hk.
    specialize (Hk ltac:(set_solver)).
    unfold Contains, Get, Peek, Remove, mbind, SE_bind, rd_lru, mret, SE_ret.
    rewrite Hk. by split_and!.
Qed.
(** X7. A key the cache does not hold: [Get] and [Peek] return the zero
    value and false, [Contains] and [Remove] return false, and none of the
    four changes anything: the list, the map and the callback's world are
    what they were. *)
Theorem absent_key_changes_nothing s a k :
  rep s a → k ∉ (a_kvs a).*1 →
  Get k s = Some ((zero, false), s) ∧ Peek k s = Some ((zero, false), s) ∧
  Contains k s = Some (false, s) ∧ Remove k s = Some (false, s).
Proof.
  intros R Hk. pose proof (rep_items_None _ _ k R Hk) as Hnone.
  unfold Contains, Get, Peek, Remove, mbind, SE_bind, rd_lru, mret, SE_ret.
  rewrite Hnone. by split_and!.
Qed.

(** X8. [Get] of a key the cache holds returns its value and true and
    makes the key the most recently used: [Keys()] lists it last, the
    other keys in the order they had, and [Vals()] follows. The length,
    the capacity and the callback's world are what they were. *)
Theorem Get_refreshes s a k v :
  rep s a → (k, v) ∈ a_kvs a →
  ∃ ks vs n s',
    Keys s = Some (ks, s) ∧ Vals s = Some (vs, s) ∧ Len s = Some (n, s) ∧
    Get k s = Some ((v, true), s') ∧
    Keys s' = Some (filter (λ x, x ≠ k) ks ++ [k], s') ∧
    (∃ vs', Vals s' = Some (vs' ++ [v], s') ∧ length vs' = pred (length vs)) ∧
    Len s' = Some (n, s') ∧ Cap s' = Some (a_cap a, s') ∧ world s' = world s.
Proof.
  intros R Hin. pose proof (rep_nodup _ _ R) as Hnd.
  pose proof (value_of_in _ _ _ Hnd Hin) as Hv.
  assert (k ∈ (a_kvs a).*1) as Hk by (apply list_elem_of_fmap; by exists (k, v)).
  destruct (value_of_present _ _ Hnd Hk) as (kv1 & v0 & kv2 & Hkvs & Hv0 & Hwo & Hnk).
  destruct (rep_sees _ _ R) as (EK & EV & EL & EC).
  destruct (Get_rep _ _ k R) as (s' & EG & R').
  unfold m_get in EG, R'. rewrite Hv in EG, R'. cbn [fst snd] in EG, R'.
  destruct (rep_sees _ _ R') as (EK' & EV' & EL' & EC').
  unfold with_kvs in *. cbn [a_kvs a_cap] in *.
  eexists _, _, _, s'. split_and!; [done|done|done|done| | | | |].
  - rewrite EK'. by rewrite fmap_cons, reverse_cons, without_keys, filter_reverse.
  - exists (reverse (without k (a_kvs a)).*2). split.
    + by rewrite EV', fmap_cons, reverse_cons.
    + rewrite !length_reverse, !length_fmap, Hwo, Hkvs, !length_app. cbn [length]. lia.
  - rewrite EL'. do 2 f_equal. cbn [length].
    rewrite Hwo, Hkvs, !length_app. cbn [length]. lia.
  - done.
  - destruct R as (_ & _ & -> & _), R' as (_ & _ & -> & _). done.
Qed.

(** X9. [Peek] and [Contains] on a key the cache holds return its value
    and true without making it more recent: the whole state is what it
    was, so [Keys()] lists the keys in the order they had. *)
Theorem Peek_does_not_refresh s a k v :
  rep s a → (k, v) ∈ a_kvs a →
  Peek k s = Some ((v, true), s) ∧ Contains k s = Some (true, s).
Proof.
  intros R Hin. pose proof (rep_nodup _ _ R) as Hnd.
  rewrite (Peek_rep _ _ k R), (value_of_in _ _ _ Hnd Hin).
  rewrite (Contains_rep _ _ k R), bool_decide_true; [done|].
  apply list_elem_of_fmap. by exists (k, v).
Qed.

(** X10. [GetOldest] returns the pair [Keys()] and [Vals()] list first,
    with true, and the zero values with false on an empty cache; it
    changes nothing. *)
Theorem GetOldest_is_first_listed s a :
  rep s a →
  ∃ ks vs,
    Keys s = Some (ks, s) ∧ Vals s = Some (vs, s) ∧
    GetOldest s = Some (match ks, vs with
                        | k :: _, v :: _ => (k, v, true)
                        | _, _ => (zero, zero, false)
                        end, s).
Proof.
  intros R. destruct (rep_sees _ _ R) as (EK & EV & _ & _).
  eexists _, _. split_and!; [done|done|].
  rewrite (GetOldest_rep _ _ R).
  destruct (a_kvs a) as [|[k v] kvs _] using rev_ind; [done|].
  by rewrite last_snoc, !fmap_app, !reverse_app.
Qed.

(** X11. [RemoveOldest] returns the pair that [Keys()] and [Vals()] list
    first, with true, removes it and calls the callback on it once; the
    other pairs stay in their order. On an empty cache it returns the zero
    values and false and the callback is not called. *)
Theorem RemoveOldest_removes_first_listed s a :
  rep s a →
  ∃ ks vs s',
    Keys s = Some (ks, s) ∧ Vals s = Some (vs, s) ∧
    RemoveOldest s = Some (match ks, vs with
                           | k :: _, v :: _ => (k, v, true)
                           | _, _ => (zero, zero, false)
                           end, s') ∧
    Keys s' = Some (tail ks, s') ∧ Vals s' = Some (tail vs, s') ∧
    world s' = fire (a_cb a) (match ks, vs with
                              | k :: _, v :: _ => [(k, v)]
                              | _, _ => []
                              end) (world s).
Proof.
  intros R. destruct (rep_sees _ _ R) as (EK & EV & _ & _).
  destruct (RemoveOldest_rep _ _ R) as (s' & E & R').
  destruct (rep_sees _ _ R') as (EK' & EV' & _ & _).
  assert (world s' = a_world (m_evict a)) as Hw' by (by destruct R' as (_ & _ & -> & _)).
  assert (world s = a_world a) as Hw by (by destruct R as (_ & _ & -> & _)).
  rewrite m_evict_world in Hw'. unfold m_evict_gone in Hw'. rewrite <-Hw in Hw'.
  eexists _, _, s'. split_and!; [done|done|..].
  - rewrite E. destruct (a_kvs a) as [|[k v] kvs _] using rev_ind; [done|].
    by rewrite last_snoc, !fmap_app, !reverse_app.
  - rewrite EK'. destruct a as [c cb kvs w]. cbn [a_kvs].
    destruct kvs as [|[k v] kvs _] using rev_ind; [done|].
    by rewrite m_evict_snoc, !fmap_app, !reverse_app.
  - rewrite EV'. destruct a as [c cb kvs w]. cbn [a_kvs].
    destruct kvs as [|[k v] kvs _] using rev_ind; [done|].
    by rewrite m_evict_snoc, !fmap_app, !reverse_app.
  - rewrite Hw'. destruct (a_kvs a) as [|[k v] kvs _] using rev_ind; [done|].
    by rewrite last_snoc, !fmap_app, !reverse_app.
Qed.

(** X12. [Remove] of a key the cache holds returns true, calls the
    callback once, on the key and its value, and takes the key out: the
    other keys stay in their order, the length drops by one and the key
    is not found any more. *)
Theorem Remove_present_key s a k v :
  rep s a → (k, v) ∈ a_kvs a →
  ∃ ks n s',
    Keys s = Some (ks, s) ∧ Len s = Some (n, s) ∧
    Remove k s = Some (true, s') ∧
    Keys s' = Some (filter (λ x, x ≠ k) ks, s') ∧
    Len s' = Some (n - 1, s') ∧
    world s' = fire (a_cb a) [(k, v)] (world s) ∧
    Contains k s' = Some (false, s') ∧ Get k s' = Some ((zero, false), s').
Proof.
  intros R Hin. pose proof (rep_nodup _ _ R) as Hnd.
  pose proof (value_of_in _ _ _ Hnd Hin) as Hv.
  assert (k ∈ (a_kvs a).*1) as Hk by (apply list_elem_of_fmap; by exists (k, v)).
  destruct (value_of_present _ _ Hnd Hk) as (kv1 & v0 & kv2 & Hkvs & Hv0 & Hwo & Hnk).
  destruct (rep_sees _ _ R) as (EK & _ & EL & _).
  destruct (Remove_rep _ _ k R) as (s' & E & R').
  unfold m_remove in E, R'. rewrite Hv in E, R'. cbn [fst snd] in E, R'.
  destruct (rep_sees _ _ R') as (EK' & _ & EL' & _). cbn [a_kvs] in *.
  assert (k ∉ (without k (a_kvs a)).*1) as Hgone by (by rewrite Hwo).
  pose proof (rep_items_None _ _ k R' Hgone) as Hnone.
  eexists _, _, s'. split_and!; [done|done|done|..].
  - by rewrite EK', without_keys, filter_reverse.
  - rewrite EL'. do 2 f_equal. rewrite Hwo, Hkvs, !length_app. cbn [length]. lia.
  - destruct R as (_ & _ & -> & _), R' as (_ & _ & -> & _). done.
  - unfold Contains, mbind, SE_bind, rd_lru, mret, SE_ret. rewrite Hnone.
    rewrite bool_decide_false; [done|]. by intros [].
  - unfold Get, mbind, SE_bind, rd_lru. by rewrite Hnone.
Qed.

(** X13. [Purge] calls the callback once on every pair the cache holds
    and leaves it empty, with the capacity it had: nothing is listed and
    no key is found. *)
Theorem Purge_empties s a :
  rep s a →
  ∃ s' gone,
    Purge s = Some (tt, s') ∧ gone ≡ₚ a_kvs a ∧
    world s' = fire (a_cb a) gone (world s) ∧
    Len s' = Some (0, s') ∧ Cap s' = Some (a_cap a, s') ∧
    Keys s' = Some ([], s') ∧ Vals s' = Some ([], s') ∧
    ∀ k, Contains k s' = Some (false, s') ∧ Get k s' = Some ((zero, false), s').
Proof.
  intros R. destruct (Purge_rep _ _ R) as (s' & gone & E & Hp & R').
  destruct (rep_sees _ _ R') as (EK & EV & EL & EC).
  exists s', gone. split_and!; try done.
  - destruct R as (_ & _ & -> & _), R' as (_ & _ & -> & _). done.
  - intros k. pose proof (rep_items_None _ _ k R') as Hk. cbn [a_kvs] in Hk.
    specialize (Hk ltac:(set_solver)).
    unfold Contains, Get, mbind, SE_bind, rd_lru, mret, SE_ret. rewrite Hk.
    split; [|done]. rewrite bool_decide_false; [done|]. by intros [].
Qed.
(** X14. [Add] of a new key to a cache that is not full returns false,
    calls no callback and makes the pair the most recent one: [Keys()] and
    [Vals()] list it last, after what they listed before, and the length
    grows by one. *)
Theorem Add_new_key_with_room s a k v :
  rep s a → k ∉ (a_kvs a).*1 → Z.of_nat (length (a_kvs a)) < a_cap a →
  a_cap a ≤ int_max →
  ∃ ks vs n s',
    Keys s = Some (ks, s) ∧ Vals s = Some (vs, s) ∧ Len s = Some (n, s) ∧
    Add k v s = Some (false, s') ∧
    Keys s' = Some (ks ++ [k], s') ∧ Vals s' = Some (vs ++ [v], s') ∧
    Len s' = Some (n + 1, s') ∧ world s' = world s.
Proof.
  intros R Hk Hroom Hcap.
  destruct (rep_sees _ _ R) as (EK & EV & EL & _).
  destruct (Add_rep _ _ k v R) as (s' & E & R'); [right; lia|].
  unfold m_add, with_kvs in E, R'. rewrite decide_False in E, R' by done.
  cbn [a_kvs length] in E, R'. rewrite decide_False in E, R' by lia.
  cbn [fst snd] in E, R'.
  destruct (rep_sees _ _ R') as (EK' & EV' & EL' & _). cbn [a_kvs] in *.
  eexists _, _, _, s'. split_and!; [done|done|done|done|..].
  - by rewrite EK', fmap_cons, reverse_cons.
  - by rewrite EV', fmap_cons, reverse_cons.
  - rewrite EL'. do 2 f_equal. cbn [length]. lia.
  - destruct R as (_ & _ & -> & _), R' as (_ & _ & -> & _). done.
Qed.

(** X15. [Add] of a new key to a cache that holds as many pairs as its
    capacity allows, or more, returns true: the pair [Keys()] and [Vals()]
    listed first is evicted and handed to the callback, once, and the new
    pair is listed last; the length is what it was. *)
Theorem Add_new_key_evicts_oldest s a k v k0 v0 ks0 vs0 :
  rep s a → k ∉ (a_kvs a).*1 → a_cap a ≤ Z.of_nat (length (a_kvs a)) →
  Z.of_nat (length (a_kvs a)) < int_max →
  Keys s = Some (k0 :: ks0, s) → Vals s = Some (v0 :: vs0, s) →
  ∃ n s',
    Len s = Some (n, s) ∧
    Add k v s = Some (true, s') ∧
    Keys s' = Some (ks0 ++ [k], s') ∧ Vals s' = Some (vs0 ++ [v], s') ∧
    Len s' = Some (n, s') ∧
    world s' = fire (a_cb a) [(k0, v0)] (world s).
Proof.
  intros R Hk Hfull Hlt EK0 EV0.
  destruct (rep_sees _ _ R) as (EK & EV & EL & _).
  rewrite EK in EK0. rewrite EV in EV0.
  injection EK0 as EK0. injection EV0 as EV0.
  destruct (Add_rep _ _ k v R) as (s' & E & R'); [by right|].
  destruct a as [c cb kvs w]. cbn [a_kvs a_cap a_cb] in *.
  destruct kvs as [|[k1 v1] kvs _] using rev_ind; [done|].
  rewrite fmap_app, reverse_app in EK0. rewrite fmap_app, reverse_app in EV0.
  cbn in EK0, EV0.
  injection EK0 as -> <-. injection EV0 as -> <-.
  unfold m_add, with_kvs in E, R'. cbn [a_kvs a_cap a_cb a_world] in E, R'.
  rewrite decide_False in E, R' by done.
  rewrite decide_True in E, R' by (cbn [length]; lia).
  rewrite app_comm_cons, m_evict_snoc in R'. cbn [fst snd] in E, R'.
  destruct (rep_sees _ _ R') as (EK' & EV' & EL' & _). cbn [a_kvs] in *.
  eexists _, s'. split_and!; [done|done|..].
  - by rewrite EK', fmap_cons, reverse_cons.
  - by rewrite EV', fmap_cons, reverse_cons.
  - rewrite EL'. do 2 f_equal. cbn [length]. rewrite length_app. cbn [length]. lia.
  - destruct R as (_ & _ & Hw & _), R' as (_ & _ & -> & _). cbn in *. by rewrite Hw.
Qed.

(** X16. What [Add] stores can be read back: on a cache of capacity 1 or
    more, after [Add(k, v)], whether [k] was held or not and whether a
    pair was evicted or not, [Contains(k)] is true and [Peek(k)] and
    [Get(k)] return [v]. *)
Theorem Add_then_Get s a k v :
  rep s a → 1 ≤ a_cap a →
  k ∈ (a_kvs a).*1 ∨ Z.of_nat (length (a_kvs a)) < int_max →
  ∃ evicted s1 s2,
    Add k v s = Some (evicted, s1) ∧
    Contains k s1 = Some (true, s1) ∧ Peek k s1 = Some ((v, true), s1) ∧
    Get k s1 = Some ((v, true), s2).
Proof.
  intros R Hcap Hlt. destruct (Add_rep _ _ k v R Hlt) as (s1 & E & R1).
  assert (∃ rest, a_kvs (m_add k v a).2 = (k, v) :: rest) as [rest Hkvs].
  { unfold m_add, with_kvs. case_decide; [by eexists|].
    cbn [a_kvs length]. case_decide as Hev; [|by eexists].
    destruct a as [c cb kvs w]. cbn [a_kvs a_cap a_cb a_world] in *.
    destruct kvs as [|kv kvs _] using rev_ind.
    - cbn [length] in Hev. lia.
    - rewrite app_comm_cons, m_evict_snoc. by eexists. }
  pose proof (rep_nodup _ _ R1) as Hnd1.
  assert ((k, v) ∈ a_kvs (m_add k v a).2) as Hin by (rewrite Hkvs; set_solver).
  destruct (Get_rep _ _ k R1) as (s2 & EG & _).
  unfold m_get in EG. rewrite (value_of_in _ _ _ Hnd1 Hin) in EG.
  eexists _, s1, s2. split_and!; [done| | |done].
  - rewrite (Contains_rep _ _ k R1), bool_decide_true; [done|].
    apply list_elem_of_fmap. by exists (k, v).
  - by rewrite (Peek_rep _ _ k R1), (value_of_in _ _ _ Hnd1 Hin).
Qed.

(** X17. A cache of capacity 0, which [Resize] can leave behind, keeps
    nothing: [Add] on it, when it is empty, returns true, evicts the pair
    it has just added and hands it to the callback, and the cache is empty
    again. *)
Theorem Add_at_capacity_zero s a k v :
  rep s a → a_cap a = 0 → a_kvs a = [] →
  ∃ s', Add k v s = Some (true, s') ∧
    Len s' = Some (0, s') ∧ Keys s' = Some ([], s') ∧
    Contains k s' = Some (false, s') ∧
    world s' = fire (a_cb a) [(k, v)] (world s).
Proof.
  intros R Hcap Hkvs. destruct a as [c cb kvs w]. cbn [a_cap a_kvs a_cb] in *. subst.
  destruct (Add_rep _ _ k v R) as (s' & E & R').
  { right. unfold int_max. cbn. lia. }
  unfold m_add, with_kvs in E, R'. cbn [a_kvs a_cap a_cb a_world fmap list_fmap] in E, R'.
  rewrite decide_False in E, R' by set_solver.
  rewrite decide_True in E, R' by (cbn; lia).
  change [(k, v)] with ([] ++ [(k, v)]) in R'. rewrite m_evict_snoc in R'.
  cbn [fst snd] in E, R'.
  destruct (rep_sees _ _ R') as (EK' & _ & EL' & _).
  exists s'. split_and!; [done|done|done| |].
  - rewrite (Contains_rep _ _ k R'), bool_decide_false; [done|]. set_solver.
  - destruct R as (_ & _ & Hw & _), R' as (_ & _ & -> & _). cbn in *. by rewrite Hw.
Qed.

(** X18. [Keys()] and [Vals()] list the same pairs in the same order:
    both are as long as [Len()] says, no key is listed twice, and the
    value at a position is the value [Peek] finds for the key at that
    position. *)
Theorem Keys_and_Vals_agree s a :
  rep s a →
  ∃ ks vs,
    Keys s = Some (ks, s) ∧ Vals s = Some (vs, s) ∧
    Len s = Some (Z.of_nat (length ks), s) ∧ length vs = length ks ∧ NoDup ks ∧
    ∀ i k v, ks !! i = Some k → vs !! i = Some v → Peek k s = Some ((v, true), s).
Proof.
  intros R. destruct (rep_sees _ _ R) as (EK & EV & EL & _).
  pose proof (rep_nodup _ _ R) as Hnd.
  eexists _, _. split_and!; [done|done|..].
  - by rewrite length_reverse, length_fmap.
  - by rewrite !length_reverse, !length_fmap.
  - by rewrite reverse_Permutation.
  - intros i k v Hk Hv. rewrite <-fmap_reverse in Hk. rewrite <-fmap_reverse in Hv.
    apply list_lookup_fmap_Some in Hk as ([k' v'] & -> & Hi).
    rewrite list_lookup_fmap, Hi in Hv. injection Hv as <-. cbn [fst snd].
    rewrite (Peek_rep _ _ k' R), (value_of_in _ k' v' Hnd); [done|].
    apply elem_of_reverse. by eapply list_elem_of_lookup_2.
Qed.
(** *** Any sequence of calls *)

Lemma value_of_Some_in kvs k v : value_of k kvs = Some v → k ∈ kvs.*1.
Proof.
  intros Hv. destruct (decide (k ∈ kvs.*1)) as [|Hn]; [done|].
  by rewrite (value_of_notin _ _ Hn) in Hv.
Qed.

Lemma length_without k kvs : (length (without k kvs) ≤ length kvs)%nat.
Proof. unfold without. apply length_filter. Qed.

(** A call on a well-formed cache within its capacity returns and leaves
    such a cache. *)
Lemma run_call_keeps (c : Call K V) s a :
  rep s a → Z.of_nat (length (a_kvs a)) ≤ a_cap a → 0 ≤ a_cap a < 2 ^ 62 →
  small_call c →
  ∃ s' a', run_call c s = Some (tt, s') ∧ rep s' a' ∧
    Z.of_nat (length (a_kvs a')) ≤ a_cap a' ∧ 0 ≤ a_cap a' < 2 ^ 62.
Proof.
  intros R Hlen Hcap Hsm.
  assert (2 ^ 62 < int_max) as H62 by (unfold int_max; lia).
  pose proof (rep_nodup _ _ R) as Hnd.
  destruct c as [k v|k|k|k|k| | | | | | | |n]; cbn [run_call small_call] in *.
  - destruct (Add_rep _ _ k v R) as (s' & E & R'); [right; lia|].
    destruct (m_add_ok k v a) as (_ & Hl' & _); [split_and!; [done|done|lia]|].
    destruct (m_add_cfg k v a) as [Hc' _].
    exists s', (m_add k v a).2. split_and!; [|done|rewrite Hc'; lia|rewrite Hc'; lia|rewrite Hc'; lia].
    eapply eq_trans; [apply SE_bind_run; exact E|]. done.
  - destruct (Get_rep _ _ k R) as (s' & E & R').
    exists s', (m_get k a).2. split_and!; [|done|..].
    + eapply eq_trans; [apply SE_bind_run; exact E|]. done.
    + unfold m_get, with_kvs. destruct (value_of k (a_kvs a)) as [v|] eqn:Hv; [|done].
      cbn [snd a_kvs a_cap length].
      destruct (value_of_present _ _ Hnd (value_of_Some_in _ _ _ Hv))
        as (kv1 & v0 & kv2 & Hkvs & _ & -> & _).
      rewrite Hkvs, !length_app in *. cbn [length] in *. lia.
    + unfold m_get. destruct (value_of k (a_kvs a)); cbn; lia.
    + unfold m_get. destruct (value_of k (a_kvs a)); cbn; lia.
  - exists s, a. split_and!; [|done|lia|lia|lia].
    eapply eq_trans; [apply SE_bind_run; apply (Peek_rep _ _ k R)|]. done.
  - exists s, a. split_and!; [|done|lia|lia|lia].
    eapply eq_trans; [apply SE_bind_run; apply (Contains_rep _ _ k R)|]. done.
  - destruct (Remove_rep _ _ k R) as (s' & E & R').
    destruct (m_remove_cfg k a) as [Hc' _].
    exists s', (m_remove k a).2. split_and!; [|done| |rewrite Hc'; lia|rewrite Hc'; lia].
    + eapply eq_trans; [apply SE_bind_run; exact E|]. done.
    + rewrite Hc'. unfold m_remove. destruct (value_of k (a_kvs a)); [|done].
      cbn [snd a_kvs]. pose proof (length_without k (a_kvs a)). lia.
  - destruct (RemoveOldest_rep _ _ R) as (s' & E & R').
    destruct (m_evict_cfg a) as [Hc' _].
    exists s', (m_evict a). split_and!; [|done| |rewrite Hc'; lia|rewrite Hc'; lia].
    + eapply eq_trans; [apply SE_bind_run; exact E|]. done.
    + rewrite Hc'. enough (length (a_kvs (m_evict a)) ≤ length (a_kvs a))%nat by lia.
      clear. destruct a as [c cb kvs w]. destruct kvs as [|kv kvs _] using rev_ind.
      * by rewrite m_evict_nil.
      * rewrite m_evict_snoc. cbn [a_kvs]. rewrite length_app. lia.
  - exists s, a. split_and!; [|done|lia|lia|lia].
    eapply eq_trans; [apply SE_bind_run; apply (GetOldest_rep _ _ R)|]. done.
  - exists s, a. split_and!; [|done|lia|lia|lia].
    eapply eq_trans; [apply SE_bind_run; apply (Keys_rep _ _ R)|]. done.
  - exists s, a. split_and!; [|done|lia|lia|lia].
    eapply eq_trans; [apply SE_bind_run; apply (Vals_rep _ _ R)|]. done.
  - exists s, a. split_and!; [|done|lia|lia|lia].
    eapply eq_trans; [apply SE_bind_run; apply (Len_rep _ _ R)|]. done.
  - exists s, a. split_and!; [|done|lia|lia|lia].
    eapply eq_trans; [apply SE_bind_run; apply (Cap_rep _ _ R)|]. done.
  - destruct (Purge_rep _ _ R) as (s' & gone & E & _ & R').
    eexists s', _. split_and!; [done|done|..]; cbn [a_kvs a_cap length]; lia.
  - destruct (Resize_rep _ _ n R) as (s' & E & R').
    unfold small in Hsm. destruct a as [c cb kvs w]. cbn [a_kvs a_cap] in *.
    rewrite m_resize_in_range in E, R' by (unfold int_max in *; lia).
    cbn [fst snd] in E, R'.
    eexists s', _. split_and!; [|done|..]; cbn [a_kvs a_cap].
    + eapply eq_trans; [apply SE_bind_run; exact E|]. done.
    + rewrite length_take. lia.
    + lia.
    + lia.
Qed.

Lemma run_calls_keep (cs : list (Call K V)) : ∀ s a,
  rep s a → Z.of_nat (length (a_kvs a)) ≤ a_cap a → 0 ≤ a_cap a < 2 ^ 62 →
  Forall small_call cs →
  ∃ s' a', run_calls cs s = Some (tt, s') ∧ rep s' a' ∧
    Z.of_nat (length (a_kvs a')) ≤ a_cap a' ∧ 0 ≤ a_cap a' < 2 ^ 62.
Proof.
  induction cs as [|c cs IH]; intros s a R Hlen Hcap Hsm.
  - exists s, a. split_and!; [done|done|lia|lia|lia].
  - apply Forall_cons in Hsm as [Hc Hcs].
    destruct (run_call_keeps c s a R Hlen Hcap Hc) as (s1 & a1 & E1 & R1 & Hlen1 & Hcap1).
    destruct (IH s1 a1 R1 Hlen1 Hcap1 Hcs) as (s' & a' & E & R' & Hlen' & Hcap').
    exists s', a'. split_and!; [|done|lia|lia|lia].
    cbn [run_calls]. eapply eq_trans; [apply SE_bind_run; exact E1|]. exact E.
Qed.

(** X19. No sequence of calls makes a cache panic or outgrow its
    capacity. On a cache built by [NewLru], any calls of the thirteen
    methods, in any order, all return (the sizes given to [NewLru] and to
    [Resize] being within [2^62] of 0); after them [Len()] is the number
    of keys [Keys()] lists, none twice, and is not above [Cap()]. *)
Theorem calls_never_panic (size : Z) cb h w (cs : list (Call K V)) :
  0 < size → small size → Forall small_call cs →
  ∃ s0 s n m ks,
    new_cache size cb h w = Some s0 ∧ run_calls cs s0 = Some (tt, s) ∧
    Len s = Some (n, s) ∧ Cap s = Some (m, s) ∧ Keys s = Some (ks, s) ∧
    NoDup ks ∧ Z.of_nat (length ks) = n ∧ n ≤ m.
Proof.
  intros Hpos Hsm Hcs. destruct (new_cache_rep size cb h w Hpos) as (s0 & E0 & R0).
  destruct (run_calls_keep cs s0 _ R0) as (s & a & E & R & Hlen & Hcap);
    [cbn; lia|unfold small in Hsm; cbn; lia|done|].
  destruct (rep_sees _ _ R) as (EK & _ & EL & EC).
  eexists s0, s, _, _, _. split_and!; [done|done|done|done|done|..].
  - rewrite reverse_Permutation. by eapply rep_nodup.
  - by rewrite length_reverse, length_fmap.
  - done.
Qed.
End lru_coverage.
(** ** The wrapper *)

Section wrapper_coverage.
Import simplelru golru.
Context {K : Type} `{Countable K} {V : Type} `{!GoZero K, !GoZero V}.
Implicit Types (c : Cache K V) (a : Abs K V (Buffers K V)) (k : K) (v : V).

(** X20. [NewLruWithEvict] returns the error of the controller's
    constructor for a size that is not positive, and otherwise a cache
    that is idle, empty and of that capacity, whose controller reports
    evictions into the buffers exactly when the caller gave a callback.
    [NewLru] is [NewLruWithEvict] with no callback. *)
Theorem NewLruWithEvict_gives_idle_cache (size : Z) (cbf : bool) (h : dll.Heap K V) :
  NewLru size h = NewLruWithEvict size false h ∧
  match NewLruWithEvict size cbf h with
  | Some (inl c) =>
      0 < size ∧ onEvictCb c = cbf ∧ trace c = [] ∧
      idle c (mkAbs size (if cbf then Some onEvict else None) [] (mkBuffers [] []))
  | Some (inr e) => size ≤ 0 ∧ e = "size must be greater than 0"%string
  | None => False
  end.
Proof.
  split; [done|]. unfold NewLruWithEvict.
  destruct (decide (size ≤ 0)) as [Hle|Hgt].
  - unfold simplelru.NewLru. by rewrite decide_True.
  - destruct (new_cache_rep size (if cbf then Some onEvict else None) h (mkBuffers [] []))
      as (s & E & R); [lia|].
    revert E. unfold new_cache.
    destruct (simplelru.NewLru size _ h) as [[[c0|?] h']|]; [|done..].
    intros [= <-]. split_and!; [lia|done|done|]. by split_and!.
Qed.

(** X21. [Add], [Remove], [RemoveOldest] and [Purge] on an idle cache:
    each returns what the controller's method returns, follows the
    protocol of the buffers (they are empty when the lock is released, and
    the callback is called after that, on the evicted pairs in order), and
    leaves the cache idle, with the pairs the controller's method leaves. *)
Theorem mutators_return_and_stay_idle c a k v :
  idle c a → Z.of_nat (length (a_kvs a)) < int_max →
  let after kvs := mkAbs (a_cap a) (a_cb a) kvs (mkBuffers [] []) in
  (∃ r s' c', simplelru.Add k v (ctl c) = Some (r, s') ∧
     golru.Add k v c = Some (r, c') ∧ idle c' (after (a_kvs (m_add k v a).2)) ∧
     follows_protocol (onEvictCb c) (m_add_gone k v a) (events_since c c')) ∧
  (∃ r s' c', simplelru.Remove k (ctl c) = Some (r, s') ∧
     golru.Remove k c = Some (r, c') ∧ idle c' (after (a_kvs (m_remove k a).2)) ∧
     follows_protocol (onEvictCb c) (m_remove_gone k a) (events_since c c')) ∧
  (∃ r s' c', simplelru.RemoveOldest (ctl c) = Some (r, s') ∧
     golru.RemoveOldest c = Some (r, c') ∧ idle c' (after (a_kvs (m_evict a))) ∧
     follows_protocol (onEvictCb c) (m_evict_gone a) (events_since c c')) ∧
  (∃ s' c' gone, simplelru.Purge (ctl c) = Some (tt, s') ∧
     golru.Purge c = Some (tt, c') ∧ idle c' (after []) ∧ gone ≡ₚ a_kvs a ∧
     follows_protocol (onEvictCb c) gone (events_since c c')).
Proof.
  intros Hi Hlt after. pose proof Hi as (_ & R & _ & _). split_and!.
  - destruct (Add_rep _ _ k v R (or_intror Hlt)) as (s' & E & _).
    destruct (Add_protocol c a k v Hi (or_intror Hlt)) as (c' & EW & Hi' & _ & Hev).
    exists (m_add k v a).1, s', c'. split_and!; [done|done|done|].
    rewrite Hev. apply (protocol_followed [OpAdd]).
  - destruct (Remove_rep _ _ k R) as (s' & E & _).
    destruct (Remove_protocol c a k Hi) as (c' & EW & Hi' & _ & Hev).
    exists (m_remove k a).1, s', c'. split_and!; [done|done|done|].
    rewrite Hev. apply (protocol_followed [OpRemove]).
  - destruct (RemoveOldest_rep _ _ R) as (s' & E & _).
    destruct (RemoveOldest_protocol c a Hi) as (r & c' & EW & Hi' & _ & Hev).
    assert (golru.RemoveOldest c = Some (match last (a_kvs a) with
              | Some (k, v) => (k, v, true) | None => (zero, zero, false) end, c')) as EW'.
    { rewrite EW. f_equal. f_equal. revert EW.
      destruct c as [mx s cbf t]. destruct Hi as (Hm & _). simpl in Hm, E. subst mx.
      unfold golru.RemoveOldest, mbind, SE_bind, Lock, call.
      cbn [rwm writer readers orb negb Nat.eqb emit set_rwm ctl onEvictCb trace free].
      rewrite E. destruct (unlock_and_report _ _) as [[[] ?]|]; [|done].
      unfold mret, SE_ret. by intros [= -> _]. }
    eexists _, s', c'. split_and!; [done|done|done|].
    rewrite Hev. apply (protocol_followed [OpRemoveOldest]).
  - destruct (Purge_rep _ _ R) as (s' & gone0 & E & _ & _).
    destruct (Purge_protocol c a Hi) as (c' & gone & EW & Hp & Hi' & _ & Hev).
    exists s', c', gone. split_and!; [done|done|done|done|].
    rewrite Hev. apply (protocol_followed [OpPurge]).
Qed.

(** X22. [ContainsOrAdd] on a key the cache holds returns (true, false)
    and neither stores the value nor makes the key more recent; on another
    key it returns false with what [Add] returns, and the pairs are those
    [Add] leaves. In both cases the protocol of the buffers is followed
    and the cache is idle afterwards. *)
Theorem ContainsOrAdd_adds_only_if_absent c a k v :
  idle c a → Z.of_nat (length (a_kvs a)) < int_max →
  let found := bool_decide (k ∈ (a_kvs a).*1) in
  ∃ c', golru.ContainsOrAdd k v c =
          Some (if found then (true, false) else (false, (m_add k v a).1), c') ∧
    idle c' (mkAbs (a_cap a) (a_cb a)
                   (if found then a_kvs a else a_kvs (m_add k v a).2)
                   (mkBuffers [] [])) ∧
    follows_protocol (onEvictCb c) (if found then [] else m_add_gone k v a)
      (events_since c c').
Proof.
  intros Hi Hlt found.
  destruct (ContainsOrAdd_protocol c a k v Hi (or_intror Hlt)) as (c' & E & Hi' & _ & Hev).
  fold found in E, Hi', Hev. exists c'. split_and!; [done|done|].
  rewrite Hev. destruct found.
  - pose proof (protocol_followed [OpContains] (onEvictCb c) (@nil (K * V))) as HP.
    replace (callbacks _ []) with (@nil (Event K V)) in HP
      by (by destruct (onEvictCb c)).
    exact HP.
  - apply (protocol_followed [OpContains; OpAdd]).
Qed.

(** X23. [PeekOrAdd] on a key the cache holds returns its value with
    (true, false) and neither stores the new value nor makes the key more
    recent; on another key it returns the zero value and false with what
    [Add] returns, and the pairs are those [Add] leaves. In both cases the
    protocol of the buffers is followed and the cache is idle afterwards. *)
Theorem PeekOrAdd_adds_only_if_absent c a k v :
  idle c a → Z.of_nat (length (a_kvs a)) < int_max →
  let found := value_of k (a_kvs a) in
  ∃ c', golru.PeekOrAdd k v c =
          Some (match found with
                | Some v0 => (v0, true, false)
                | None => (zero, false, (m_add k v a).1)
                end, c') ∧
    idle c' (mkAbs (a_cap a) (a_cb a)
                   (if found is Some _ then a_kvs a else a_kvs (m_add k v a).2)
                   (mkBuffers [] [])) ∧
    follows_protocol (onEvictCb c) (if found is Some _ then [] else m_add_gone k v a)
      (events_since c c').
Proof.
  intros Hi Hlt found.
  destruct (PeekOrAdd_protocol c a k v Hi (or_intror Hlt)) as (c' & E & Hi' & _ & Hev).
  fold found in E, Hi', Hev. exists c'. split_and!; [done|done|].
  rewrite Hev. destruct found.
  - pose proof (protocol_followed [OpPeek] (onEvictCb c) (@nil (K * V))) as HP.
    replace (callbacks _ []) with (@nil (Event K V)) in HP
      by (by destruct (onEvictCb c)).
    exact HP.
  - apply (protocol_followed [OpPeek; OpAdd]).
Qed.

(** X24. The readers of the wrapper return what the controller's methods
    return, and leave an idle cache idle. [Contains], [Peek], [GetOldest],
    [Keys], [Vals], [Len] and [Cap] leave the controller as it is; [Get]
    leaves it as the controller's [Get] does. *)
Theorem readers_return_controllers_answer c a k :
  idle c a →
  let same {A} (wm : golru.M K V A) (cm : simplelru.M K V (Buffers K V) A) :=
    ∃ r c', cm (ctl c) = Some (r, ctl c) ∧ wm c = Some (r, c') ∧
            ctl c' = ctl c ∧ idle c' a in
  same (golru.Contains k) (simplelru.Contains k) ∧
  same (golru.Peek k) (simplelru.Peek k) ∧
  same golru.GetOldest simplelru.GetOldest ∧
  same golru.Keys simplelru.Keys ∧
  same golru.Vals simplelru.Vals ∧
  same golru.Len simplelru.Len ∧
  same golru.Cap simplelru.Cap ∧
  ∃ r s' c', simplelru.Get k (ctl c) = Some (r, s') ∧ golru.Get k c = Some (r, c') ∧
             ctl c' = s' ∧ idle c' (m_get k a).2.
Proof.
  intros (Hm & R & Hcb & Hw) same. subst same.
  destruct c as [mx s cbf t]. simpl in Hm, R, Hcb. subst mx.
  destruct (Get_rep _ _ k R) as (sg & EG & RG).
  pose proof (Contains_rep _ _ k R) as EC. pose proof (Peek_rep _ _ k R) as EP.
  pose proof (GetOldest_rep _ _ R) as EO. pose proof (Keys_rep _ _ R) as EK.
  pose proof (Vals_rep _ _ R) as EV. pose proof (Len_rep _ _ R) as EL.
  pose proof (Cap_rep _ _ R) as ECap.
  assert (world s = mkBuffers [] []) as Hws by (destruct R as (_ & _ & -> & _); done).
  unfold golru.Contains, golru.Peek, golru.Get, golru.GetOldest, golru.Keys, golru.Vals,
    golru.Len, golru.Cap, Lock, Unlock, RLock, RUnlock,
    call, mbind, SE_bind, mret, SE_ret, free, emit, set_rwm, buffers.
  cbn [rwm ctl onEvictCb trace writer readers orb negb Nat.eqb].
  rewrite EC, EP, EG, EO, EK, EV, EL, ECap.
  cbn [rwm ctl onEvictCb trace writer readers].
  split_and!; try (eexists _, _; split_and!; [reflexivity|reflexivity|reflexivity|];
                   by split_and!).
  eexists _, _, _. split_and!; [reflexivity|reflexivity|reflexivity|].
  split_and!; [done|done| |].
  - cbn [onEvictCb]. rewrite <-Hcb. unfold m_get. by destruct (value_of k (a_kvs a)).
  - by rewrite m_get_world.
Qed.
(** *** Any sequence of calls of the wrapper *)

(** The three shapes of the readers, around a method [cm] of the
    controller that changes nothing. *)
Lemma locked_read_run {A} (op : CtlOp) (cm : simplelru.M K V (Buffers K V) A) c a r :
  idle c a → cm (ctl c) = Some (r, ctl c) →
  ∃ c', (RLock;; x ← call op cm; RUnlock;; mret x) c = Some (r, c') ∧ idle c' a ∧
        onEvictCb c' = onEvictCb c.
Proof.
  intros (Hm & R & Hcb & Hw) E. destruct c as [mx s cbf t]. simpl in *. subst mx.
  eexists. split_and!; [|split_and!|].
  - unfold RLock, RUnlock, call, mbind, SE_bind, mret, SE_ret, free, emit, set_rwm.
    cbn [rwm ctl onEvictCb trace writer readers]. rewrite E.
    cbn [rwm ctl onEvictCb trace writer readers]. reflexivity.
  - done.
  - done.
  - done.
  - done.
  - done.
Qed.

Lemma unlocked_read_run {A} (op : CtlOp) (cm : simplelru.M K V (Buffers K V) A) c a r :
  idle c a → cm (ctl c) = Some (r, ctl c) →
  ∃ c', (RLock;; RUnlock;; call op cm) c = Some (r, c') ∧ idle c' a ∧
        onEvictCb c' = onEvictCb c.
Proof.
  intros (Hm & R & Hcb & Hw) E. destruct c as [mx s cbf t]. simpl in *. subst mx.
  eexists. split_and!; [|split_and!|].
  - unfold RLock, RUnlock, call, mbind, SE_bind, mret, SE_ret, free, emit, set_rwm.
    cbn [rwm ctl onEvictCb trace writer readers]. rewrite E. reflexivity.
  - done.
  - done.
  - done.
  - done.
  - done.
Qed.

Lemma Get_run c a k :
  idle c a →
  ∃ r c', golru.Get k c = Some (r, c') ∧ idle c' (m_get k a).2 ∧
          onEvictCb c' = onEvictCb c.
Proof.
  intros (Hm & R & Hcb & Hw). destruct c as [mx s cbf t]. simpl in *. subst mx.
  destruct (Get_rep _ _ k R) as (sg & EG & RG).
  eexists _, _. split_and!; [|split_and!|].
  - unfold golru.Get, Lock, Unlock, call, mbind, SE_bind, mret, SE_ret, free, emit, set_rwm.
    cbn [rwm ctl onEvictCb trace writer readers orb negb Nat.eqb]. rewrite EG.
    cbn [rwm ctl onEvictCb trace writer readers]. reflexivity.
  - done.
  - done.
  - cbn [onEvictCb]. rewrite <-Hcb. unfold m_get. by destruct (value_of k (a_kvs a)).
  - by rewrite m_get_world.
  - done.
Qed.

(** [Resize] to a positive size leaves the cache idle, with or without a
    callback. *)
Lemma Resize_positive_run c a n :
  idle c a → 0 < n ≤ int_max →
  ∃ c', golru.Resize n c = Some (n, c') ∧
    idle c' (mkAbs n (a_cb a) (take (Z.to_nat n) (a_kvs a)) (mkBuffers [] [])) ∧
    onEvictCb c' = onEvictCb c.
Proof.
  intros (Hm & R & Hcb & Hw) Hn.
  destruct c as [mx s cbf t], a as [cap cb kvs w]. simpl in *. subst mx cb w.
  destruct (Resize_rep s _ n R) as (s' & E & R').
  pose proof (rep_bound _ _ R) as Hb. cbn [a_kvs] in Hb.
  rewrite m_resize_in_range in E, R' by lia. cbn [fst snd] in E, R'.
  replace (Z.max n 0) with n in E, R' by lia.
  set (keep := (length kvs - Z.to_nat (Z.of_nat (length kvs) - n))%nat) in *.
  set (gone := reverse (drop keep kvs)) in *.
  assert (take keep kvs = take (Z.to_nat n) kvs) as Htake.
  { destruct (decide (Z.of_nat (length kvs) ≤ n)).
    - rewrite !take_ge; [done|lia|subst keep; lia].
    - f_equal. subst keep. lia. }
  rewrite Htake in R'.
  pose proof (rep_set_world _ _ (mkBuffers [] []) R') as R''. cbn [a_cap a_cb a_kvs] in R''.
  destruct R' as (_ & _ & Hw' & _). cbn [a_world] in Hw'. rewrite fire_flag in Hw'.
  destruct s' as [lru' mem' w']. cbn [world lru mem] in *. subst w'.
  pose proof (deliver_run gone []) as HD. cbn [app length] in HD.
  exists (mkCache free (mkSt lru' mem' (mkBuffers [] [])) cbf
            (t ++ [EvLock; EvCtl OpResize (mkRWMutex true 0); EvUnlock [] []] ++
             callbacks cbf gone)).
  split_and!; [|by split_and!|done].
  cbv [golru.Resize Lock call mbind SE_bind rwm ctl onEvictCb trace writer readers
       orb negb Nat.eqb emit set_rwm free].
  rewrite E.
  cbv [rd_cache Unlock take_all initEvictBuffer set_buffers mbind SE_bind mret
       SE_ret emit set_rwm buffers rwm ctl onEvictCb trace writer readers
       world lru mem].
  rewrite bool_decide_true by lia. destruct cbf.
  - cbv [andb keysEvicted valsEvicted fst snd rwm ctl trace onEvictCb world lru mem
         writer readers].
    rewrite HD. cbv [rwm ctl trace onEvictCb callbacks free].
    by rewrite <-!app_assoc.
  - cbv [andb keysEvicted valsEvicted fst snd rwm ctl trace onEvictCb world lru mem
         writer readers callbacks]. by rewrite <-!app_assoc.
Qed.

(** How long the list of pairs is after a call. *)
Lemma m_lengths a k v :
  NoDup (a_kvs a).*1 → Z.of_nat (length (a_kvs a)) ≤ a_cap a → a_cap a < int_max →
  Z.of_nat (length (a_kvs (m_add k v a).2)) ≤ a_cap a ∧
  (length (a_kvs (m_get k a).2) = length (a_kvs a)) ∧
  (length (a_kvs (m_remove k a).2) ≤ length (a_kvs a))%nat.
Proof.
  intros Hnd Hlen Hcap. split_and!.
  - destruct (m_add_ok k v a) as (_ & Hl' & _); [by split_and!|].
    destruct (m_add_cfg k v a) as [Hc' _]. by rewrite Hc' in Hl'.
  - unfold m_get, with_kvs. destruct (value_of k (a_kvs a)) as [v0|] eqn:Hv; [|done].
    cbn [snd a_kvs length].
    destruct (value_of_present _ _ Hnd (value_of_Some_in _ _ _ Hv))
      as (kv1 & v1 & kv2 & Hkvs & _ & -> & _).
    rewrite Hkvs, !length_app. cbn [length]. lia.
  - unfold m_remove. destruct (value_of k (a_kvs a)); [|done].
    cbn [snd a_kvs]. apply length_without.
Qed.

Lemma m_evict_length a : (length (a_kvs (m_evict a)) ≤ length (a_kvs a))%nat.
Proof.
  destruct a as [c cb kvs w]. destruct kvs as [|kv kvs _] using rev_ind.
  - by rewrite m_evict_nil.
  - rewrite m_evict_snoc. cbn [a_kvs]. rewrite length_app. lia.
Qed.

Lemma wrapper_call_keeps (x : golru.Call K V) c a :
  idle c a → Z.of_nat (length (a_kvs a)) ≤ a_cap a → 0 < a_cap a < 2 ^ 62 →
  positive_resize x →
  ∃ c' a', golru.run_call x c = Some (tt, c') ∧ idle c' a' ∧
    onEvictCb c' = onEvictCb c ∧
    Z.of_nat (length (a_kvs a')) ≤ a_cap a' ∧ 0 < a_cap a' < 2 ^ 62.
Proof.
  intros Hi Hlen Hcap Hx.
  assert (2 ^ 62 < int_max) as H62 by (unfold int_max; lia).
  pose proof Hi as (_ & R & _ & _). pose proof (rep_nodup _ _ R) as Hnd.
  pose proof (m_evict_length a) as Hev.
  assert (Z.of_nat (length (a_kvs a)) < int_max) as Hlt by lia.
  destruct x as [k v|k v|k v|k| | |n|k|k|k| | | | | ]; cbn [golru.run_call positive_resize] in *.
  - destruct (Add_protocol c a k v Hi (or_intror Hlt)) as (c' & E & Hi' & Hcb' & _).
    destruct (m_lengths a k v) as (Hl & _); [done|done|lia|].
    eexists c', _. split_and!; [|exact Hi'|done|..]; cbn [a_kvs a_cap]; [|lia..].
    eapply eq_trans; [apply SE_bind_run; exact E|]. done.
  - destruct (ContainsOrAdd_protocol c a k v Hi (or_intror Hlt)) as (c' & E & Hi' & Hcb' & _).
    destruct (m_lengths a k v) as (Hl & _); [done|done|lia|].
    eexists c', _. split_and!; [|exact Hi'|done|..]; cbn [a_kvs a_cap];
      [|case_bool_decide; lia|lia..].
    eapply eq_trans; [apply SE_bind_run; exact E|]. done.
  - destruct (PeekOrAdd_protocol c a k v Hi (or_intror Hlt)) as (c' & E & Hi' & Hcb' & _).
    destruct (m_lengths a k v) as (Hl & _); [done|done|lia|].
    eexists c', _. split_and!; [|exact Hi'|done|..]; cbn [a_kvs a_cap];
      [|destruct (value_of k (a_kvs a)); lia|lia..].
    eapply eq_trans; [apply SE_bind_run; exact E|]. done.
  - destruct (Remove_protocol c a k Hi) as (c' & E & Hi' & Hcb' & _).
    destruct (m_lengths a k zero) as (_ & _ & Hl); [done|done|lia|].
    eexists c', _. split_and!; [|exact Hi'|done|..]; cbn [a_kvs a_cap]; [|lia..].
    eapply eq_trans; [apply SE_bind_run; exact E|]. done.
  - destruct (RemoveOldest_protocol c a Hi) as (r & c' & E & Hi' & Hcb' & _).
    eexists c', _. split_and!; [|exact Hi'|done|..]; cbn [a_kvs a_cap]; [|lia..].
    eapply eq_trans; [apply SE_bind_run; exact E|]. done.
  - destruct (Purge_protocol c a Hi) as (c' & gone & E & _ & Hi' & Hcb' & _).
    eexists c', _. split_and!; [exact E|exact Hi'|done|..]; cbn [a_kvs a_cap length]; lia.
  - destruct Hx as [Hpos Hsm]. unfold small in Hsm.
    destruct (Resize_positive_run c a n Hi) as (c' & E & Hi' & Hcb'); [lia|].
    eexists c', _. split_and!; [|exact Hi'|done|..]; cbn [a_kvs a_cap];
      [|rewrite length_take; lia|lia..].
    eapply eq_trans; [apply SE_bind_run; exact E|]. done.
  - destruct (Get_run c a k Hi) as (r & c' & E & Hi' & Hcb').
    destruct (m_lengths a k zero) as (_ & Hl & _); [done|done|lia|].
    exists c', (m_get k a).2. split_and!; [|exact Hi'|done|..].
    + eapply eq_trans; [apply SE_bind_run; exact E|]. done.
    + rewrite Hl. unfold m_get. destruct (value_of k (a_kvs a)); cbn; lia.
    + unfold m_get. destruct (value_of k (a_kvs a)); cbn; lia.
    + unfold m_get. destruct (value_of k (a_kvs a)); cbn; lia.
  - destruct (locked_read_run OpContains (simplelru.Contains k) c a _ Hi
                (Contains_rep _ _ k R)) as (c' & E & Hi' & Hcb').
    exists c', a. split_and!; [|done|done|lia..].
    eapply eq_trans; [apply SE_bind_run; exact E|]. done.
  - destruct (locked_read_run OpPeek (simplelru.Peek k) c a _ Hi
                (Peek_rep _ _ k R)) as (c' & E & Hi' & Hcb').
    exists c', a. split_and!; [|done|done|lia..].
    eapply eq_trans; [apply SE_bind_run; exact E|]. done.
  - destruct (unlocked_read_run OpGetOldest simplelru.GetOldest c a _ Hi
                (GetOldest_rep _ _ R)) as (c' & E & Hi' & Hcb').
    exists c', a. split_and!; [|done|done|lia..].
    eapply eq_trans; [apply SE_bind_run; exact E|]. done.
  - destruct (unlocked_read_run OpKeys simplelru.Keys c a _ Hi
                (Keys_rep _ _ R)) as (c' & E & Hi' & Hcb').
    exists c', a. split_and!; [|done|done|lia..].
    eapply eq_trans; [apply SE_bind_run; exact E|]. done.
  - destruct (unlocked_read_run OpVals simplelru.Vals c a _ Hi
                (Vals_rep _ _ R)) as (c' & E & Hi' & Hcb').
    exists c', a. split_and!; [|done|done|lia..].
    eapply eq_trans; [apply SE_bind_run; exact E|]. done.
  - destruct (unlocked_read_run OpLen simplelru.Len c a _ Hi
                (Len_rep _ _ R)) as (c' & E & Hi' & Hcb').
    exists c', a. split_and!; [|done|done|lia..].
    eapply eq_trans; [apply SE_bind_run; exact E|]. done.
  - destruct c as [mx s cbf t]. eexists _, a. split_and!; [|split_and!|..].
    + pose proof (Cap_rep _ _ R) as EC. cbn [ctl] in EC.
      unfold golru.Cap, call, mbind, SE_bind, mret, SE_ret. cbn [ctl]. rewrite EC.
      reflexivity.
    + apply Hi.
    + apply Hi.
    + apply Hi.
    + apply Hi.
    + done.
    + lia.
    + lia.
    + lia.
Qed.

Lemma wrapper_calls_keep (xs : list (golru.Call K V)) : ∀ c a,
  idle c a → Z.of_nat (length (a_kvs a)) ≤ a_cap a → 0 < a_cap a < 2 ^ 62 →
  Forall positive_resize xs →
  ∃ c' a', golru.run_calls xs c = Some (tt, c') ∧ idle c' a' ∧
    onEvictCb c' = onEvictCb c ∧
    Z.of_nat (length (a_kvs a')) ≤ a_cap a' ∧ 0 < a_cap a' < 2 ^ 62.
Proof.
  induction xs as [|x xs IH]; intros c a Hi Hlen Hcap Hxs.
  - exists c, a. split_and!; [done|done|done|lia..].
  - apply Forall_cons in Hxs as [Hx Hxs].
    destruct (wrapper_call_keeps x c a Hi Hlen Hcap Hx)
      as (c1 & a1 & E1 & Hi1 & Hcb1 & Hlen1 & Hcap1).
    destruct (IH c1 a1 Hi1 Hlen1 Hcap1 Hxs) as (c' & a' & E & Hi' & Hcb' & Hlen' & Hcap').
    exists c', a'. split_and!; [|done|congruence|lia..].
    cbn [golru.run_calls]. eapply eq_trans; [apply SE_bind_run; exact E1|]. exact E.
Qed.

(** X25. With one caller, no sequence of calls of the wrapper blocks or
    panics. On a cache made by [NewLruWithEvict], any calls of its fifteen
    methods, in any order ([Resize] with positive sizes, all sizes below
    [2^62]), all return; after them nobody holds the mutex, the buffers
    are empty, and the controller holds no more pairs than its capacity
    allows. *)
Theorem wrapper_calls_never_block (size : Z) (cbf : bool) (h : dll.Heap K V)
    (xs : list (golru.Call K V)) :
  0 < size → small size → Forall positive_resize xs →
  ∃ c0 c n m,
    NewLruWithEvict size cbf h = Some (inl c0) ∧
    golru.run_calls xs c0 = Some (tt, c) ∧
    rwm c = free ∧ buffers c = mkBuffers [] [] ∧ onEvictCb c = cbf ∧
    simplelru.Len (ctl c) = Some (n, ctl c) ∧
    simplelru.Cap (ctl c) = Some (m, ctl c) ∧ 0 ≤ n ≤ m.
Proof.
  intros Hpos Hsm Hxs. unfold small in Hsm.
  destruct (new_cache_rep size (if cbf then Some onEvict else None) h (mkBuffers [] []))
    as (s & E & R); [lia|].
  assert (NewLruWithEvict size cbf h = Some (inl (mkCache free s cbf []))) as E0.
  { revert E. unfold NewLruWithEvict, new_cache.
    destruct (simplelru.NewLru size _ h) as [[[c0|?] h']|]; [|done..].
    by intros [= <-]. }
  destruct (wrapper_calls_keep xs (mkCache free s cbf []) _ (conj eq_refl (conj R (conj eq_refl eq_refl))))
    as (c & a & Erun & Hi & Hcb & Hlen & Hcap); [cbn; lia|cbn; lia|done|].
  destruct Hi as (Hm & Rc & _ & Hw).
  eexists (mkCache free s cbf []), c, _, _.
  split_and!; [done|done|done| |done|apply (Len_rep _ _ Rc)|apply (Cap_rep _ _ Rc)|lia|done].
  unfold buffers. by destruct Rc as (_ & _ & -> & _).
Qed.
End wrapper_coverage.
(** ** Instances, on the lists and caches of [Examples] *)

(** A third entry pushed on the list of two, with an expiry time. *)
Lemma PushFrontExpirable_at_front_witness :
  ∃ e h', dll.PushFrontExpirable 1%positive 7 70 99 Examples.h_two = Some (e, h') ∧
    dll.is_list h' 1%positive [e; 3%positive; 2%positive] ∧
    dll.fld dll.ekv h' e = Some (7, 70) ∧ dll.fld dll.ExpiresAt h' e = Some 99 ∧
    dll.Length 1%positive h' = Some (3, h') ∧ dll.PrevEntry e h' = Some (None, h').
Proof.
  destruct (PushFrontExpirable_at_front Examples.h_two 1%positive
              [3%positive; 2%positive] 7 70 99 claims.h_two_is_list)
    as (_ & e & h' & E & _ & Hl & Hkv & Ht & _ & HL & HP); [compute_done|].
  exists e, h'. split_and!; [exact E|exact Hl|exact Hkv|exact Ht|exact HL|exact HP].
Defined.

(** The older entry of the list of two removed. *)
Lemma Remove_takes_out_witness :
  ∃ v h', dll.Remove 1%positive 2%positive Examples.h_two = Some (v, h') ∧
    dll.fld dll.Val Examples.h_two 2%positive = Some v ∧
    dll.is_list h' 1%positive [3%positive] ∧
    dll.Length 1%positive h' = Some (1, h') ∧
    dll.PrevEntry 2%positive h' = Some (None, h').
Proof.
  destruct (Remove_takes_out Examples.h_two 1%positive [3%positive] 2%positive []
              claims.h_two_is_list) as (v & h' & E & Hv & Hl & HL & _ & _ & HP).
  exists v, h'. split_and!; [exact E|exact Hv|exact Hl|exact HL|exact HP].
Defined.

(** The older entry of the list of two moved to the front. *)
Lemma MoveToFront_reorders_witness :
  ∃ h', dll.MoveToFront 1%positive 2%positive Examples.h_two = Some (tt, h') ∧
    dll.is_list h' 1%positive [2%positive; 3%positive] ∧
    dll.Back 1%positive h' = Some (Some 3%positive, h').
Proof.
  destruct (MoveToFront_reorders Examples.h_two 1%positive [3%positive] 2%positive []
              claims.h_two_is_list) as (h' & E & Hl & _ & _ & _ & HB & _).
  exists h'. split_and!; [exact E|exact Hl|exact HB].
Defined.

(** The list of two initialised again. *)
Lemma Init_empties_witness :
  ∃ h', dll.Init 1%positive Examples.h_two = Some (1%positive, h') ∧
    dll.is_list h' 1%positive [] ∧ dll.Back 1%positive h' = Some (None, h') ∧
    dll.fld dll.list_ h' 3%positive = Some (Some 1%positive).
Proof.
  destruct (Init_empties Examples.h_two 1%positive [3%positive; 2%positive]
              claims.h_two_is_list) as (h' & E & Hl & _ & HB & _ & Ho).
  exists h'. split_and!; [exact E|exact Hl|exact HB|]. apply Ho. set_solver.
Defined.

(** The key 9 on the cache of three pairs, which does not hold it. *)
Lemma absent_key_changes_nothing_witness :
  ∃ s, Examples.three = Some s ∧
    simplelru.Get 9 s = Some ((0, false), s) ∧ simplelru.Peek 9 s = Some ((0, false), s) ∧
    simplelru.Contains 9 s = Some (false, s) ∧ simplelru.Remove 9 s = Some (false, s).
Proof.
  destruct claims.three_rep as (s & E & R). exists s. split; [exact E|].
  apply (absent_key_changes_nothing s _ 9 R). compute_done.
Defined.

(** [Get(1)] on the cache of three pairs. *)
Lemma Get_refreshes_witness :
  ∃ s s', Examples.three = Some s ∧
    simplelru.Keys s = Some ([1; 2; 3], s) ∧
    simplelru.Get 1 s = Some ((10, true), s') ∧
    simplelru.Keys s' = Some ([2; 3; 1], s') ∧
    simplelru.Len s' = Some (3, s') ∧ simplelru.world s' = simplelru.world s.
Proof.
  destruct claims.three_rep as (s & E & R).
  destruct (Get_refreshes s _ 1 10 R)
    as (ks & vs & n & s' & EK & EV & EL & EG & EK' & _ & EL' & _ & Hw); [compute_done|].
  rewrite (Keys_rep _ _ R) in EK. rewrite (Len_rep _ _ R) in EL.
  injection EK as <-. injection EL as <-.
  exists s, s'. split_and!; [exact E|exact (Keys_rep _ _ R)|exact EG|exact EK'|exact EL'|exact Hw].
Defined.

(** [Peek(2)] and [Contains(2)] on the cache of three pairs. *)
Lemma Peek_does_not_refresh_witness :
  ∃ s, Examples.three = Some s ∧
    simplelru.Peek 2 s = Some ((20, true), s) ∧ simplelru.Contains 2 s = Some (true, s).
Proof.
  destruct claims.three_rep as (s & E & R). exists s. split; [exact E|].
  apply (Peek_does_not_refresh s _ 2 20 R). compute_done.
Defined.

(** [GetOldest] on the cache of three pairs. *)
Lemma GetOldest_is_first_listed_witness :
  ∃ s, Examples.three = Some s ∧ simplelru.GetOldest s = Some ((1, 10, true), s).
Proof.
  destruct claims.three_rep as (s & E & R).
  destruct (GetOldest_is_first_listed s _ R) as (ks & vs & EK & EV & EO).
  rewrite (Keys_rep _ _ R) in EK. rewrite (Vals_rep _ _ R) in EV.
  injection EK as <-. injection EV as <-.
  exists s. split; [exact E|exact EO].
Defined.

(** [RemoveOldest] on the cache of three pairs. *)
Lemma RemoveOldest_removes_first_listed_witness :
  ∃ s s', Examples.three = Some s ∧
    simplelru.RemoveOldest s = Some ((1, 10, true), s') ∧
    simplelru.Keys s' = Some ([2; 3], s') ∧ simplelru.Vals s' = Some ([20; 30], s') ∧
    simplelru.world s' = simplelru.world s ++ [(1, 10)].
Proof.
  destruct claims.three_rep as (s & E & R).
  destruct (RemoveOldest_removes_first_listed s _ R)
    as (ks & vs & s' & EK & EV & ER & EK' & EV' & Hw).
  rewrite (Keys_rep _ _ R) in EK. rewrite (Vals_rep _ _ R) in EV.
  injection EK as <-. injection EV as <-.
  exists s, s'. split_and!; [exact E|exact ER|exact EK'|exact EV'|exact Hw].
Defined.

(** [Remove(2)] on the cache of three pairs. *)
Lemma Remove_present_key_witness :
  ∃ s s', Examples.three = Some s ∧
    simplelru.Remove 2 s = Some (true, s') ∧
    simplelru.Keys s' = Some ([1; 3], s') ∧ simplelru.Len s' = Some (2, s') ∧
    simplelru.world s' = simplelru.world s ++ [(2, 20)] ∧
    simplelru.Contains 2 s' = Some (false, s').
Proof.
  destruct claims.three_rep as (s & E & R).
  destruct (Remove_present_key s _ 2 20 R)
    as (ks & n & s' & EK & EL & ER & EK' & EL' & Hw & EC & _); [compute_done|].
  rewrite (Keys_rep _ _ R) in EK. rewrite (Len_rep _ _ R) in EL.
  injection EK as <-. injection EL as <-.
  exists s, s'. split_and!; [exact E|exact ER|exact EK'|exact EL'|exact Hw|exact EC].
Defined.

(** [Purge] on the cache of three pairs. *)
Lemma Purge_empties_witness :
  ∃ s s' gone, Examples.three = Some s ∧
    simplelru.Purge s = Some (tt, s') ∧ gone ≡ₚ [(3, 30); (2, 20); (1, 10)] ∧
    simplelru.world s' = simplelru.world s ++ gone ∧
    simplelru.Len s' = Some (0, s') ∧ simplelru.Cap s' = Some (3, s') ∧
    simplelru.Keys s' = Some ([], s').
Proof.
  destruct claims.three_rep as (s & E & R).
  destruct (Purge_empties s _ R) as (s' & gone & EP & Hp & Hw & EL & EC & EK & _).
  exists s, s', gone. split_and!; [exact E|exact EP|exact Hp| |exact EL|exact EC|exact EK].
  rewrite Hw. clear. cbn [simplelru.a_cb]. generalize (simplelru.world s).
  induction gone as [|[k v] gone IH]; intros w.
  - by rewrite app_nil_r.
  - change (simplelru.fire Examples.log ((k, v) :: gone) w)
      with (simplelru.fire Examples.log gone (w ++ [(k, v)])).
    rewrite IH. by rewrite <-app_assoc.
Defined.

(** [Add(3, 30)] on a cache of capacity 3 that holds two pairs. *)
Lemma Add_new_key_with_room_witness :
  ∃ s0 bs s s',
    simplelru.new_cache 3 Examples.log Examples.heap0 [] = Some s0 ∧
    simplelru.Adds [(1, 10); (2, 20)] s0 = Some (bs, s) ∧
    simplelru.Add 3 30 s = Some (false, s') ∧
    simplelru.Keys s' = Some ([1; 2; 3], s') ∧ simplelru.Vals s' = Some ([10; 20; 30], s') ∧
    simplelru.Len s' = Some (3, s') ∧ simplelru.world s' = simplelru.world s.
Proof.
  destruct (built_rep 3 Examples.log Examples.heap0 [] [(1, 10); (2, 20)])
    as (s0 & s & E0 & E & R & _); [compute_done|].
  destruct (Add_new_key_with_room s _ 3 30 R)
    as (ks & vs & n & s' & EK & EV & EL & EA & EK' & EV' & EL' & Hw);
    [compute_done|compute_done|compute_done|].
  rewrite (Keys_rep _ _ R) in EK. rewrite (Vals_rep _ _ R) in EV.
  rewrite (Len_rep _ _ R) in EL.
  injection EK as <-. injection EV as <-. injection EL as <-.
  eexists s0, _, s, s'.
  split_and!; [exact E0|exact E|exact EA|exact EK'|exact EV'|exact EL'|exact Hw].
Defined.

(** [Add(4, 40)] on the cache of three pairs, which is full. *)
Lemma Add_new_key_evicts_oldest_witness :
  ∃ s s', Examples.three = Some s ∧
    simplelru.Add 4 40 s = Some (true, s') ∧
    simplelru.Keys s' = Some ([2; 3; 4], s') ∧ simplelru.Vals s' = Some ([20; 30; 40], s') ∧
    simplelru.Len s' = Some (3, s') ∧
    simplelru.world s' = simplelru.world s ++ [(1, 10)].
Proof.
  destruct claims.three_rep as (s & E & R).
  destruct (Add_new_key_evicts_oldest s _ 4 40 1 10 [2; 3] [20; 30] R)
    as (n & s' & EL & EA & EK' & EV' & EL' & Hw);
    [compute_done|compute_done|compute_done
    |exact (Keys_rep _ _ R)|exact (Vals_rep _ _ R)|].
  rewrite (Len_rep _ _ R) in EL. injection EL as <-.
  exists s, s'. split_and!; [exact E|exact EA|exact EK'|exact EV'|exact EL'|exact Hw].
Defined.

(** [Add(4, 40)] on the cache of three pairs, then the lookups of 4. *)
Lemma Add_then_Get_witness :
  ∃ s evicted s1 s2, Examples.three = Some s ∧
    simplelru.Add 4 40 s = Some (evicted, s1) ∧
    simplelru.Contains 4 s1 = Some (true, s1) ∧
    simplelru.Peek 4 s1 = Some ((40, true), s1) ∧
    simplelru.Get 4 s1 = Some ((40, true), s2).
Proof.
  destruct claims.three_rep as (s & E & R).
  destruct (Add_then_Get s _ 4 40 R) as (ev & s1 & s2 & EA & EC & EP & EG);
    [compute_done|right; compute_done|].
  exists s, ev, s1, s2. split_and!; [exact E|exact EA|exact EC|exact EP|exact EG].
Defined.

(** A cache of capacity 1 resized to 0, then [Add(5, 50)]. *)
Lemma Add_at_capacity_zero_witness :
  ∃ s0 s1 s',
    simplelru.new_cache 1 Examples.log Examples.heap0 [] = Some s0 ∧
    simplelru.Resize 0 s0 = Some (0, s1) ∧
    simplelru.Add 5 50 s1 = Some (true, s') ∧
    simplelru.Len s' = Some (0, s') ∧ simplelru.Keys s' = Some ([], s') ∧
    simplelru.Contains 5 s' = Some (false, s') ∧
    simplelru.world s' = simplelru.world s1 ++ [(5, 50)].
Proof.
  destruct (new_cache_rep 1 Examples.log Examples.heap0 []) as (s0 & E0 & R0); [lia|].
  destruct (Resize_rep _ _ 0 R0) as (s1 & E1 & R1).
  destruct (Add_at_capacity_zero s1 _ 5 50 R1) as (s' & EA & EL & EK & EC & Hw);
    [reflexivity|reflexivity|].
  exists s0, s1, s'.
  split_and!; [exact E0|exact E1|exact EA|exact EL|exact EK|exact EC|exact Hw].
Defined.

(** The cache of three pairs, listed. *)
Lemma Keys_and_Vals_agree_witness :
  ∃ s, Examples.three = Some s ∧
    simplelru.Keys s = Some ([1; 2; 3], s) ∧ simplelru.Vals s = Some ([10; 20; 30], s) ∧
    simplelru.Len s = Some (3, s) ∧ simplelru.Peek 2 s = Some ((20, true), s).
Proof.
  destruct claims.three_rep as (s & E & R).
  destruct (Keys_and_Vals_agree s _ R) as (ks & vs & EK & EV & EL & _ & _ & HP).
  rewrite (Keys_rep _ _ R) in EK. rewrite (Vals_rep _ _ R) in EV.
  injection EK as <-. injection EV as <-.
  exists s. split_and!; [exact E|exact (Keys_rep _ _ R)|exact (Vals_rep _ _ R)|exact EL|].
  exact (HP 1%nat 2 20 eq_refl eq_refl).
Defined.

(** Six calls on a cache of capacity 2, a [Resize(0)] among them. *)
Lemma calls_never_panic_witness :
  ∃ s0 s n m ks,
    simplelru.new_cache 2 Examples.log Examples.heap0 [] = Some s0 ∧
    simplelru.run_calls
      [simplelru.CAdd 1 10; simplelru.CAdd 2 20; simplelru.CAdd 3 30;
       simplelru.CResize 0; simplelru.CAdd 4 40; simplelru.CPurge] s0 = Some (tt, s) ∧
    simplelru.Len s = Some (n, s) ∧ simplelru.Cap s = Some (m, s) ∧
    simplelru.Keys s = Some (ks, s) ∧ NoDup ks ∧ Z.of_nat (length ks) = n ∧ n ≤ m.
Proof.
  apply (calls_never_panic 2 Examples.log Examples.heap0 []).
  - lia.
  - unfold simplelru.small. lia.
  - repeat constructor. unfold simplelru.small. lia.
Defined.

(** [Add(3, 30)] through the wrapper of capacity 2 that holds two pairs:
    the pair (1, 10) is evicted and delivered. *)
Lemma mutators_return_and_stay_idle_witness :
  ∃ c r c', Examples.full_wrapper = Some c ∧
    golru.Add 3 30 c = Some (r, c') ∧
    golru.follows_protocol true [(1, 10)] (golru.events_since c c') ∧
    golru.idle c' (simplelru.mkAbs 2 (Some golru.onEvict) [(3, 30); (2, 20)]
                                   (golru.mkBuffers [] [])).
Proof.
  destruct claims.full_wrapper_idle as (c & E & Hcb & Hi).
  destruct (mutators_return_and_stay_idle c _ 3 30 Hi)
    as ((r & s' & c' & _ & EA & Hi' & HP) & _); [compute_done|].
  rewrite Hcb in HP.
  exists c, r, c'. split_and!; [exact E|exact EA|exact HP|exact Hi'].
Defined.

(** [ContainsOrAdd(1, 99)] on that wrapper, which holds the key 1. *)
Lemma ContainsOrAdd_adds_only_if_absent_witness :
  ∃ c c', Examples.full_wrapper = Some c ∧
    golru.ContainsOrAdd 1 99 c = Some ((true, false), c') ∧
    golru.idle c' (simplelru.mkAbs 2 (Some golru.onEvict) [(2, 20); (1, 10)]
                                   (golru.mkBuffers [] [])) ∧
    golru.follows_protocol (golru.onEvictCb c) [] (golru.events_since c c').
Proof.
  destruct claims.full_wrapper_idle as (c & E & Hcb & Hi).
  destruct (ContainsOrAdd_adds_only_if_absent c _ 1 99 Hi) as (c' & EA & Hi' & HP);
    [compute_done|].
  exists c, c'. split_and!; [exact E|exact EA|exact Hi'|exact HP].
Defined.

(** [PeekOrAdd(1, 99)] on that wrapper. *)
Lemma PeekOrAdd_adds_only_if_absent_witness :
  ∃ c c', Examples.full_wrapper = Some c ∧
    golru.PeekOrAdd 1 99 c = Some ((10, true, false), c') ∧
    golru.idle c' (simplelru.mkAbs 2 (Some golru.onEvict) [(2, 20); (1, 10)]
                                   (golru.mkBuffers [] [])) ∧
    golru.follows_protocol (golru.onEvictCb c) [] (golru.events_since c c').
Proof.
  destruct claims.full_wrapper_idle as (c & E & Hcb & Hi).
  destruct (PeekOrAdd_adds_only_if_absent c _ 1 99 Hi) as (c' & EA & Hi' & HP);
    [compute_done|].
  exists c, c'. split_and!; [exact E|exact EA|exact Hi'|exact HP].
Defined.

(** [Keys()] and [Get(1)] through that wrapper. *)
Lemma readers_return_controllers_answer_witness :
  ∃ c, Examples.full_wrapper = Some c ∧
    (∃ r c', simplelru.Keys (golru.ctl c) = Some (r, golru.ctl c) ∧
             golru.Keys c = Some (r, c') ∧ golru.ctl c' = golru.ctl c) ∧
    (∃ r s' c', simplelru.Get 1 (golru.ctl c) = Some (r, s') ∧
                golru.Get 1 c = Some (r, c') ∧ golru.ctl c' = s').
Proof.
  destruct claims.full_wrapper_idle as (c & E & Hcb & Hi).
  destruct (readers_return_controllers_answer c _ 1 Hi)
    as (_ & _ & _ & (r & c' & EK & EW & Hc & _) & _ & _ & _ & (rg & sg & cg & EG & EWG & Hg & _)).
  exists c. split_and!; [exact E| |].
  - exists r, c'. split_and!; [exact EK|exact EW|exact Hc].
  - exists rg, sg, cg. split_and!; [exact EG|exact EWG|exact Hg].
Defined.
(** Eight calls on a wrapper of capacity 2 with a callback. *)
Lemma wrapper_calls_never_block_witness :
  ∃ c0 c n m,
    golru.NewLruWithEvict 2 true Examples.heap0 = Some (inl c0) ∧
    golru.run_calls
      [golru.CAdd 1 10; golru.CAdd 2 20; golru.CAdd 3 30; golru.CKeys;
       golru.CContainsOrAdd 1 5; golru.CResize 1; golru.CPurge; golru.CGet 1] c0
      = Some (tt, c) ∧
    golru.rwm c = golru.free ∧ golru.buffers c = golru.mkBuffers [] [] ∧
    golru.onEvictCb c = true ∧
    simplelru.Len (golru.ctl c) = Some (n, golru.ctl c) ∧
    simplelru.Cap (golru.ctl c) = Some (m, golru.ctl c) ∧ 0 ≤ n ≤ m.
Proof.
  apply (wrapper_calls_never_block 2 true Examples.heap0).
  - lia.
  - unfold simplelru.small. lia.
  - repeat constructor; unfold simplelru.small; lia.
Defined.
End coverage.
